(** * chargefinder: charger normalisation, place–charger correlation and filtering

    A shallow embedding of the JavaScript sources

      - [utils/distance.js]        (Haversine distance, walking time),
      - [services/openChargeMap.js] ([parseChargerData], the pre-filter of
                                     [getNearbyChargers]),
      - [services/googleMaps.js]    (the result shaping of [searchPlaces] and
                                     of [getMultipleDistances]),
      - [components/FilterPanel.jsx] (the handlers of the panel),
      - [components/MapView.jsx]    ([loadDataFromLocation], the filter effect
                                     and the steps of the component),

    then the vocabulary in which the specification is stated, then the
    properties themselves.

    JavaScript Numbers are IEEE-754 binary64 values; they are embedded as
    Rocq's primitive [float], whose operations are the same binary64
    operations.  Strings are [string], the sequence of their UTF-8 bytes;
    [null]/[undefined] fields of the upstream payloads are [option]s;
    string-literal enumerations (['level1' | 'level2' | ...]) are inductive
    types.  Network requests are left out: a function that awaits a fetch
    takes what the fetch returned.  An effect is the function from the state
    it reads to the state its [setState] calls leave, and the component over
    time is a step relation on its state and on the runs of
    [loadDataFromLocation] under way. *)

From Stdlib Require Import ZArith Zpower QArith Qabs List String Ascii Bool Lia
  Floats DecimalString Sorted Permutation.
Import ListNotations.

Close Scope Q_scope.
Set Warnings "-inexact-float".

(* ================================================================== *)
(** ** The fragment of the JavaScript runtime the sources rely on     *)
(* ================================================================== *)

Module JS.

Local Open Scope float_scope.

(** [ToBoolean] on a Number: [+0], [-0] and [NaN] are falsy. *)
Definition truthy (x : float) : bool := negb (is_zero x || is_nan x).

(** [x || d] where [x] is a Number, [null] or [undefined]. *)
Definition orNum (x : option float) (d : float) : float :=
  match x with
  | Some v => if truthy v then v else d
  | None => d
  end.

(** [s || d] where [s] is a String, [null] or [undefined]:
    the empty string is falsy. *)
Definition orStr (s : option string) (d : string) : string :=
  match s with
  | Some (String a r) => String a r
  | _ => d
  end.

(** [b ?? d] on an optional boolean. *)
Definition nullish (b : option bool) (d : bool) : bool :=
  match b with
  | Some v => v
  | None => d
  end.

(** [b === v] for a boolean literal [v], where [b] may be [null] or
    [undefined]. *)
Definition strictEq (b : option bool) (v : bool) : bool :=
  match b with
  | Some x => Bool.eqb x v
  | None => false
  end.

(** [ToBoolean] on a boolean that may be [null]/[undefined]. *)
Definition truthyFlag (b : option bool) : bool := nullish b false.

Definition isPosZero (x : float) : bool := is_zero x && negb (get_sign x).
Definition isNegZero (x : float) : bool := is_zero x && get_sign x.

(** [Math.max(...values)] (ECMA-262, 21.3.2.24): [NaN] if any argument is
    [NaN]; otherwise the scan starts from [-Infinity], and [+0] counts as
    larger than [-0]. *)
Definition Math_max (values : list float) : float :=
  if existsb is_nan values then nan
  else fold_left
         (fun highest number =>
            if (isPosZero number && isNegZero highest) || (highest <? number)
            then number else highest)
         values neg_infinity.

(** [Math.min(...values)] (ECMA-262, 21.3.2.25). *)
Definition Math_min (values : list float) : float :=
  if existsb is_nan values then nan
  else fold_left
         (fun lowest number =>
            if (isNegZero number && isPosZero lowest) || (number <? lowest)
            then number else lowest)
         values infinity.

(** [Math.sqrt] is the correctly rounded binary64 square root. *)
Definition Math_sqrt (x : float) : float := sqrt x.

(** [Math.PI]. *)
Definition Math_PI : float := 0x1.921fb54442d18p+1.

(** [a !== b] on Numbers: IEEE inequality, so [NaN !== NaN]. *)
Definition strictNeq (a b : float) : bool := negb (a =? b).

(** Integral Numbers, the results of [Math.floor] and [Math.round].  The
    sign of a zero result is dropped: neither [===], [>] nor the conversion
    to a string can see it. *)
Inductive Integral : Type :=
| IntNaN
| IntInfinity (negative : bool)
| IntFinite (z : Z).

(** The signed integer mantissa of a finite binary64 value
    [(-1)^s * m * 2^e]. *)
Definition signed (s : bool) (m : positive) : Z := cond_Zopp s (Zpos m).

(** [Math.floor(x)]: the largest integer not above [x], computed exactly on
    the mantissa and exponent of [x]. *)
Definition Math_floor (x : float) : Integral :=
  match Prim2SF x with
  | S754_nan => IntNaN
  | S754_infinity s => IntInfinity s
  | S754_zero _ => IntFinite 0
  | S754_finite s m e =>
      IntFinite (if (0 <=? e)%Z then (signed s m * 2 ^ e)%Z
                 else (signed s m / 2 ^ (- e))%Z)
  end.

(** [Math.round(x)]: the integer closest to [x], ties going towards
    [+Infinity]; that is [floor(x + 1/2)] computed exactly. *)
Definition Math_round (x : float) : Integral :=
  match Prim2SF x with
  | S754_nan => IntNaN
  | S754_infinity s => IntInfinity s
  | S754_zero _ => IntFinite 0
  | S754_finite s m e =>
      IntFinite (if (0 <=? e)%Z then (signed s m * 2 ^ e)%Z
                 else ((2 * signed s m + 2 ^ (- e)) / 2 ^ (1 - e))%Z)
  end.

(** [n % d] on Numbers (ECMA-262, 6.1.6.1.6): the exact remainder of the
    truncating division, with the sign of the dividend. *)
Definition rem (n d : float) : float :=
  match Prim2SF n, Prim2SF d with
  | S754_nan, _ | _, S754_nan => nan
  | S754_infinity _, _ => nan
  | _, S754_zero _ => nan
  | _, S754_infinity _ => n
  | S754_zero _, _ => n
  | S754_finite sn mn en, S754_finite _ md ed =>
      let e := Z.min en ed in
      let r := Z.rem (Zpos mn * 2 ^ (en - e)) (Zpos md * 2 ^ (ed - e)) in
      if (r =? 0)%Z then (if sn then neg_zero else zero)
      else SF2Prim (binary_normalize prec emax (cond_Zopp sn r) e false)
  end.

(** [i === 0] *)
Definition isZero (i : Integral) : bool :=
  match i with
  | IntFinite z => (z =? 0)%Z
  | _ => false
  end.

(** [i > 1] *)
Definition gt1 (i : Integral) : bool :=
  match i with
  | IntFinite z => (1 <? z)%Z
  | IntInfinity negative => negb negative
  | IntNaN => false
  end.

(** Decimal rendering of an integer. *)
Definition decimal (z : Z) : string := NilZero.string_of_int (Z.to_int z).

(** The Number nearest to an integer, ties going to the even mantissa. *)
Definition nearestNumber (v : Z) : spec_float :=
  binary_normalize prec emax v 0 false.

(** [v] reads back as the Number [z] is. *)
Definition readsBackAs (z v : Z) : bool :=
  SFeqb (nearestNumber v) (nearestNumber z).

(** The number of decimal digits of a positive integer. *)
Definition digits10 (z : Z) : Z := Z.of_nat (String.length (decimal z)).

(** The integer whose digits [Number::toString] prints for a positive
    integral Number [z] of [n] digits (ECMA-262, 6.1.6.1.20, step 5): among
    the integers [s * 10^(n - k)] that read back as [z], one with the least
    number [k] of significant digits [s], and of these the one closest to
    [z], the even [s] on a tie (the choice of Note 2, which the engines
    implement).  For each [k] from 1 upwards only the two multiples of
    [10^(n - k)] around [z] need be looked at; with [k = n] the lower one is
    [z] itself. *)
Fixpoint shortestFrom (z n : Z) (fuel : nat) (k : Z) : Z :=
  match fuel with
  | O => z
  | S fuel' =>
      let unit := (10 ^ (n - k))%Z in
      let low := (z / unit * unit)%Z in
      let high := (low + unit)%Z in
      match readsBackAs z low, readsBackAs z high with
      | true, true =>
          if (z - low <? high - z)%Z then low
          else if (high - z <? z - low)%Z then high
          else if Z.even (z / unit) then low else high
      | true, false => low
      | false, true => high
      | false, false => shortestFrom z n fuel' (k + 1)
      end
  end.

Definition shortest (z : Z) : Z :=
  shortestFrom z (digits10 z) (Z.to_nat (digits10 z)) 1.

(** A positive integer without its trailing zeros. *)
Fixpoint significand (fuel : nat) (v : Z) : Z :=
  match fuel with
  | O => v
  | S fuel' =>
      if (v mod 10 =? 0)%Z then significand fuel' (v / 10) else v
  end.

(** The digits of [s], a decimal point after the first one when there are
    more, and the exponent: ["1e+21"], ["1.1805916207174113e+21"]. *)
Definition exponential (v : Z) : string :=
  let n := digits10 v in
  let s := decimal (significand (Z.to_nat n) v) in
  match s with
  | EmptyString => s
  | String d EmptyString => String d ("e+" ++ decimal (n - 1))
  | String d more => String d ("." ++ more ++ "e+" ++ decimal (n - 1))
  end.

(** [Number::toString] on a positive integral Number.  Below [2^53] every
    integer is a Number, so that no shorter digit string reads back as [z]:
    the digits are those of [z].  From [2^53] on the digits are the
    shortest that read back as [z], followed by zeros up to 21 digits in
    all, and in exponential notation beyond. *)
Definition positiveToString (z : Z) : string :=
  if (z <? 2 ^ 53)%Z then decimal z
  else
    let v := shortest z in
    if (digits10 v <=? 21)%Z then decimal v else exponential v.

(** [`${i}`] for an integral Number (ECMA-262, 6.1.6.1.20). *)
Definition toString (i : Integral) : string :=
  match i with
  | IntNaN => "NaN"
  | IntInfinity false => "Infinity"
  | IntInfinity true => "-Infinity"
  | IntFinite z =>
      if (z <? 0)%Z then "-" ++ positiveToString (- z)
      else positiveToString z
  end.

(** A text is the sequence of its UTF-8 bytes.  U+212A (Kelvin sign) is
    the bytes E2 84 AA, U+0130 (capital I with dot above) the bytes C4 B0,
    and U+0307 (combining dot above) the bytes CC 87. *)
Definition kelvinSign : string :=
  String "226" (String "132" (String "170" EmptyString)).

Definition dottedCapitalI : string := String "196" (String "176" EmptyString).

Definition dottedSmallI : string :=
  String "i" (String "204" (String "135" EmptyString)).

Definition lowerAscii (c : ascii) : ascii :=
  let n := nat_of_ascii c in
  if (65 <=? n)%nat && (n <=? 90)%nat then ascii_of_nat (n + 32) else c.

(** [s.toLowerCase()].  The ASCII capitals become their small letters.
    Outside ASCII, two code points have a lower-case form that holds an
    ASCII letter: the Kelvin sign becomes ['k'], and the capital I with dot
    above becomes ['i'] followed by the combining dot above.  Every other
    code point is kept as it is: its lower-case form holds no ASCII
    character, and the sources search the lower-cased text for ASCII words
    only, so that the result of every search is that of the source. *)
Fixpoint toLowerCase (s : string) : string :=
  match s with
  | EmptyString => EmptyString
  | String c r =>
      match r with
      | String c1 r1 =>
          if ((c =? "226") && (c1 =? "132"))%char then
            match r1 with
            | String c2 r2 =>
                if (c2 =? "170")%char then String "k" (toLowerCase r2)
                else String (lowerAscii c) (toLowerCase r)
            | EmptyString => String (lowerAscii c) (toLowerCase r)
            end
          else if ((c =? "196") && (c1 =? "176"))%char then
            String "i" (String "204" (String "135" (toLowerCase r1)))
          else String (lowerAscii c) (toLowerCase r)
      | EmptyString => String (lowerAscii c) (toLowerCase r)
      end
  end.

(** [s.includes(needle)] *)
Fixpoint includes (s needle : string) : bool :=
  String.prefix needle s
  || match s with
     | EmptyString => false
     | String _ r => includes r needle
     end.

(** [Array.prototype.sort(comparefn)] is a stable sort (ECMA-262, 23.1.3.30):
    [a] is moved after [b] only when [comparefn(a, b) > 0]; a [NaN] result
    counts as [+0].  Stable insertion sort realises it. *)
Fixpoint insertSorted {A : Type} (comparefn : A -> A -> float) (x : A)
  (sorted : list A) : list A :=
  match sorted with
  | [] => [x]
  | y :: rest =>
      if 0 <? comparefn x y then y :: insertSorted comparefn x rest
      else x :: y :: rest
  end.

Definition Array_sort {A : Type} (comparefn : A -> A -> float) (l : list A)
  : list A :=
  fold_right (insertSorted comparefn) [] l.

(** [array.find(pred)] *)
Definition Array_find {A : Type} (pred : A -> bool) (l : list A) : option A :=
  List.find pred l.

End JS.

(* ================================================================== *)
(** ** utils/distance.js                                               *)
(* ================================================================== *)

(** The transcendental functions of [Math] are implementation-approximated
    (ECMA-262, 21.3.2); they are taken as parameters. *)
Record MathObject : Type := {
  Math_sin : float -> float;
  Math_cos : float -> float;
  Math_atan2 : float -> float -> float
}.

(** A numeric field as the sources read it: a Number, [null], or
    [undefined] when the property (or the object that should carry it) is
    absent. *)
Inductive JsNumber : Type :=
| Undefined
| Null
| Num (x : float).

(** [ToNumber] on such a field, as applied by the arithmetic and relational
    operators. *)
Definition ToNumber (c : JsNumber) : float :=
  match c with
  | Undefined => nan
  | Null => 0%float
  | Num x => x
  end.


Record LatLng : Type := { lat : JsNumber; lng : JsNumber }.

Module Distance.

Local Open Scope string_scope.
Local Open Scope float_scope.

Definition toRad (degrees : float) : float := (degrees * JS.Math_PI) / 180.

Section Haversine.

Variable Math : MathObject.

Definition calculateDistance (coord1 coord2 : LatLng) : float :=
  let R := 6371 in
  let dLat := toRad (ToNumber (lat coord2) - ToNumber (lat coord1)) in
  let dLon := toRad (ToNumber (lng coord2) - ToNumber (lng coord1)) in
  let a :=
    Math_sin Math (dLat / 2) * Math_sin Math (dLat / 2) +
    Math_cos Math (toRad (ToNumber (lat coord1))) *
      Math_cos Math (toRad (ToNumber (lat coord2))) *
      Math_sin Math (dLon / 2) *
      Math_sin Math (dLon / 2) in
  let c := 2 * Math_atan2 Math (JS.Math_sqrt a) (JS.Math_sqrt (1 - a)) in
  R * c.

End Haversine.

(** The walking time in minutes computed at the head of
    [calculateWalkingTime]. *)
Definition walkingMinutes (distanceKm : float) : float :=
  let distanceMiles := distanceKm * 0.621371 in
  let walkingSpeedMph := 3.1 in
  (distanceMiles / walkingSpeedMph) * 60.

Definition calculateWalkingTime (distanceKm : float) : string :=
  let minutes := walkingMinutes distanceKm in
  if minutes <? 1 then "< 1 min"
  else if minutes <? 60 then JS.toString (JS.Math_round minutes) ++ " min"
  else
    let hours := JS.Math_floor (minutes / 60) in
    let remainingMinutes := JS.Math_round (JS.rem minutes 60) in
    if JS.isZero remainingMinutes
    then JS.toString hours ++ " hr" ++ (if JS.gt1 hours then "s" else "")
    else JS.toString hours ++ " hr " ++ JS.toString remainingMinutes ++ " min".

Definition walkingTimeToDistanceKm (minutes : float) : float :=
  let walkingSpeedMph := 3.1 in
  let distanceMiles := (minutes / 60) * walkingSpeedMph in
  distanceMiles * 1.60934.

End Distance.

(* ================================================================== *)
(** ** services/openChargeMap.js                                       *)
(* ================================================================== *)

(** The upstream (Open Charge Map) POI record, with the fields
    [parseChargerData] reads.  Every field may be missing or [null]. *)
Module OCM.

Module StatusType.
Record t : Type := {
  ID : option Z;
  Title : option string;
  IsOperational : option bool
}.
End StatusType.

Module Titled.
(** [ConnectionType], [Level] and [OperatorInfo]: only [Title] is read. *)
Record t : Type := { Title : option string }.
End Titled.

Module Connection.
Record t : Type := {
  PowerKW : option float;
  StatusType : option StatusType.t;
  ConnectionType : option Titled.t;
  Level : option Titled.t;
  LevelID : option Z
}.
End Connection.

Module UsageType.
Record t : Type := {
  Title : option string;
  IsMembershipRequired : option bool;
  IsAccessKeyRequired : option bool;
  IsPayAtLocation : option bool
}.
End UsageType.

Module AddressInfo.
Record t : Type := {
  Title : option string;
  AddressLine1 : option string;
  Latitude : JsNumber;
  Longitude : JsNumber
}.
End AddressInfo.

Module Charger.
Record t : Type := {
  ID : option Z;
  AddressInfo : option AddressInfo.t;
  Connections : option (list Connection.t);
  UsageCost : option string;
  UsageType : option UsageType.t;
  StatusType : option StatusType.t;
  DateLastStatusUpdate : option string;
  NumberOfPoints : option Z;
  OperatorInfo : option Titled.t;
  GeneralComments : option string
}.
End Charger.

End OCM.

(** ['level1' | 'level2' | 'dc_fast' | 'unknown'] *)
Module PowerTier.
Inductive t : Type := level1 | level2 | dc_fast | unknown.

Definition eqb (a b : t) : bool :=
  match a, b with
  | level1, level1 | level2, level2 | dc_fast, dc_fast | unknown, unknown => true
  | _, _ => false
  end.
End PowerTier.

(** ['permit' | 'restricted' | 'parking' | 'public' | 'private' | 'unknown'] *)
Module Access.
Inductive t : Type := permit | restricted | parking | public | private | unknown.

Definition eqb (a b : t) : bool :=
  match a, b with
  | permit, permit | restricted, restricted | parking, parking
  | public, public | private, private | unknown, unknown => true
  | _, _ => false
  end.
End Access.

(** The canonical charger returned by [parseChargerData]. *)
Module Connector.
Record t : Type := {
  type : string;
  power : float;
  level : string;
  status : option string;
  statusIsOperational : option bool
}.
End Connector.

Module ChargerStatus.
Record t : Type := {
  id : option Z;
  title : string;
  isOperational : option bool;
  lastUpdated : option string
}.
End ChargerStatus.

Module ChargerAccess.
Record t : Type := {
  title : string;
  category : Access.t;
  isMembershipRequired : option bool;
  isPayAtLocation : option bool
}.
End ChargerAccess.

Module Charger.
Record t : Type := {
  id : option Z;
  name : string;
  address : string;
  location : LatLng;
  speed : string;
  powerTier : PowerTier.t;
  maxPower : float;
  minPower : option float;
  hasMultiplePowerLevels : bool;
  isFree : bool;
  cost : string;
  status : ChargerStatus.t;
  access : ChargerAccess.t;
  numberOfPoints : option Z;
  operator : option string;
  comments : string;
  connectors : list Connector.t;
  hasLiveStatus : bool;            (* availability.hasLiveStatus *)
  placeId : option string;         (* set by loadDataFromLocation *)
  distanceFromPlace : option float (* set by loadDataFromLocation *)
}.
End Charger.

(** The [filters] argument of [getNearbyChargers]: [free] is [true], [false]
    or not set; [speed] is the name of a tier, or not set. *)
Module ApiFilters.
Record t : Type := {
  free : option bool;
  speed : option PowerTier.t
}.
End ApiFilters.

Module OpenChargeMap.

Local Open Scope string_scope.
Local Open Scope float_scope.

(** [charger.X?.Title] *)
Definition titleOf (x : option OCM.Titled.t) : option string :=
  match x with
  | Some o => OCM.Titled.Title o
  | None => None
  end.

(** [connections.map((c) => c.PowerKW || 0).filter(p => p > 0)] *)
Definition powerValuesOf (connections : list OCM.Connection.t) : list float :=
  filter (fun p => 0 <? p)
         (map (fun c => JS.orNum (OCM.Connection.PowerKW c) 0) connections).

(** In the source a closure over [maxPower]; it returns [{ code, label }]. *)
Definition derivePowerTier (maxPower : float) : PowerTier.t * string :=
  if maxPower <=? 3.7 then (PowerTier.level1, "Level 1")
  else if maxPower <=? 22 then (PowerTier.level2, "Level 2")
  else if 22 <? maxPower then (PowerTier.dc_fast, "DC Fast")
  else (PowerTier.unknown, "Unknown").

Definition deriveAccessCategory (charger : OCM.Charger.t) : Access.t :=
  let usageTitle :=
    match OCM.Charger.UsageType charger with
    | Some usage => OCM.UsageType.Title usage
    | None => None
    end in
  let flag (f : OCM.UsageType.t -> option bool) :=
    match OCM.Charger.UsageType charger with
    | Some usage => JS.truthyFlag (f usage)
    | None => false
    end in
  let title := JS.toLowerCase (JS.orStr usageTitle "") in
  if flag OCM.UsageType.IsMembershipRequired then Access.permit
  else if flag OCM.UsageType.IsAccessKeyRequired then Access.restricted
  else if JS.includes title "parking" then Access.parking
  else if JS.includes title "public" then Access.public
  else if JS.includes title "private" then Access.private
  else if JS.includes title "restricted" then Access.restricted
  else Access.unknown.

(** [charger.UsageCost || ''] *)
Definition usageCostOf (charger : OCM.Charger.t) : string :=
  JS.orStr (OCM.Charger.UsageCost charger) "".

(** [charger.UsageType?.IsPayAtLocation ?? false] *)
Definition isPayAtLocationOf (charger : OCM.Charger.t) : bool :=
  match OCM.Charger.UsageType charger with
  | Some usage => JS.nullish (OCM.UsageType.IsPayAtLocation usage) false
  | None => false
  end.

(** The [isFree] conjunction.  [usageCost] is a string here, so the
    [!== null] and [typeof ... === 'string'] conjuncts are true. *)
Definition deriveIsFree (usageCost : string) (isPayAtLocation : bool) : bool :=
  negb (usageCost =? "")%string
  && JS.includes (JS.toLowerCase usageCost) "free"
  && negb isPayAtLocation.

(** [usageCost && usageCost !== '' ? usageCost : (isFree ? 'Free' : ...)] *)
Definition deriveCost (usageCost : string) (isFree isPayAtLocation : bool)
  : string :=
  if negb (usageCost =? "")%string then usageCost
  else if isFree then "Free"
  else if isPayAtLocation then "Pay At Location"
  else "Paid".

(** [charger.StatusType || {}], read field by field. *)
Definition statusTitleOf (charger : OCM.Charger.t) : option string :=
  match OCM.Charger.StatusType charger with
  | Some st => OCM.StatusType.Title st
  | None => None
  end.

Definition statusFlagOf (charger : OCM.Charger.t) : option bool :=
  match OCM.Charger.StatusType charger with
  | Some st => OCM.StatusType.IsOperational st
  | None => None
  end.

Definition isNonOperationalStatus (statusTitle : string) : bool :=
  JS.includes statusTitle "unavailable"
  || JS.includes statusTitle "planned"
  || JS.includes statusTitle "removed"
  || JS.includes statusTitle "decommissioned".

(** [connections.some((c) => c.StatusType && c.StatusType.IsOperational === true)] *)
Definition connectionOperational (connections : list OCM.Connection.t) : bool :=
  existsb
    (fun c =>
       match OCM.Connection.StatusType c with
       | Some st => JS.strictEq (OCM.StatusType.IsOperational st) true
       | None => false
       end)
    connections.

Definition deriveIsOperational (charger : OCM.Charger.t)
  (connections : list OCM.Connection.t) : option bool :=
  let statusTitle := JS.toLowerCase (JS.orStr (statusTitleOf charger) "") in
  if JS.strictEq (statusFlagOf charger) false
     || isNonOperationalStatus statusTitle
  then Some false
  else if JS.strictEq (statusFlagOf charger) true then Some true
  else if connectionOperational connections then Some true
  else None.

Definition connectorOf (c : OCM.Connection.t) : Connector.t :=
  {| Connector.type := JS.orStr (titleOf (OCM.Connection.ConnectionType c)) "Unknown";
     Connector.power := JS.orNum (OCM.Connection.PowerKW c) 0;
     Connector.level :=
       JS.orStr (titleOf (OCM.Connection.Level c))
         (match OCM.Connection.LevelID c with
          | Some id => if (id =? 0)%Z then "Unknown"
                       else ("Level " ++ JS.decimal id)%string
          | None => "Unknown"
          end);
     Connector.status :=
       match OCM.Connection.StatusType c with
       | Some st => match OCM.StatusType.Title st with
                    | Some (String a r) => Some (String a r)
                    | _ => None
                    end
       | None => None
       end;
     Connector.statusIsOperational :=
       match OCM.Connection.StatusType c with
       | Some st => OCM.StatusType.IsOperational st
       | None => None
       end |}.

Definition parseChargerData (charger : OCM.Charger.t) : Charger.t :=
  let connections :=
    match OCM.Charger.Connections charger with
    | Some l => l
    | None => []
    end in
  let powerValues := powerValuesOf connections in
  let maxPower :=
    if (0 <? List.length powerValues)%nat then JS.Math_max powerValues else 0 in
  let minPower :=
    if (0 <? List.length powerValues)%nat then JS.Math_min powerValues else 0 in
  let hasMultiplePowerLevels :=
    (1 <? List.length powerValues)%nat && JS.strictNeq minPower maxPower in
  let powerTier := derivePowerTier maxPower in
  let usageCost := usageCostOf charger in
  let isPayAtLocation := isPayAtLocationOf charger in
  let isFree := deriveIsFree usageCost isPayAtLocation in
  let isOperational := deriveIsOperational charger connections in
  let connectorData := map connectorOf connections in
  let hasLiveStatus :=
    existsb (fun c => match Connector.status c with
                      | Some _ => true
                      | None => false
                      end) connectorData in
  let address (f : OCM.AddressInfo.t -> option string) :=
    match OCM.Charger.AddressInfo charger with
    | Some a => f a
    | None => None
    end in
  let coordinate (f : OCM.AddressInfo.t -> JsNumber) :=
    match OCM.Charger.AddressInfo charger with
    | Some a => f a
    | None => Undefined
    end in
  let usage {A} (f : OCM.UsageType.t -> option A) :=
    match OCM.Charger.UsageType charger with
    | Some u => f u
    | None => None
    end in
  {| Charger.id := OCM.Charger.ID charger;
     Charger.name := JS.orStr (address OCM.AddressInfo.Title) "Unnamed Charger";
     Charger.address := JS.orStr (address OCM.AddressInfo.AddressLine1) "";
     Charger.location :=
       {| lat := coordinate OCM.AddressInfo.Latitude;
          lng := coordinate OCM.AddressInfo.Longitude |};
     Charger.speed := snd powerTier;
     Charger.powerTier := fst powerTier;
     Charger.maxPower := maxPower;
     Charger.minPower := if hasMultiplePowerLevels then Some minPower else None;
     Charger.hasMultiplePowerLevels := hasMultiplePowerLevels;
     Charger.isFree := isFree;
     Charger.cost := deriveCost usageCost isFree isPayAtLocation;
     Charger.status :=
       {| ChargerStatus.id :=
            match OCM.Charger.StatusType charger with
            | Some st => OCM.StatusType.ID st
            | None => None
            end;
          ChargerStatus.title := JS.orStr (statusTitleOf charger) "Unknown status";
          ChargerStatus.isOperational := isOperational;
          ChargerStatus.lastUpdated :=
            match OCM.Charger.DateLastStatusUpdate charger with
            | Some (String a r) => Some (String a r)
            | _ => None
            end |};
     Charger.access :=
       {| ChargerAccess.title :=
            JS.orStr (usage OCM.UsageType.Title) "Unknown access";
          ChargerAccess.category := deriveAccessCategory charger;
          ChargerAccess.isMembershipRequired :=
            usage OCM.UsageType.IsMembershipRequired;
          ChargerAccess.isPayAtLocation := usage OCM.UsageType.IsPayAtLocation |};
     Charger.numberOfPoints :=
       match OCM.Charger.NumberOfPoints charger with
       | Some (Zpos n) => Some (Zpos n)
       | Some (Zneg n) => Some (Zneg n)
       | _ => match connectorData with
              | [] => None
              | _ => Some (Z.of_nat (List.length connectorData))
              end
       end;
     Charger.operator :=
       match titleOf (OCM.Charger.OperatorInfo charger) with
       | Some (String a r) => Some (String a r)
       | _ => None
       end;
     Charger.comments := JS.orStr (OCM.Charger.GeneralComments charger) "";
     Charger.connectors := connectorData;
     Charger.hasLiveStatus := hasLiveStatus;
     Charger.placeId := None;
     Charger.distanceFromPlace := None |}.

(** *** The pre-filter of [getNearbyChargers] *)

(** The predicate of the [filters.free] pass. *)
Definition freeFilter (free : bool) (charger : OCM.Charger.t) : bool :=
  let usageCost := JS.orStr (OCM.Charger.UsageCost charger) "" in
  let isPayAtLocation :=
    match OCM.Charger.UsageType charger with
    | Some usage => JS.nullish (OCM.UsageType.IsPayAtLocation usage) false
    | None => false
    end in
  let isFree :=
    negb (usageCost =? "")%string
    && JS.includes (JS.toLowerCase usageCost) "free"
    && negb isPayAtLocation in
  if free then isFree else negb isFree.

(** The predicate of the [filters.speed] pass. *)
Definition speedFilter (speed : PowerTier.t) (charger : OCM.Charger.t) : bool :=
  match OCM.Charger.Connections charger with
  | None | Some [] => false
  | Some connections =>
      let maxPower :=
        JS.Math_max
          (map (fun conn => JS.orNum (OCM.Connection.PowerKW conn) 0)
               connections) in
      match speed with
      | PowerTier.level1 => maxPower <=? 3.7
      | PowerTier.level2 => (3.7 <? maxPower) && (maxPower <=? 22)
      | PowerTier.dc_fast => 22 <? maxPower
      | PowerTier.unknown => true
      end
  end.

(** [getNearbyChargers] after its awaited request; [data] is
    [response.data]. *)
Definition getNearbyChargers (data : option (list OCM.Charger.t))
  (filters : ApiFilters.t) : list OCM.Charger.t :=
  let chargers := match data with Some l => l | None => [] end in
  let chargers :=
    match ApiFilters.free filters with
    | Some free => filter (freeFilter free) chargers
    | None => chargers
    end in
  let chargers :=
    match ApiFilters.speed filters with
    | Some speed => filter (speedFilter speed) chargers
    | None => chargers
    end in
  chargers.

(** [getChargersForLocations]: one request for each location; [responses]
    holds the data of the requests, in the order of the locations. *)
Definition getChargersForLocations
  (responses : list (option (list OCM.Charger.t))) (filters : ApiFilters.t)
  : list (list OCM.Charger.t) :=
  map (fun data => getNearbyChargers data filters) responses.

End OpenChargeMap.

(* ================================================================== *)
(** ** services/googleMaps.js: the result shaping of [searchPlaces]    *)
(* ================================================================== *)

(** A place as the UI keeps it: the legacy shape built by [searchPlaces],
    extended by [MapView] with [chargerCount] and [featuredCharger]. *)
Module Place.
Record t : Type := {
  place_id : string;
  name : string;
  formatted_address : string;
  geometry_location : LatLng;      (* geometry.location *)
  rating : option float;
  user_ratings_total : option float;
  vicinity : string;
  types : option (list string);
  chargerCount : option nat;
  featuredCharger : option Charger.t
}.
End Place.

Module GoogleMaps.

(** The values a property of a Places API result may hold. *)
Inductive JsValue : Type :=
| VUndefined
| VNull
| VNumber (x : float)
| VString (s : string)
| VBoolean (b : bool).

(** A property that is either a plain value or a method (a [LatLng] object
    exposes [lat()] and [lng()]). *)
Inductive Field : Type :=
| Plain (v : JsValue)
| Method (result : JsValue).

Module Location.
Record t : Type := { lat : Field; lng : Field }.
End Location.

Module RawPlace.
Record t : Type := {
  id : option string;
  place_id : option string;
  displayName : option string;
  name : option string;
  formattedAddress : option string;
  location : option Location.t;
  rating : option float;
  userRatingCount : option float;
  types : option (list string)
}.
End RawPlace.






End GoogleMaps.

(* ================================================================== *)
(** ** components/MapView.jsx                                          *)
(* ================================================================== *)

Module DistanceResult.
Record t : Type := {
  destination : LatLng;
  distance : string;
  duration : string;
  distanceValue : JsNumber;   (* meters, or null *)
  durationValue : JsNumber;   (* seconds, or null *)
  status : string
}.
End DistanceResult.

(** The result mapping of [getMultipleDistances] (services/googleMaps.js). *)
Module DistanceMatrix.

(** [element.distance] and [element.duration]: [{ text, value }]. *)
Module TextValue.
Record t : Type := { text : string; value : JsNumber }.
End TextValue.

Module Element.
Record t : Type := {
  status : string;
  distance : option TextValue.t;
  duration : option TextValue.t
}.
End Element.

(** The callback of [elements.map]; [None] stands for the [TypeError] of
    reading [.text] on a missing [distance] or [duration].  Past the end of
    [destinations] the source stores [undefined] for [destination], a field
    that nothing reads; here its coordinates are [undefined]. *)
Definition resultOf (destinations : list LatLng) (index : nat)
  (element : Element.t) : option DistanceResult.t :=
  let ok := (Element.status element =? "OK")%string in
  let destination :=
    nth index destinations {| lat := Undefined; lng := Undefined |} in
  if ok then
    match Element.distance element, Element.duration element with
    | Some distance, Some duration =>
        Some {| DistanceResult.destination := destination;
                DistanceResult.distance := TextValue.text distance;
                DistanceResult.duration := TextValue.text duration;
                DistanceResult.distanceValue := TextValue.value distance;
                DistanceResult.durationValue := TextValue.value duration;
                DistanceResult.status := Element.status element |}
    | _, _ => None
    end
  else
    Some {| DistanceResult.destination := destination;
            DistanceResult.distance := "N/A";
            DistanceResult.duration := "N/A";
            DistanceResult.distanceValue := Null;
            DistanceResult.durationValue := Null;
            DistanceResult.status := Element.status element |}.

Fixpoint mapElements (destinations : list LatLng) (index : nat)
  (elements : list Element.t) : option (list DistanceResult.t) :=
  match elements with
  | [] => Some []
  | element :: rest =>
      match resultOf destinations index element,
            mapElements destinations (S index) rest with
      | Some r, Some rs => Some (r :: rs)
      | _, _ => None
      end
  end.

(** The callback of [getDistanceMatrix]: [status] is the status of the whole
    response, [elements] is [response.rows[0].elements]; [None] when the
    promise is rejected or the mapping throws. *)
Definition getMultipleDistances (destinations : list LatLng) (status : string)
  (elements : list Element.t) : option (list DistanceResult.t) :=
  if (status =? "OK")%string then mapElements destinations 0 elements
  else None.

End DistanceMatrix.

(** A filter criterion that is either ['all'] or one value of an
    enumeration. *)
Inductive Criterion (A : Type) : Type :=
| All
| Only (a : A).
Arguments All {A}.
Arguments Only {A} a.

(** ['all' | 'free' | 'paid'] *)
Inductive CostFilter : Type := CostAll | CostFree | CostPaid.

Module Filters.
Record t : Type := {
  operational : bool;
  access : Criterion Access.t;
  cost : CostFilter;
  speed : Criterion PowerTier.t;
  connectors : list string;
  walkingTime : float;
  searchRadius : float
}.
End Filters.

(* ================================================================== *)
(** ** components/FilterPanel.jsx                                      *)
(* ================================================================== *)

Module FilterPanel.

(** [new Set(array)]: the distinct elements of [array], in the order of
    their first occurrence, added to [set]. *)
Fixpoint newSet (array : list string) (set : list string) : list string :=
  match array with
  | [] => set
  | x :: rest =>
      newSet rest (if existsb (String.eqb x) set then set else set ++ [x])
  end.

(** [toggleConnector], with the [localFilters] its [handleFilterChange]
    leaves. *)
Definition toggleConnector (localFilters : Filters.t) (name : string)
  : Filters.t :=
  let current := newSet (Filters.connectors localFilters) [] in
  let current :=
    if existsb (String.eqb name) current
    then filter (fun x => negb (String.eqb x name)) current
    else current ++ [name] in
  {| Filters.operational := Filters.operational localFilters;
     Filters.access := Filters.access localFilters;
     Filters.cost := Filters.cost localFilters;
     Filters.speed := Filters.speed localFilters;
     Filters.connectors := current;
     Filters.walkingTime := Filters.walkingTime localFilters;
     Filters.searchRadius := Filters.searchRadius localFilters |}.

(** [defaultFilters]; [MapView] starts with the same values. *)
Definition defaultFilters : Filters.t :=
  {| Filters.operational := false;
     Filters.access := All;
     Filters.cost := CostAll;
     Filters.speed := All;
     Filters.connectors := [];
     Filters.walkingTime := 5;
     Filters.searchRadius := 10 |}.

(** What an [onChange] handler of the panel passes on: the state of the
    checkbox, the key of a radio button, the name of a connector, or, for
    the two sliders, the Number [parseInt(e.target.value)]. *)
Inductive Change : Type :=
| Operational (checked : bool)
| AccessKey (key : Criterion Access.t)
| Cost (value : CostFilter)
| Speed (value : Criterion PowerTier.t)
| Connector (name : string)
| SearchRadius (parsed : float)
| WalkingTime (parsed : float).

(** [localFilters] after the handler has called [handleFilterChange]. *)
Definition handleFilterChange (localFilters : Filters.t) (change : Change)
  : Filters.t :=
  match change with
  | Operational checked =>
      {| Filters.operational := checked;
         Filters.access := Filters.access localFilters;
         Filters.cost := Filters.cost localFilters;
         Filters.speed := Filters.speed localFilters;
         Filters.connectors := Filters.connectors localFilters;
         Filters.walkingTime := Filters.walkingTime localFilters;
         Filters.searchRadius := Filters.searchRadius localFilters |}
  | AccessKey key =>
      {| Filters.operational := Filters.operational localFilters;
         Filters.access := key;
         Filters.cost := Filters.cost localFilters;
         Filters.speed := Filters.speed localFilters;
         Filters.connectors := Filters.connectors localFilters;
         Filters.walkingTime := Filters.walkingTime localFilters;
         Filters.searchRadius := Filters.searchRadius localFilters |}
  | Cost value =>
      {| Filters.operational := Filters.operational localFilters;
         Filters.access := Filters.access localFilters;
         Filters.cost := value;
         Filters.speed := Filters.speed localFilters;
         Filters.connectors := Filters.connectors localFilters;
         Filters.walkingTime := Filters.walkingTime localFilters;
         Filters.searchRadius := Filters.searchRadius localFilters |}
  | Speed value =>
      {| Filters.operational := Filters.operational localFilters;
         Filters.access := Filters.access localFilters;
         Filters.cost := Filters.cost localFilters;
         Filters.speed := value;
         Filters.connectors := Filters.connectors localFilters;
         Filters.walkingTime := Filters.walkingTime localFilters;
         Filters.searchRadius := Filters.searchRadius localFilters |}
  | Connector name => toggleConnector localFilters name
  | SearchRadius parsed =>
      {| Filters.operational := Filters.operational localFilters;
         Filters.access := Filters.access localFilters;
         Filters.cost := Filters.cost localFilters;
         Filters.speed := Filters.speed localFilters;
         Filters.connectors := Filters.connectors localFilters;
         Filters.walkingTime := Filters.walkingTime localFilters;
         Filters.searchRadius := JS.orNum (Some parsed) 10 |}
  | WalkingTime parsed =>
      {| Filters.operational := Filters.operational localFilters;
         Filters.access := Filters.access localFilters;
         Filters.cost := Filters.cost localFilters;
         Filters.speed := Filters.speed localFilters;
         Filters.connectors := Filters.connectors localFilters;
         Filters.walkingTime := JS.orNum (Some parsed) 5;
         Filters.searchRadius := Filters.searchRadius localFilters |}
  end.

(** The filters the panel hands to [onFilterChange]: [localFilters], which
    starts from the filters of [MapView] (themselves the default ones at
    first), follows the changes of the handlers, and is reset to the default
    ones by [clearFilters]. *)
Inductive emitted : Filters.t -> Prop :=
| emitted_default : emitted defaultFilters
| emitted_change (localFilters : Filters.t) (change : Change) :
    emitted localFilters -> emitted (handleFilterChange localFilters change).

End FilterPanel.

Module MapView.

Local Open Scope float_scope.

(** The [distances] / [distanceMap] object: assignments are consed in
    front, so that the latest assignment to a key is the one read. *)
Definition DistanceMap : Type := list (string * option DistanceResult.t).

(** [distances[id]?.distanceValue] *)
Definition distanceValueOf (distances : DistanceMap) (id : string) : JsNumber :=
  match List.find (fun kv => (fst kv =? id)%string) distances with
  | Some (_, Some r) => DistanceResult.distanceValue r
  | _ => Undefined
  end.

(** [v || Infinity] *)
Definition orInfinity (v : JsNumber) : float :=
  match v with
  | Num x => if JS.truthy x then x else infinity
  | _ => infinity
  end.

(** The comparator of both place sorts. *)
Definition byDistance (distances : DistanceMap) (a b : Place.t) : float :=
  let distA := orInfinity (distanceValueOf distances (Place.place_id a)) in
  let distB := orInfinity (distanceValueOf distances (Place.place_id b)) in
  distA - distB.

(** [c.placeId === id] *)
Definition attachedTo (id : string) (c : Charger.t) : bool :=
  match Charger.placeId c with
  | Some p => (p =? id)%string
  | None => false
  end.

(** [{ ...place, chargerCount, featuredCharger }] *)
Definition annotate (place : Place.t) (count : nat)
  (featured : option Charger.t) : Place.t :=
  {| Place.place_id := Place.place_id place;
     Place.name := Place.name place;
     Place.formatted_address := Place.formatted_address place;
     Place.geometry_location := Place.geometry_location place;
     Place.rating := Place.rating place;
     Place.user_ratings_total := Place.user_ratings_total place;
     Place.vicinity := Place.vicinity place;
     Place.types := Place.types place;
     Place.chargerCount := Some count;
     Place.featuredCharger := featured |}.

(** [charger.placeId = id; charger.distanceFromPlace = d] *)
Definition stamp (id : string) (d : float) (c : Charger.t) : Charger.t :=
  {| Charger.id := Charger.id c;
     Charger.name := Charger.name c;
     Charger.address := Charger.address c;
     Charger.location := Charger.location c;
     Charger.speed := Charger.speed c;
     Charger.powerTier := Charger.powerTier c;
     Charger.maxPower := Charger.maxPower c;
     Charger.minPower := Charger.minPower c;
     Charger.hasMultiplePowerLevels := Charger.hasMultiplePowerLevels c;
     Charger.isFree := Charger.isFree c;
     Charger.cost := Charger.cost c;
     Charger.status := Charger.status c;
     Charger.access := Charger.access c;
     Charger.numberOfPoints := Charger.numberOfPoints c;
     Charger.operator := Charger.operator c;
     Charger.comments := Charger.comments c;
     Charger.connectors := Charger.connectors c;
     Charger.hasLiveStatus := Charger.hasLiveStatus c;
     Charger.placeId := Some id;
     Charger.distanceFromPlace := Some d |}.

(** [{ lat: p.geometry.location.lat, lng: p.geometry.location.lng }] *)
Definition locationOf (p : Place.t) : LatLng :=
  {| lat := lat (Place.geometry_location p);
     lng := lng (Place.geometry_location p) |}.

(** [placeResults.forEach((place, index) =>
       { distanceMap[place.place_id] = distanceResults[index]; })] *)
Fixpoint buildDistanceMap (placeResults : list Place.t)
  (distanceResults : list DistanceResult.t) (index : nat)
  (distanceMap : DistanceMap) : DistanceMap :=
  match placeResults with
  | [] => distanceMap
  | place :: rest =>
      buildDistanceMap rest distanceResults (S index)
        ((Place.place_id place, nth_error distanceResults index) :: distanceMap)
  end.

(** [distanceValue === null || distanceValue <= searchRadiusMeters] *)
Definition withinRadius (searchRadiusMeters : float) (v : JsNumber) : bool :=
  match v with
  | Null => true
  | _ => ToNumber v <=? searchRadiusMeters
  end.

(** [apiFilters], as [loadDataFromLocation] derives it from [filters]. *)
Definition apiFiltersOf (filters : Filters.t) : ApiFilters.t :=
  {| ApiFilters.free :=
       match Filters.cost filters with
       | CostFree => Some true
       | CostPaid => Some false
       | CostAll => None
       end;
     ApiFilters.speed :=
       match Filters.speed filters with
       | Only speed => Some speed
       | All => None
       end |}.

Section WithMath.

Variable Math : MathObject.

(** One iteration of [chargerResults.forEach((locationChargers, index) => ...)].
    [None] stands for the [TypeError] raised when a charger has to be
    measured against [placeLocations[index]] and that entry is absent. *)
Definition attachChargers (walkingDistanceKm : float)
  (placeLocations : list LatLng) (placeResults : list Place.t)
  (index : nat) (locationChargers : list OCM.Charger.t)
  : option (list Charger.t) :=
  match map OpenChargeMap.parseChargerData locationChargers with
  | [] => Some []
  | parsed =>
      match nth_error placeLocations index, nth_error placeResults index with
      | Some placeLocation, Some place =>
          let parsedChargers :=
            filter
              (fun charger =>
                 let distanceKm :=
                   Distance.calculateDistance Math placeLocation
                     (Charger.location charger) in
                 distanceKm <=? walkingDistanceKm)
              parsed in
          Some (map (fun charger =>
                       stamp (Place.place_id place)
                         (Distance.calculateDistance Math placeLocation
                            (Charger.location charger))
                         charger)
                    parsedChargers)
      | _, _ => None
      end
  end.

(** The whole [forEach]: [allChargers] once every iteration has pushed. *)
Fixpoint correlate (walkingDistanceKm : float)
  (placeLocations : list LatLng) (placeResults : list Place.t)
  (index : nat) (chargerResults : list (list OCM.Charger.t))
  : option (list Charger.t) :=
  match chargerResults with
  | [] => Some []
  | locationChargers :: rest =>
      match attachChargers walkingDistanceKm placeLocations placeResults
              index locationChargers with
      | None => None
      | Some parsedChargers =>
          match correlate walkingDistanceKm placeLocations placeResults
                  (S index) rest with
          | None => None
          | Some more => Some (parsedChargers ++ more)
          end
      end
  end.

(** [sortedPlaces.map((place) => ({ ...place, chargerCount: ... }))] *)
Definition countChargers (allChargers : list Charger.t) (place : Place.t)
  : Place.t :=
  let placeChargers := filter (attachedTo (Place.place_id place)) allChargers in
  annotate place (List.length placeChargers) (Place.featuredCharger place).

Inductive LoadOutcome : Type :=
| NoLocationsFound
| NoLocationsWithinRadius
| Thrown
| Loaded (distances : DistanceMap) (places : list Place.t)
    (chargers : list Charger.t).

(** [loadDataFromLocation] after its three awaited fetches: [placeResults]
    is what [searchPlaces] returned, [distanceResults] what
    [getMultipleDistances] returned, [chargerResults] what
    [getChargersForLocations] returned. *)
Definition loadDataFromLocation (filters : Filters.t)
  (placeResults : list Place.t) (distanceResults : list DistanceResult.t)
  (chargerResults : list (list OCM.Charger.t)) : LoadOutcome :=
  let searchRadiusMeters :=
    JS.orNum (Some (Filters.searchRadius filters)) 2 * 1609.34 in
  match placeResults with
  | [] => NoLocationsFound
  | _ =>
      let placeLocations := map locationOf placeResults in
      let distanceMap := buildDistanceMap placeResults distanceResults 0 [] in
      let placesWithinRadius :=
        filter (fun place =>
                  withinRadius searchRadiusMeters
                    (distanceValueOf distanceMap (Place.place_id place)))
               placeResults in
      match placesWithinRadius with
      | [] => NoLocationsWithinRadius
      | _ =>
          let sortedPlaces :=
            JS.Array_sort (byDistance distanceMap) placesWithinRadius in
          let walkingTimeMinutes :=
            JS.orNum (Some (Filters.walkingTime filters)) 5 in
          let walkingDistanceKm := Distance.walkingTimeToDistanceKm walkingTimeMinutes in
          match correlate walkingDistanceKm placeLocations placeResults 0
                  chargerResults with
          | None => Thrown
          | Some allChargers =>
              Loaded distanceMap (map (countChargers allChargers) sortedPlaces)
                allChargers
          end
      end
  end.

(** *** The filter effect *)

Record State : Type := {
  places : list Place.t;
  chargers : list Charger.t;
  filteredChargers : list Charger.t;
  distances : DistanceMap;
  filters : Filters.t;
  previousPlacesSignature : string
}.

Definition passesOperational (f : Filters.t) (c : Charger.t) : bool :=
  if Filters.operational f
  then JS.strictEq (ChargerStatus.isOperational (Charger.status c)) true
  else true.

Definition passesAccess (f : Filters.t) (c : Charger.t) : bool :=
  match Filters.access f with
  | All => true
  | Only a => Access.eqb (ChargerAccess.category (Charger.access c)) a
  end.

Definition passesCost (f : Filters.t) (c : Charger.t) : bool :=
  match Filters.cost f with
  | CostAll => true
  | CostFree => Charger.isFree c
  | CostPaid => Bool.eqb (Charger.isFree c) false
  end.

Definition passesSpeed (f : Filters.t) (c : Charger.t) : bool :=
  match Filters.speed f with
  | All => true
  | Only tier => PowerTier.eqb (Charger.powerTier c) tier
  end.

Definition passesConnectors (f : Filters.t) (c : Charger.t) : bool :=
  match Filters.connectors f with
  | [] => true
  | selected =>
      let types := map Connector.type (Charger.connectors c) in
      existsb (fun sel => existsb (fun t => (t =? sel)%string) types) selected
  end.

Definition passesWalkingTime (f : Filters.t) (places : list Place.t)
  (charger : Charger.t) : bool :=
  if JS.truthy (Filters.walkingTime f) then
    let walkingDistanceKm := Distance.walkingTimeToDistanceKm (Filters.walkingTime f) in
    match JS.Array_find
            (fun p => attachedTo (Place.place_id p) charger) places with
    | None => false
    | Some place =>
        let distanceKm :=
          Distance.calculateDistance Math
            {| lat := lat (Place.geometry_location place);
               lng := lng (Place.geometry_location place) |}
            (Charger.location charger) in
        distanceKm <=? walkingDistanceKm
    end
  else true.

(** [filtered] after the six successive [.filter] passes. *)
Definition applyCriteria (f : Filters.t) (places : list Place.t)
  (chargers : list Charger.t) : list Charger.t :=
  let filtered := chargers in
  let filtered := filter (passesOperational f) filtered in
  let filtered := filter (passesAccess f) filtered in
  let filtered := filter (passesCost f) filtered in
  let filtered := filter (passesSpeed f) filtered in
  let filtered := filter (passesConnectors f) filtered in
  let filtered := filter (passesWalkingTime f places) filtered in
  filtered.

(** [a.status?.isOperational ? 1 : 0] *)
Definition statusRank (c : Charger.t) : float :=
  if JS.truthyFlag (ChargerStatus.isOperational (Charger.status c))
  then 1 else 0.

(** The comparator that picks the featured charger. *)
Definition byFeatured (a b : Charger.t) : float :=
  let opA := statusRank a in
  let opB := statusRank b in
  if JS.strictNeq opB opA then opB - opA
  else JS.orNum (Some (Charger.maxPower b)) 0
       - JS.orNum (Some (Charger.maxPower a)) 0.

(** [[...placeChargers].sort(...)[0]] *)
Definition featuredOf (placeChargers : list Charger.t) : option Charger.t :=
  hd_error (JS.Array_sort byFeatured placeChargers).

Definition updatePlace (filtered : list Charger.t) (place : Place.t) : Place.t :=
  let placeChargers := filter (attachedTo (Place.place_id place)) filtered in
  annotate place (List.length placeChargers) (featuredOf placeChargers).

(** [`${p.place_id}:${p.chargerCount || 0}`], joined with [','] *)
Definition signatureOf (sortedPlaces : list Place.t) : string :=
  String.concat ","
    (map (fun p =>
            Place.place_id p ++ ":" ++
            JS.decimal (Z.of_nat (match Place.chargerCount p with
                                   | Some n => n
                                   | None => 0%nat
                                   end)))%string
         sortedPlaces).

(** [sortedPlaces] as the effect computes it from [filtered]. *)
Definition resortPlaces (st : State) (filtered : list Charger.t) : list Place.t :=
  let updatedPlaces := map (updatePlace filtered) (places st) in
  JS.Array_sort (byDistance (distances st)) updatedPlaces.

(** One run of the "Apply filters" effect: the state after its [setState]
    calls have been applied. *)
Definition applyFilters (st : State) : State :=
  match places st, chargers st with
  | _, [] =>
      {| places := places st; chargers := chargers st;
         filteredChargers := [];
         distances := distances st; filters := filters st;
         previousPlacesSignature := previousPlacesSignature st |}
  | [], _ => st
  | _, _ =>
      let filtered := applyCriteria (filters st) (places st) (chargers st) in
      let sortedPlaces := resortPlaces st filtered in
      let newSignature := signatureOf sortedPlaces in
      if negb (previousPlacesSignature st =? newSignature)%string then
        {| places := sortedPlaces; chargers := chargers st;
           filteredChargers := filtered;
           distances := distances st; filters := filters st;
           previousPlacesSignature := newSignature |}
      else
        {| places := places st; chargers := chargers st;
           filteredChargers := filtered;
           distances := distances st; filters := filters st;
           previousPlacesSignature := previousPlacesSignature st |}
  end.

(** *** The state over time *)

(** The values of the [useState] calls and of the ref at the first
    render. *)
Definition initialState : State :=
  {| places := [];
     chargers := [];
     filteredChargers := [];
     distances := [];
     filters := FilterPanel.defaultFilters;
     previousPlacesSignature := ""%string |}.

(** A [setState] call of [loadDataFromLocation]. *)
Inductive Update : Type :=
| SetDistances (distanceMap : DistanceMap)
| SetPlaces (newPlaces : list Place.t)
| SetChargers (allChargers : list Charger.t)
| SetFilteredChargers (allChargers : list Charger.t).

Definition setState (u : Update) (st : State) : State :=
  match u with
  | SetDistances distanceMap =>
      {| places := places st; chargers := chargers st;
         filteredChargers := filteredChargers st;
         distances := distanceMap; filters := filters st;
         previousPlacesSignature := previousPlacesSignature st |}
  | SetPlaces newPlaces =>
      {| places := newPlaces; chargers := chargers st;
         filteredChargers := filteredChargers st;
         distances := distances st; filters := filters st;
         previousPlacesSignature := previousPlacesSignature st |}
  | SetChargers allChargers =>
      {| places := places st; chargers := allChargers;
         filteredChargers := filteredChargers st;
         distances := distances st; filters := filters st;
         previousPlacesSignature := previousPlacesSignature st |}
  | SetFilteredChargers allChargers =>
      {| places := places st; chargers := chargers st;
         filteredChargers := allChargers;
         distances := distances st; filters := filters st;
         previousPlacesSignature := previousPlacesSignature st |}
  end.

(** [setFilters(newFilters)] *)
Definition setFilters (newFilters : Filters.t) (st : State) : State :=
  {| places := places st; chargers := chargers st;
     filteredChargers := filteredChargers st;
     distances := distances st; filters := newFilters;
     previousPlacesSignature := previousPlacesSignature st |}.

(** The [setState] calls one run of [loadDataFromLocation] makes, in program
    order, given what its three fetches return: [setDistances], then
    [setPlaces(sortedPlaces)] and, after the chargers have been fetched,
    [setChargers], [setFilteredChargers] and [setPlaces(updatedPlaces)].
    The run stops at either early [return] and at a [throw]. *)
Definition loadUpdates (filters : Filters.t)
  (placeResults : list Place.t) (distanceResults : list DistanceResult.t)
  (chargerResults : list (list OCM.Charger.t)) : list Update :=
  let searchRadiusMeters :=
    JS.orNum (Some (Filters.searchRadius filters)) 2 * 1609.34 in
  match placeResults with
  | [] => []
  | _ =>
      let placeLocations := map locationOf placeResults in
      let distanceMap := buildDistanceMap placeResults distanceResults 0 [] in
      SetDistances distanceMap ::
      let placesWithinRadius :=
        filter (fun place =>
                  withinRadius searchRadiusMeters
                    (distanceValueOf distanceMap (Place.place_id place)))
               placeResults in
      match placesWithinRadius with
      | [] => []
      | _ =>
          let sortedPlaces :=
            JS.Array_sort (byDistance distanceMap) placesWithinRadius in
          SetPlaces sortedPlaces ::
          let walkingTimeMinutes :=
            JS.orNum (Some (Filters.walkingTime filters)) 5 in
          let walkingDistanceKm := Distance.walkingTimeToDistanceKm walkingTimeMinutes in
          match correlate walkingDistanceKm placeLocations placeResults 0
                  chargerResults with
          | None => []
          | Some allChargers =>
              [SetChargers allChargers;
               SetFilteredChargers allChargers;
               SetPlaces (map (countChargers allChargers) sortedPlaces)]
          end
      end
  end.

(** The component between two steps: its state and, for every run of
    [loadDataFromLocation] under way, the [setState] calls the run has still
    to make. *)
Record Config : Type := {
  current : State;
  running : list (list Update)
}.

(** One step of the component: a run of [loadDataFromLocation] starts (with
    the filters its closure holds and the results its fetches will return),
    a run makes its next [setState] call, the "Apply filters" effect runs,
    or the filter panel hands over new filters. *)
Inductive step : Config -> Config -> Prop :=
| step_load (st : State) (runs : list (list Update)) (filters : Filters.t)
    (placeResults : list Place.t) (distanceResults : list DistanceResult.t)
    (chargerResults : list (list OCM.Charger.t)) :
    step {| current := st; running := runs |}
         {| current := st;
            running := loadUpdates filters placeResults distanceResults
                         chargerResults :: runs |}
| step_update (st : State) (before after : list (list Update))
    (u : Update) (rest : list Update) :
    step {| current := st; running := before ++ (u :: rest) :: after |}
         {| current := setState u st; running := before ++ rest :: after |}
| step_effect (st : State) (runs : list (list Update)) :
    step {| current := st; running := runs |}
         {| current := applyFilters st; running := runs |}
| step_filters (st : State) (runs : list (list Update))
    (newFilters : Filters.t) :
    FilterPanel.emitted newFilters ->
    step {| current := st; running := runs |}
         {| current := setFilters newFilters st; running := runs |}.

Inductive reachableConfig : Config -> Prop :=
| reachable_initial :
    reachableConfig {| current := initialState; running := [] |}
| reachable_step (cfg cfg' : Config) :
    reachableConfig cfg -> step cfg cfg' -> reachableConfig cfg'.

(** The states the component goes through. *)
Definition reachable (st : State) : Prop :=
  exists runs, reachableConfig {| current := st; running := runs |}.

End WithMath.

End MapView.

(* ================================================================== *)
(** * Specification vocabulary                                         *)
(* ================================================================== *)

(** ** The order of binary64 values *)

Module FloatOrder.

Local Open Scope Z_scope.

(** A key whose lexicographic order is the order of the non-NaN binary64
    values. *)
Definition SFkey (s : spec_float) : Z * (Z * Z) :=
  match s with
  | S754_nan => (0, (0, 0))
  | S754_zero _ => (0, (0, 0))
  | S754_infinity false => (2, (0, 0))
  | S754_infinity true => (-2, (0, 0))
  | S754_finite false m e => (1, (e, Zpos m))
  | S754_finite true m e => (-1, (- e, Zneg m))
  end.

Definition lex_lt (p q : Z * (Z * Z)) : Prop :=
  fst p < fst q
  \/ (fst p = fst q
      /\ (fst (snd p) < fst (snd q)
          \/ (fst (snd p) = fst (snd q) /\ snd (snd p) < snd (snd q)))).

Definition lex_le (p q : Z * (Z * Z)) : Prop :=
  fst p < fst q
  \/ (fst p = fst q
      /\ (fst (snd p) < fst (snd q)
          \/ (fst (snd p) = fst (snd q) /\ snd (snd p) <= snd (snd q)))).

Definition SFnotnan (s : spec_float) : Prop := s <> S754_nan.

Definition key (x : float) : Z * (Z * Z) := SFkey (Prim2SF x).

Inductive SFcmp (x y : spec_float) : option comparison -> Prop :=
| cmp_nan : x = S754_nan \/ y = S754_nan -> SFcmp x y None
| cmp_lt : SFnotnan x -> SFnotnan y -> lex_lt (SFkey x) (SFkey y) ->
           SFcmp x y (Some Lt)
| cmp_eq : SFnotnan x -> SFnotnan y -> SFkey x = SFkey y ->
           SFcmp x y (Some Eq)
| cmp_gt : SFnotnan x -> SFnotnan y -> lex_lt (SFkey y) (SFkey x) ->
           SFcmp x y (Some Gt).

End FloatOrder.

Import FloatOrder.
Import Distance.
Import OpenChargeMap.
Import MapView.

(** ** Connector power *)

Definition isPositive (p : float) : Prop := (0 <? p)%float = true.

(** One step of the scan of [Math.max]. *)
Definition maxStep (highest number : float) : float :=
  if (JS.isPosZero number && JS.isNegZero highest) || (highest <? number)%float
  then number else highest.

(** [charger.Connections || []] *)
Definition connectionsOf (charger : OCM.Charger.t) : list OCM.Connection.t :=
  match OCM.Charger.Connections charger with
  | Some l => l
  | None => []
  end.

(** A raw record that reports only connector powers. *)
Definition chargerWithPowers (powers : list (option float)) : OCM.Charger.t :=
  {| OCM.Charger.ID := None;
     OCM.Charger.AddressInfo := None;
     OCM.Charger.Connections :=
       Some (map (fun p =>
                    {| OCM.Connection.PowerKW := p;
                       OCM.Connection.StatusType := None;
                       OCM.Connection.ConnectionType := None;
                       OCM.Connection.Level := None;
                       OCM.Connection.LevelID := None |}) powers);
     OCM.Charger.UsageCost := None;
     OCM.Charger.UsageType := None;
     OCM.Charger.StatusType := None;
     OCM.Charger.DateLastStatusUpdate := None;
     OCM.Charger.NumberOfPoints := None;
     OCM.Charger.OperatorInfo := None;
     OCM.Charger.GeneralComments := None |}.

Definition tierOfPowers (powers : list (option float)) : PowerTier.t :=
  Charger.powerTier (parseChargerData (chargerWithPowers powers)).

(** ** Text search *)

Section TextSearch.

Local Open Scope string_scope.

(** [c] lower-cases to [l]: it is [l], or the upper-case letter of [l]. *)
Definition foldsTo (c l : ascii) : Prop :=
  c = l
  \/ (65 <= nat_of_ascii c <= 90 /\ nat_of_ascii l = nat_of_ascii c + 32).

Definition notUpper (l : ascii) : Prop :=
  nat_of_ascii l < 65 \/ 90 < nat_of_ascii l.

(** [mid] spells [w] up to the case of its ASCII letters. *)
Inductive spells : string -> string -> Prop :=
| spells_nil : spells "" ""
| spells_cons c l mid w :
    foldsTo c l -> spells mid w -> spells (String c mid) (String l w).

(** [s] contains [w], case-insensitively. *)
Definition containsCI (s w : string) : Prop :=
  exists pre mid suf, s = pre ++ mid ++ suf /\ spells mid w.

(** [mid] spells [w] as [toLowerCase] reads it: up to the case of its
    ASCII letters, a Kelvin sign standing for ['k']. *)
Inductive spellsFolded : string -> string -> Prop :=
| spellsFolded_nil : spellsFolded "" ""
| spellsFolded_cons c l mid w :
    foldsTo c l -> spellsFolded mid w ->
    spellsFolded (String c mid) (String l w)
| spellsFolded_kelvin mid w :
    spellsFolded mid w ->
    spellsFolded (JS.kelvinSign ++ mid) (String "k" w).

(** [s] contains [w], case-insensitively, a Kelvin sign standing for
    ['k']. *)
Definition containsFolded (s w : string) : Prop :=
  exists pre mid suf, s = pre ++ mid ++ suf /\ spellsFolded mid w.

(** A word of ASCII characters without capitals that does not end in
    ['i']. *)
Fixpoint lowerWord (w : string) : Prop :=
  match w with
  | "" => True
  | String l r =>
      nat_of_ascii l < 128 /\ notUpper l
      /\ (r = "" -> l <> "i"%char) /\ lowerWord r
  end.

(** [s] lower-cases to [t], code point by code point: a Kelvin sign to
    ['k'], a capital I with dot above to ['i'] and a combining dot, any
    other byte as an ASCII letter is. *)
Inductive lowers : string -> string -> Prop :=
| lowers_nil : lowers "" ""
| lowers_kelvin r t :
    lowers r t -> lowers (JS.kelvinSign ++ r) (String "k" t)
| lowers_dotted r t :
    lowers r t -> lowers (JS.dottedCapitalI ++ r) (JS.dottedSmallI ++ t)
| lowers_char c r t :
    lowers r t -> lowers (String c r) (String (JS.lowerAscii c) t).

(** [x] starts with a byte that continues a Kelvin sign or a capital I with
    dot above. *)
Definition continues (x : string) : Prop :=
  match x with
  | "" => False
  | String c _ => c = "132"%char \/ c = "170"%char \/ c = "176"%char
  end.

(** A word without ['k']. *)
Fixpoint withoutK (w : string) : Prop :=
  match w with
  | "" => True
  | String l r => l <> "k"%char /\ withoutK r
  end.

End TextSearch.

(** ** Cost and status *)

Section CostAndStatusVocabulary.

Local Open Scope string_scope.

(** The upstream pay-at-location flag, [None] when it or its carrier is
    absent. *)
Definition payAtLocationFlag (charger : OCM.Charger.t) : option bool :=
  match OCM.Charger.UsageType charger with
  | Some usage => OCM.UsageType.IsPayAtLocation usage
  | None => None
  end.

(** A raw record that reports only its cost text and pay-at-location flag. *)
Definition chargerWithCost (usageCost : option string)
  (payAtLocation : option bool) : OCM.Charger.t :=
  {| OCM.Charger.ID := None;
     OCM.Charger.AddressInfo := None;
     OCM.Charger.Connections := None;
     OCM.Charger.UsageCost := usageCost;
     OCM.Charger.UsageType :=
       Some {| OCM.UsageType.Title := None;
               OCM.UsageType.IsMembershipRequired := None;
               OCM.UsageType.IsAccessKeyRequired := None;
               OCM.UsageType.IsPayAtLocation := payAtLocation |};
     OCM.Charger.StatusType := None;
     OCM.Charger.DateLastStatusUpdate := None;
     OCM.Charger.NumberOfPoints := None;
     OCM.Charger.OperatorInfo := None;
     OCM.Charger.GeneralComments := None |}.

Definition freeAndCost (charger : OCM.Charger.t) : bool * string :=
  (Charger.isFree (parseChargerData charger),
   Charger.cost (parseChargerData charger)).

(** The upstream status title text, empty when absent. *)
Definition statusTitleText (charger : OCM.Charger.t) : string :=
  JS.orStr (statusTitleOf charger) "".

Definition titleSaysNonOperational (title : string) : Prop :=
  containsCI title "unavailable" \/ containsCI title "planned"
  \/ containsCI title "removed" \/ containsCI title "decommissioned".

Definition someConnectorOperational (charger : OCM.Charger.t) : Prop :=
  exists conn st,
    In conn (connectionsOf charger)
    /\ OCM.Connection.StatusType conn = Some st
    /\ OCM.StatusType.IsOperational st = Some true.

(** A raw record that reports only its status. *)
Definition chargerWithStatus (title : option string) (flag : option bool)
  : OCM.Charger.t :=
  {| OCM.Charger.ID := None;
     OCM.Charger.AddressInfo := None;
     OCM.Charger.Connections := None;
     OCM.Charger.UsageCost := None;
     OCM.Charger.UsageType := None;
     OCM.Charger.StatusType :=
       Some {| OCM.StatusType.ID := None;
               OCM.StatusType.Title := title;
               OCM.StatusType.IsOperational := flag |};
     OCM.Charger.DateLastStatusUpdate := None;
     OCM.Charger.NumberOfPoints := None;
     OCM.Charger.OperatorInfo := None;
     OCM.Charger.GeneralComments := None |}.

Definition operationalStatus (charger : OCM.Charger.t) : option bool :=
  ChargerStatus.isOperational (Charger.status (parseChargerData charger)).

End CostAndStatusVocabulary.

(** ** Walking time *)

Section WalkingTimeVocabulary.

Local Open Scope string_scope.

(** The exact rational value of a finite binary64 number. *)
Definition exactValue (x : float) : option Q :=
  match Prim2SF x with
  | S754_zero _ => Some 0%Q
  | S754_finite s m e =>
      Some (if (0 <=? e)%Z then inject_Z (JS.signed s m * 2 ^ e)
            else Qmake (JS.signed s m) (Z.to_pos (2 ^ (- e))))
  | _ => None
  end.

(** The Number that an integer number of minutes is. *)
Definition numberOfZ (m : Z) : float := of_uint63 (Uint63.of_Z m).

(** The times, in minutes, that a walking-time label stands for. *)
Inductive labelTimes : string -> (Q -> Prop) -> Prop :=
| times_below_one :
    labelTimes "< 1 min" (fun t => 0 <= t /\ t < 1)%Q
| times_minutes n :
    labelTimes (JS.decimal n ++ " min") (fun t => t == inject_Z n)%Q
| times_hours h suffix :
    suffix = "" \/ suffix = "s" ->
    labelTimes (JS.decimal h ++ " hr" ++ suffix)
      (fun t => t == inject_Z (60 * h))%Q
| times_hours_minutes h m :
    labelTimes (JS.decimal h ++ " hr " ++ JS.decimal m ++ " min")
      (fun t => t == inject_Z (60 * h + m))%Q.

Definition roundTripLabel (m : Z) : string :=
  calculateWalkingTime (walkingTimeToDistanceKm (numberOfZ m)).

Definition roundTripExpected (m : Z) : string :=
  if (m =? 1)%Z then "< 1 min" else JS.decimal m ++ " min".

(** The label as the specification words it: ["H hr"] whatever [H] is. *)
Definition labelAsSpecified (distanceKm : float) : string :=
  let minutes := walkingMinutes distanceKm in
  if (minutes <? 1)%float then "< 1 min"
  else if (minutes <? 60)%float
       then JS.toString (JS.Math_round minutes) ++ " min"
       else
         let H := JS.toString (JS.Math_floor (minutes / 60)) in
         let M := JS.Math_round (JS.rem minutes 60) in
         if JS.isZero M then H ++ " hr"
         else H ++ " hr " ++ JS.toString M ++ " min".


End WalkingTimeVocabulary.

(** ** The featured charger *)

(** [{ ...c, status: { ...c.status, isOperational } }] *)
Definition withOperational (isOperational : option bool) (c : Charger.t)
  : Charger.t :=
  {| Charger.id := Charger.id c;
     Charger.name := Charger.name c;
     Charger.address := Charger.address c;
     Charger.location := Charger.location c;
     Charger.speed := Charger.speed c;
     Charger.powerTier := Charger.powerTier c;
     Charger.maxPower := Charger.maxPower c;
     Charger.minPower := Charger.minPower c;
     Charger.hasMultiplePowerLevels := Charger.hasMultiplePowerLevels c;
     Charger.isFree := Charger.isFree c;
     Charger.cost := Charger.cost c;
     Charger.status :=
       {| ChargerStatus.id := ChargerStatus.id (Charger.status c);
          ChargerStatus.title := ChargerStatus.title (Charger.status c);
          ChargerStatus.isOperational := isOperational;
          ChargerStatus.lastUpdated :=
            ChargerStatus.lastUpdated (Charger.status c) |};
     Charger.access := Charger.access c;
     Charger.numberOfPoints := Charger.numberOfPoints c;
     Charger.operator := Charger.operator c;
     Charger.comments := Charger.comments c;
     Charger.connectors := Charger.connectors c;
     Charger.hasLiveStatus := Charger.hasLiveStatus c;
     Charger.placeId := Charger.placeId c;
     Charger.distanceFromPlace := Charger.distanceFromPlace c |}.

(** The same charger with an unknown status rewritten to [false]. *)
Definition unknownAsFalse (c : Charger.t) : Charger.t :=
  match ChargerStatus.isOperational (Charger.status c) with
  | None => withOperational (Some false) c
  | Some _ => c
  end.

(** The comparator that orders by descending [maxPower] alone. *)
Definition byPower (a b : Charger.t) : float :=
  (JS.orNum (Some (Charger.maxPower b)) 0
   - JS.orNum (Some (Charger.maxPower a)) 0)%float.

Definition operationalOf (c : Charger.t) : option bool :=
  ChargerStatus.isOperational (Charger.status c).

(** [c.maxPower || 0] *)
Definition powerKey (c : Charger.t) : float :=
  JS.orNum (Some (Charger.maxPower c)) 0.

(** [c.status?.isOperational] read as a condition. *)
Definition explicitlyOperational (c : Charger.t) : bool :=
  JS.truthyFlag (operationalOf c).

(** [y] sorts strictly before [x]: it is explicitly operational and [x] is
    not, or they agree on that and [y] has the greater power. *)
Definition outranks (y x : Charger.t) : Prop :=
  (explicitlyOperational x = false /\ explicitlyOperational y = true)
  \/ (explicitlyOperational x = explicitlyOperational y
      /\ (powerKey x <? powerKey y)%float = true).

(** ** Correlation *)

(** Small-angle series standing in for the transcendental functions, to run
    the definitions on nearby coordinates. *)
Definition approxMath : MathObject :=
  {| Math_sin := fun x => (x - x * x * x / 6)%float;
     Math_cos := fun x => (1 - x * x / 2)%float;
     Math_atan2 := fun y x => (y / x)%float |}.

Section CorrelationVocabulary.

Variable Math : MathObject.

(** The chargers of one place that survive correlation, stamped. *)
Definition keptFor (walkingDistanceKm : float) (place : Place.t)
  (locationChargers : list OCM.Charger.t) : list Charger.t :=
  map (fun charger =>
         stamp (Place.place_id place)
           (calculateDistance Math (locationOf place) (Charger.location charger))
           charger)
      (filter (fun charger =>
                 (calculateDistance Math (locationOf place)
                    (Charger.location charger) <=? walkingDistanceKm)%float)
              (map parseChargerData locationChargers)).

(** Every place paired with its raw chargers, flattened. *)
Definition keptForAll (walkingDistanceKm : float)
  (placeResults : list Place.t) (chargerResults : list (list OCM.Charger.t))
  : list Charger.t :=
  flat_map (fun pr => keptFor walkingDistanceKm (fst pr) (snd pr))
           (combine placeResults chargerResults).

(** The threshold [loadDataFromLocation] derives from the walking-time
    budget. *)
Definition walkingThreshold (filters : Filters.t) : float :=
  walkingTimeToDistanceKm (JS.orNum (Some (Filters.walkingTime filters)) 5).

End CorrelationVocabulary.

(** ** The filter effect *)

(** The filters [MapView] starts with. *)
Definition defaultFilters : Filters.t :=
  {| Filters.operational := false;
     Filters.access := All;
     Filters.cost := CostAll;
     Filters.speed := All;
     Filters.connectors := [];
     Filters.walkingTime := 5;
     Filters.searchRadius := 10 |}.

(** [place] owns [c]: it is the first place of [places] whose id is
    [c.placeId]. *)
Definition owningPlace (places : list Place.t) (c : Charger.t)
  (place : Place.t) : Prop :=
  exists pre post,
    places = pre ++ place :: post
    /\ Charger.placeId c = Some (Place.place_id place)
    /\ forall q, In q pre -> Charger.placeId c <> Some (Place.place_id q).

(** [c] passes every active predicate of the criteria [f]. *)
Definition survives (Math : MathObject) (f : Filters.t)
  (places : list Place.t) (c : Charger.t) : Prop :=
  (Filters.operational f = true -> operationalOf c = Some true)
  /\ (forall a, Filters.access f = Only a ->
                ChargerAccess.category (Charger.access c) = a)
  /\ (Filters.cost f = CostFree -> Charger.isFree c = true)
  /\ (Filters.cost f = CostPaid -> Charger.isFree c = false)
  /\ (forall tier, Filters.speed f = Only tier -> Charger.powerTier c = tier)
  /\ (Filters.connectors f <> [] ->
      exists conn, In conn (Charger.connectors c)
                   /\ In (Connector.type conn) (Filters.connectors f))
  /\ (JS.truthy (Filters.walkingTime f) = true ->
      exists place,
        owningPlace places c place
        /\ (calculateDistance Math (locationOf place) (Charger.location c)
            <=? walkingTimeToDistanceKm (Filters.walkingTime f))%float = true).

(** The six predicates of the effect, as one. *)
Definition passesAll (Math : MathObject) (f : Filters.t)
  (places : list Place.t) (c : Charger.t) : bool :=
  passesOperational f c && passesAccess f c && passesCost f c
  && passesSpeed f c && passesConnectors f c
  && passesWalkingTime Math f places c.

(** ** Sample data *)

Section Fixtures.

Local Open Scope string_scope.

(** A place with an id and a position. *)
Definition placeAt (id : string) (latitude longitude : float) : Place.t :=
  {| Place.place_id := id;
     Place.name := id;
     Place.formatted_address := "";
     Place.geometry_location := {| lat := Num latitude; lng := Num longitude |};
     Place.rating := None;
     Place.user_ratings_total := None;
     Place.vicinity := "";
     Place.types := None;
     Place.chargerCount := None;
     Place.featuredCharger := None |}.

(** A distance-matrix entry of so many meters. *)
Definition metersAway (meters : float) : DistanceResult.t :=
  {| DistanceResult.destination := {| lat := Num 0; lng := Num 0 |};
     DistanceResult.distance := "";
     DistanceResult.duration := "";
     DistanceResult.distanceValue := Num meters;
     DistanceResult.durationValue := Null;
     DistanceResult.status := "OK" |}.

(** A raw charger with an id, a position and a cost text. *)
Definition rawChargerAt (id : Z) (latitude longitude : JsNumber)
  (usageCost : option string) : OCM.Charger.t :=
  {| OCM.Charger.ID := Some id;
     OCM.Charger.AddressInfo :=
       Some {| OCM.AddressInfo.Title := None;
               OCM.AddressInfo.AddressLine1 := None;
               OCM.AddressInfo.Latitude := latitude;
               OCM.AddressInfo.Longitude := longitude |};
     OCM.Charger.Connections := None;
     OCM.Charger.UsageCost := usageCost;
     OCM.Charger.UsageType := None;
     OCM.Charger.StatusType := None;
     OCM.Charger.DateLastStatusUpdate := None;
     OCM.Charger.NumberOfPoints := None;
     OCM.Charger.OperatorInfo := None;
     OCM.Charger.GeneralComments := None |}.

(** Three places on one meridian, and one charger near each: about 0.3 km,
    0.5 km and 0.1 km away. *)
Definition threePlaces : list Place.t :=
  [placeAt "place1" 37.00 (-122); placeAt "place2" 37.01 (-122);
   placeAt "place3" 37.02 (-122)].

Definition threeChargerLists : list (list OCM.Charger.t) :=
  [[rawChargerAt 1 (Num 37.0027) (Num (-122)) None];
   [rawChargerAt 2 (Num 37.0145) (Num (-122)) None];
   [rawChargerAt 3 (Num 37.0209) (Num (-122)) (Some "Free")]].

Definition threeDistances : list DistanceResult.t :=
  [metersAway 500; metersAway 1000; metersAway 2000].

(** Two places, the first of them at the origin itself. *)
Definition hereAndThere : list Place.t :=
  [placeAt "here" 37.00 (-122); placeAt "there" 37.01 (-122)].

Definition hereAndThereDistances : list DistanceResult.t :=
  [metersAway 0; metersAway 500].

Definition hereAndThereState : State :=
  {| places := hereAndThere;
     chargers :=
       [stamp "here" 0.1
          (parseChargerData (rawChargerAt 1 (Num 37.0009) (Num (-122)) None))];
     filteredChargers := [];
     distances := buildDistanceMap hereAndThere hereAndThereDistances 0 [];
     filters := defaultFilters;
     previousPlacesSignature := "" |}.

End Fixtures.

(** The default criteria narrowed to free chargers. *)
Definition freeOnly : Filters.t :=
  {| Filters.operational := false;
     Filters.access := All;
     Filters.cost := CostFree;
     Filters.speed := All;
     Filters.connectors := [];
     Filters.walkingTime := 5;
     Filters.searchRadius := 10 |}.

(** ** The outcome of a load *)

(** [allChargers] of a load that went through; empty otherwise. *)
Definition loadedChargers (outcome : LoadOutcome) : list Charger.t :=
  match outcome with
  | Loaded _ _ chargers => chargers
  | _ => []
  end.

(** [updatedPlaces] of a load that went through; empty otherwise. *)
Definition loadedPlaces (outcome : LoadOutcome) : list Place.t :=
  match outcome with
  | Loaded _ places _ => places
  | _ => []
  end.

(** ** Access *)

Section AccessVocabulary.

Local Open Scope string_scope.

(** A flag of the upstream usage type, read as a condition. *)
Definition usageFlag (f : OCM.UsageType.t -> option bool)
  (charger : OCM.Charger.t) : bool :=
  match OCM.Charger.UsageType charger with
  | Some usage => JS.truthyFlag (f usage)
  | None => false
  end.

(** The upstream usage title, empty when absent. *)
Definition usageTitleText (charger : OCM.Charger.t) : string :=
  JS.orStr (match OCM.Charger.UsageType charger with
            | Some usage => OCM.UsageType.Title usage
            | None => None
            end) "".

Definition accessCategory (charger : OCM.Charger.t) : Access.t :=
  ChargerAccess.category (Charger.access (parseChargerData charger)).

(** A raw record that reports only its usage type. *)
Definition chargerWithUsage (title : option string)
  (membership accessKey : option bool) : OCM.Charger.t :=
  {| OCM.Charger.ID := None;
     OCM.Charger.AddressInfo := None;
     OCM.Charger.Connections := None;
     OCM.Charger.UsageCost := None;
     OCM.Charger.UsageType :=
       Some {| OCM.UsageType.Title := title;
               OCM.UsageType.IsMembershipRequired := membership;
               OCM.UsageType.IsAccessKeyRequired := accessKey;
               OCM.UsageType.IsPayAtLocation := None |};
     OCM.Charger.StatusType := None;
     OCM.Charger.DateLastStatusUpdate := None;
     OCM.Charger.NumberOfPoints := None;
     OCM.Charger.OperatorInfo := None;
     OCM.Charger.GeneralComments := None |}.

End AccessVocabulary.

(** ** The range of connector powers *)

(** One step of the scan of [Math.min]. *)
Definition minStep (lowest number : float) : float :=
  if (JS.isNegZero number && JS.isPosZero lowest) || (number <? lowest)%float
  then number else lowest.

(** ** The Haversine distance *)

(** [Math.sin] is an odd function. *)
Definition oddSine (Math : MathObject) : Prop :=
  forall x : float, Math_sin Math (- x)%float = (- Math_sin Math x)%float.

(** [Math.cos] stays within [-1, 1] on every finite argument.  (On [NaN]
    and on the two infinities [Math.cos] is [NaN], which is within no
    bounds.) *)
Definition boundedCosine (Math : MathObject) : Prop :=
  forall x : float,
    is_finite x = true -> (abs (Math_cos Math x) <=? 1)%float = true.

(** The first-order small-angle stand-in: [sin x] is [x] itself, and [cos x]
    is [1] on a finite [x] and [NaN] on [NaN] and the infinities. *)
Definition linearMath : MathObject :=
  {| Math_sin := fun x => x;
     Math_cos := fun x => if is_finite x then 1%float else nan;
     Math_atan2 := fun y x => (y / x)%float |}.

(** A zero, or a finite value whose exponent and mantissa are those of a
    magnitude of at most 1. *)
Definition SFsmall (X : spec_float) : Prop :=
  match X with
  | S754_zero _ => True
  | S754_finite _ m e => (e <= -52 /\ Zpos m < 2 ^ 53)%Z
  | _ => False
  end.

(** A zero or a finite value. *)
Definition SFfinite (X : spec_float) : Prop :=
  match X with
  | S754_zero _ | S754_finite _ _ _ => True
  | _ => False
  end.

(** ** The order of the places *)

(** The key both place sorts compare:
    [distances[id]?.distanceValue || Infinity]. *)
Definition sortKey (distances : DistanceMap) (p : Place.t) : float :=
  orInfinity (distanceValueOf distances (Place.place_id p)).

(** Every element is at most every later one, by a key. *)
Definition ascending {A : Type} (key : A -> float) (l : list A) : Prop :=
  StronglySorted (fun a b => (key a <=? key b)%float = true) l.

(** The elements of key [k], in their order. *)
Definition withKey {A : Type} (key : A -> float) (k : float) (l : list A)
  : list A :=
  filter (fun a => (key a =? k)%float) l.

(** [searchRadiusMeters], as [loadDataFromLocation] derives it. *)
Definition searchRadiusMeters (filters : Filters.t) : float :=
  (JS.orNum (Some (Filters.searchRadius filters)) 2 * 1609.34)%float.

(** The radius test of [loadDataFromLocation] on a place. *)
Definition placeWithinRadius (filters : Filters.t) (distances : DistanceMap)
  (place : Place.t) : bool :=
  withinRadius (searchRadiusMeters filters)
    (distanceValueOf distances (Place.place_id place)).

(** ** Sample distance-matrix elements *)

Section MatrixFixtures.

Local Open Scope string_scope.

(** An element with a route of so many meters. *)
Definition routeOf (meters : float) : DistanceMatrix.Element.t :=
  {| DistanceMatrix.Element.status := "OK";
     DistanceMatrix.Element.distance :=
       Some {| DistanceMatrix.TextValue.text := "";
               DistanceMatrix.TextValue.value := Num meters |};
     DistanceMatrix.Element.duration :=
       Some {| DistanceMatrix.TextValue.text := "";
               DistanceMatrix.TextValue.value := Num 60 |} |}.

(** An element for which no route was found. *)
Definition noRoute : DistanceMatrix.Element.t :=
  {| DistanceMatrix.Element.status := "ZERO_RESULTS";
     DistanceMatrix.Element.distance := None;
     DistanceMatrix.Element.duration := None |}.

End MatrixFixtures.

(** ** A place beyond the radius *)

(** The second of the two sample places, 50 km by road. *)
Definition farDistances : list DistanceResult.t :=
  [metersAway 500; metersAway 50000].

(** One charger a hundred meters from each of the two sample places. *)
Definition twoChargerLists : list (list OCM.Charger.t) :=
  [[rawChargerAt 1 (Num 37.0009) (Num (-122)) None];
   [rawChargerAt 2 (Num 37.0109) (Num (-122)) None]].

(** ** A change of criteria that keeps the counts *)

(** The default criteria narrowed to paid chargers. *)
Definition paidOnly : Filters.t :=
  {| Filters.operational := false;
     Filters.access := All;
     Filters.cost := CostPaid;
     Filters.speed := All;
     Filters.connectors := [];
     Filters.walkingTime := 5;
     Filters.searchRadius := 10 |}.

(** [setFilters(f)] *)
Definition withFilters (f : Filters.t) (st : State) : State :=
  {| places := places st; chargers := chargers st;
     filteredChargers := filteredChargers st;
     distances := distances st; filters := f;
     previousPlacesSignature := previousPlacesSignature st |}.

Section StaleFixtures.

Local Open Scope string_scope.

(** One place with a free and a paid charger, as the effect leaves it under
    the criterion ['free']. *)
Definition shownFree : State :=
  applyFilters approxMath
    {| places := [placeAt "here" 37.00 (-122)];
       chargers :=
         [stamp "here" 0.1
            (parseChargerData
               (rawChargerAt 1 (Num 37.0009) (Num (-122)) (Some "Free")));
          stamp "here" 0.1
            (parseChargerData
               (rawChargerAt 2 (Num 37.0009) (Num (-122)) (Some "$0.35/kWh")))];
       filteredChargers := [];
       distances := buildDistanceMap [placeAt "here" 37.00 (-122)]
                      [metersAway 500] 0 [];
       filters := freeOnly;
       previousPlacesSignature := "" |}.

End StaleFixtures.

(** ** Signs *)

(** A zero, a positive finite value or [+Infinity]. *)
Definition SFnonneg (X : spec_float) : Prop :=
  match X with
  | S754_zero _ | S754_infinity false | S754_finite false _ _ => True
  | _ => False
  end.

(** ** Malformed records *)











(** ** The states of the component *)

(** [c] passes every predicate of the criteria [f], the walking test
    included: the criteria other than ['all'] by equality, a non-empty
    connector set by one of its types, and the distance from the owning
    place, computed anew, by the threshold of the walking-time budget. *)
Definition passesEvery (Math : MathObject) (f : Filters.t)
  (places : list Place.t) (c : Charger.t) : Prop :=
  (Filters.operational f = true -> operationalOf c = Some true)
  /\ (forall a, Filters.access f = Only a ->
                ChargerAccess.category (Charger.access c) = a)
  /\ (Filters.cost f = CostFree -> Charger.isFree c = true)
  /\ (Filters.cost f = CostPaid -> Charger.isFree c = false)
  /\ (forall tier, Filters.speed f = Only tier -> Charger.powerTier c = tier)
  /\ (Filters.connectors f <> [] ->
      exists conn, In conn (Charger.connectors c)
                   /\ In (Connector.type conn) (Filters.connectors f))
  /\ (exists place,
        owningPlace places c place
        /\ (calculateDistance Math (locationOf place) (Charger.location c)
            <=? walkingTimeToDistanceKm (Filters.walkingTime f))%float = true).

(** The state after the [setState] calls of a run, made in order. *)
Definition afterUpdates (updates : list Update) (st : State) : State :=
  fold_left (fun st u => setState u st) updates st.

(** Some place is set. *)
Definition hasPlaces (st : State) : bool :=
  match places st with
  | [] => false
  | _ => true
  end.

(** A run that has still to call [setChargers] has called
    [setPlaces(sortedPlaces)] before, or calls it first; and it never sets an
    empty place list.  [placesSet] tells whether some place is set. *)
Fixpoint safeRun (placesSet : bool) (run : list Update) : Prop :=
  match run with
  | [] => True
  | SetPlaces newPlaces :: rest => newPlaces <> [] /\ safeRun true rest
  | SetChargers _ :: rest => placesSet = true /\ safeRun placesSet rest
  | _ :: rest => safeRun placesSet rest
  end.

(** What holds of the component at every step. *)
Definition invariant (cfg : Config) : Prop :=
  (places (current cfg) <> [] \/ chargers (current cfg) = [])
  /\ JS.truthy (Filters.walkingTime (filters (current cfg))) = true
  /\ Forall (safeRun (hasPlaces (current cfg))) (running cfg).

(** A state that is not reachable: a charger, shown as filtered, and no
    place. *)
Definition noPlaceState : State :=
  {| places := [];
     chargers := [parseChargerData (chargerWithPowers [Some 7.2%float])];
     filteredChargers := [parseChargerData (chargerWithPowers [Some 7.2%float])];
     distances := [];
     filters := defaultFilters;
     previousPlacesSignature := "" |}.

(** The state once a load of the three sample places has gone through and
    the panel has handed over the default criteria narrowed to free
    chargers. *)
Definition freeAfterLoad (Math : MathObject) : State :=
  setFilters freeOnly
    (afterUpdates
       (loadUpdates Math defaultFilters threePlaces threeDistances
          threeChargerLists)
       initialState).

(* ================================================================== *)
(** * Properties                                                       *)
(* ================================================================== *)

(** ** The order of binary64 values *)

Ltac abstract_keys :=
  unfold key in *;
  repeat match goal with
         | H : context [SFkey ?t] |- _ =>
             let k := fresh "k" in
             let E := fresh "E" in
             remember (SFkey t) as k eqn:E; clear E
         | |- context [SFkey ?t] =>
             let k := fresh "k" in
             let E := fresh "E" in
             remember (SFkey t) as k eqn:E; clear E
         end.

Ltac lex :=
  abstract_keys;
  unfold lex_lt, lex_le in *;
  repeat match goal with
         | p : (Z * (Z * Z))%type |- _ => destruct p as [? [? ?]]
         | H : (_, _) = (_, _) |- _ => injection H as ? ?
         end;
  simpl in *; subst; first [lia | f_equal; f_equal; lia].

Lemma SFcompare_key (x y : spec_float) :
  SFnotnan x -> SFnotnan y ->
  match SFcompare x y with
  | Some Lt => lex_lt (SFkey x) (SFkey y)
  | Some Eq => SFkey x = SFkey y
  | Some Gt => lex_lt (SFkey y) (SFkey x)
  | None => False
  end.
Proof.
  unfold SFnotnan, lex_lt.
  destruct x as [sx|sx| |sx mx ex], y as [sy|sy| |sy my ey];
    intros Hx Hy; try congruence; simpl;
    try (destruct sx; simpl; try lia; fail);
    try (destruct sy; simpl; try lia; fail);
    try (destruct sx, sy; simpl; try reflexivity; lia).
  destruct sx, sy; simpl; try lia.
  - destruct (Z.compare_spec ex ey); simpl; try lia.
    change (PosDef.Pos.compare_cont Eq mx my) with (Pos.compare mx my).
    destruct (Pos.compare_spec mx my); simpl; subst; try reflexivity; lia.
  - destruct (Z.compare_spec ex ey); simpl; try lia.
    change (PosDef.Pos.compare_cont Eq mx my) with (Pos.compare mx my).
    destruct (Pos.compare_spec mx my); simpl; subst; try reflexivity; lia.
Qed.

Lemma SFcompare_nan (x y : spec_float) :
  SFcompare x y = None <-> (x = S754_nan \/ y = S754_nan).
Proof.
  split.
  - destruct x as [sx|sx| |sx mx ex], y as [sy|sy| |sy my ey]; simpl;
      intros H; try discriminate; auto.
  - intros [-> | ->]; [reflexivity | destruct x; reflexivity].
Qed.

Lemma SFcompare_cmp (x y : spec_float) : SFcmp x y (SFcompare x y).
Proof.
  destruct (SFcompare x y) as [c|] eqn:E.
  - assert (SFnotnan x /\ SFnotnan y) as [Hx Hy].
    { split; intros ->; [|destruct x]; discriminate E. }
    pose proof (SFcompare_key x y Hx Hy) as K. rewrite E in K.
    destruct c; constructor; assumption.
  - constructor. apply SFcompare_nan; assumption.
Qed.

Lemma is_nan_spec (x : float) : is_nan x = true <-> Prim2SF x = S754_nan.
Proof.
  unfold is_nan. rewrite eqb_spec. unfold SFeqb.
  destruct (SFcompare_cmp (Prim2SF x) (Prim2SF x)) as [[N|N]|Hx _ L|Hx _ _|Hx _ L].
  - tauto.
  - tauto.
  - exfalso. lex.
  - unfold SFnotnan in Hx. simpl. split; [discriminate | tauto].
  - exfalso. lex.
Qed.

Lemma not_nan_spec (x : float) : is_nan x = false <-> SFnotnan (Prim2SF x).
Proof.
  unfold SFnotnan. rewrite <- is_nan_spec. destruct (is_nan x); split; congruence.
Qed.

Ltac by_cmp x y :=
  rewrite ?ltb_spec, ?leb_spec, ?eqb_spec, !not_nan_spec;
  unfold SFltb, SFleb, SFeqb;
  destruct (SFcompare_cmp (Prim2SF x) (Prim2SF y)) as [[N|N]|Hx Hy L|Hx Hy L|Hx Hy L];
  unfold SFnotnan in *;
  (split; [intros H; try discriminate H; repeat split; try assumption
          | intros (? & ? & ?); try reflexivity; exfalso; try tauto]);
  lex.

Lemma ltb_iff (x y : float) :
  (x <? y)%float = true <->
  is_nan x = false /\ is_nan y = false /\ lex_lt (key x) (key y).
Proof. by_cmp x y. Qed.

Lemma leb_iff (x y : float) :
  (x <=? y)%float = true <->
  is_nan x = false /\ is_nan y = false /\ lex_le (key x) (key y).
Proof. by_cmp x y. Qed.

Lemma eqb_iff (x y : float) :
  (x =? y)%float = true <->
  is_nan x = false /\ is_nan y = false /\ key x = key y.
Proof. by_cmp x y. Qed.

Lemma lex_total (p q : Z * (Z * Z)) : lex_le p q \/ lex_lt q p.
Proof. lex. Qed.

(** The comparisons are total on the non-NaN values. *)
Lemma leb_false_ltb (x y : float) :
  is_nan x = false -> is_nan y = false ->
  (x <=? y)%float = false -> (y <? x)%float = true.
Proof.
  intros Hx Hy H. apply ltb_iff. repeat split; try assumption.
  destruct (lex_total (key x) (key y)) as [L|L]; [|assumption].
  rewrite (proj2 (leb_iff x y)) in H; [discriminate | auto].
Qed.

Lemma ltb_false_leb (x y : float) :
  is_nan x = false -> is_nan y = false ->
  (x <? y)%float = false -> (y <=? x)%float = true.
Proof.
  intros Hx Hy H. apply leb_iff. repeat split; try assumption.
  destruct (lex_total (key y) (key x)) as [L|L]; [assumption|].
  rewrite (proj2 (ltb_iff x y)) in H; [discriminate | auto].
Qed.

Lemma leb_trans (x y z : float) :
  (x <=? y)%float = true -> (y <=? z)%float = true -> (x <=? z)%float = true.
Proof.
  rewrite !leb_iff. intros (? & ? & ?) (? & ? & ?). repeat split; try assumption.
  lex.
Qed.

Lemma leb_ltb_trans (x y z : float) :
  (x <=? y)%float = true -> (y <? z)%float = true -> (x <=? z)%float = true.
Proof.
  rewrite !leb_iff, ltb_iff. intros (? & ? & ?) (? & ? & ?).
  repeat split; try assumption. lex.
Qed.

Lemma ltb_leb (x y : float) : (x <? y)%float = true -> (x <=? y)%float = true.
Proof.
  rewrite leb_iff, ltb_iff. intros (? & ? & ?). repeat split; try assumption. lex.
Qed.

Lemma leb_refl (x : float) : is_nan x = false -> (x <=? x)%float = true.
Proof. intros H. apply leb_iff. repeat split; try assumption. lex. Qed.

Lemma ltb_not_nan (x y : float) :
  (x <? y)%float = true -> is_nan x = false /\ is_nan y = false.
Proof. rewrite ltb_iff. tauto. Qed.

Lemma leb_ltb_false (x y : float) :
  (x <=? y)%float = true -> (y <? x)%float = false.
Proof.
  intros H. destruct (y <? x)%float eqn:E; [|reflexivity].
  apply leb_iff in H. apply ltb_iff in E. exfalso.
  destruct H as (_ & _ & H), E as (_ & _ & E). lex.
Qed.

Lemma ltb_is_zero (x : float) : (0 <? x)%float = true -> is_zero x = false.
Proof.
  intros H. unfold is_zero. destruct (x =? zero)%float eqn:E; [|reflexivity].
  apply ltb_iff in H. apply eqb_iff in E. exfalso.
  destruct H as (_ & _ & H), E as (_ & _ & E). change zero with 0%float in E. lex.
Qed.

Lemma ltb_trans (x y z : float) :
  (x <? y)%float = true -> (y <? z)%float = true -> (x <? z)%float = true.
Proof.
  rewrite !ltb_iff. intros (? & ? & ?) (? & ? & ?).
  repeat split; try assumption. lex.
Qed.

(** ** The sign of a difference *)

Section Rounding.

Local Open Scope Z_scope.

Lemma digits2_pos_size (p : positive) : digits2_pos p = Pos.size p.
Proof. induction p as [p IH|p IH|]; simpl; rewrite ?IH; reflexivity. Qed.

Lemma digits2_bounds (p : positive) :
  2 ^ (Zpos (digits2_pos p) - 1) <= Zpos p < 2 ^ Zpos (digits2_pos p).
Proof.
  rewrite digits2_pos_size.
  pose proof (Pos.size_gt p) as Hgt. pose proof (Pos.size_le p) as Hle.
  assert (Zpos (2 ^ Pos.size p) = 2 ^ Zpos (Pos.size p)) as E
    by (rewrite Pos2Z.inj_pow; reflexivity).
  assert (2 ^ Zpos (Pos.size p) = 2 * 2 ^ (Zpos (Pos.size p) - 1)) as E2.
  { rewrite <- Z.pow_succ_r by lia. f_equal. lia. }
  lia.
Qed.

Lemma shr_1_m (mrs : shr_record) :
  0 <= shr_m mrs -> shr_m (shr_1 mrs) = shr_m mrs / 2.
Proof.
  destruct mrs as [m r s]. simpl. intros Hm.
  destruct m as [|[p|p|]|p]; simpl shr_m; try lia; try reflexivity.
  - apply Z.div_unique with 1; lia.
  - apply Z.div_unique with 0; lia.
Qed.

Lemma iter_shr_1_m (p : positive) (mrs : shr_record) :
  0 <= shr_m mrs -> shr_m (iter_pos shr_1 p mrs) = shr_m mrs / 2 ^ Zpos p.
Proof.
  revert mrs. induction p as [p IH|p IH|]; intros mrs Hm; simpl iter_pos.
  - assert (0 <= shr_m (shr_1 mrs)) as H1
        by (rewrite shr_1_m by assumption; apply Z.div_pos; lia).
    assert (0 <= shr_m (iter_pos shr_1 p (shr_1 mrs))) as H2
        by (rewrite IH by assumption; apply Z.div_pos; lia).
    rewrite IH, IH, shr_1_m by assumption.
    assert (2 ^ Zpos p~1 = 2 * 2 ^ Zpos p * 2 ^ Zpos p) as ->.
    { replace (Zpos p~1) with (1 + Zpos p + Zpos p) by lia.
      rewrite !Z.pow_add_r by lia. reflexivity. }
    assert (0 < 2 ^ Zpos p) by (apply Z.pow_pos_nonneg; lia).
    rewrite !Z.div_div by lia. f_equal; lia.
  - assert (0 <= shr_m (iter_pos shr_1 p mrs)) as H2
        by (rewrite IH by assumption; apply Z.div_pos; lia).
    rewrite IH, IH by assumption.
    assert (2 ^ Zpos p~0 = 2 ^ Zpos p * 2 ^ Zpos p) as ->.
    { replace (Zpos p~0) with (Zpos p + Zpos p) by lia.
      rewrite !Z.pow_add_r by lia. reflexivity. }
    assert (0 < 2 ^ Zpos p) by (apply Z.pow_pos_nonneg; lia).
    rewrite !Z.div_div by lia. f_equal; lia.
  - rewrite shr_1_m by assumption. reflexivity.
Qed.

Lemma shr_record_of_loc_m (m : Z) (l : location) :
  shr_m (shr_record_of_loc m l) = m.
Proof. destruct l as [|[ | | ]]; reflexivity. Qed.

(** Shifting a positive mantissa to its canonical exponent leaves it
    positive, provided the exponent is not below [emin]. *)
Lemma shr_fexp_positive (m : positive) (e : Z) (l : location) :
  emin <= e ->
  0 < shr_m (fst (shr_fexp prec emax (Zpos m) e l))
  /\ emin <= snd (shr_fexp prec emax (Zpos m) e l).
Proof.
  intros He. unfold shr_fexp, shr. simpl Zdigits2.
  pose proof (digits2_bounds m) as B.
  set (d := Zpos (digits2_pos m)) in *.
  unfold fexp.
  destruct (Z.max (d + e - prec) emin - e) as [|n|n] eqn:En; simpl.
  - rewrite shr_record_of_loc_m. lia.
  - rewrite iter_shr_1_m by (rewrite shr_record_of_loc_m; lia).
    rewrite shr_record_of_loc_m.
    assert (Zpos n = d - prec) as Hn by lia.
    split; [|lia].
    assert (2 ^ Zpos n <= Zpos m) as Hle.
    { apply Z.le_trans with (2 ^ (d - 1)); [|lia].
      apply Z.pow_le_mono_r; unfold prec in *; lia. }
    apply Z.div_str_pos. split; [apply Z.pow_pos_nonneg; lia | assumption].
  - rewrite shr_record_of_loc_m. lia.
Qed.

Lemma round_nearest_even_positive (m : Z) (l : location) :
  0 < m -> 0 < round_nearest_even m l.
Proof.
  intros Hm. destruct l as [|[ | | ]]; simpl; try lia.
  destruct (Z.even m); lia.
Qed.

Lemma binary_round_aux_sign (s : bool) (m : positive) (e : Z) (l : location) :
  emin <= e ->
  (exists m' e', binary_round_aux prec emax s (Zpos m) e l = S754_finite s m' e')
  \/ binary_round_aux prec emax s (Zpos m) e l = S754_infinity s.
Proof.
  intros He. unfold binary_round_aux.
  destruct (shr_fexp_positive m e l He) as [H1 H1e].
  destruct (shr_fexp prec emax (Zpos m) e l) as [mrs' e'] eqn:E1. simpl in H1, H1e.
  pose proof (round_nearest_even_positive (shr_m mrs') (loc_of_shr_record mrs') H1) as H2.
  destruct (round_nearest_even (shr_m mrs') (loc_of_shr_record mrs')) as [|m2|m2];
    try lia.
  destruct (shr_fexp_positive m2 e' loc_Exact H1e) as [H3 _].
  destruct (shr_fexp prec emax (Zpos m2) e' loc_Exact) as [mrs'' e''] eqn:E2.
  simpl in H3. destruct (shr_m mrs'') as [|m3|m3]; try lia.
  destruct (e'' <=? emax - prec); [left; eauto | right; reflexivity].
Qed.

Lemma shl_align_spec (m : positive) (e e' : Z) :
  e' <= e ->
  Zpos (fst (shl_align m e e')) = Zpos m * 2 ^ (e - e')
  /\ snd (shl_align m e e') = e'.
Proof.
  intros H. unfold shl_align.
  destruct (e' - e) as [|d|d] eqn:Ed; simpl; try lia.
  - replace (e - e') with 0 by lia. rewrite Z.pow_0_r. split; lia.
  - replace (e - e') with (Zpos d) by lia.
    split; [|reflexivity].
    change (Pos.iter xO m d) with (shift_pos d m).
    rewrite shift_pos_correct, Zpower_pos_nat, Zpower_nat_Z.
    rewrite positive_nat_Z. apply Z.mul_comm.
Qed.

Lemma binary_round_sign (s : bool) (m : positive) (e : Z) :
  emin <= e ->
  (exists m' e', binary_round prec emax s m e = S754_finite s m' e')
  \/ binary_round prec emax s m e = S754_infinity s.
Proof.
  intros He. unfold binary_round.
  set (f := fexp prec emax (Zpos (digits2_pos m) + e)).
  assert (emin <= f) as Hf by (unfold f, fexp; lia).
  destruct (shl_align m e f) as [mz ez] eqn:E.
  apply binary_round_aux_sign.
  unfold shl_align in E. destruct (f - e) as [|d|d] eqn:Ed;
    injection E as _ <-; lia.
Qed.

End Rounding.

Section Subtraction.

Local Open Scope Z_scope.

Lemma bounded_canonical (m : positive) (e : Z) :
  bounded prec emax m e = true ->
  emin <= e
  /\ Zpos (digits2_pos m) <= prec
  /\ (emin < e -> Zpos (digits2_pos m) = prec).
Proof.
  unfold bounded, canonical_mantissa, fexp. intros H.
  apply andb_true_iff in H. destruct H as [H _].
  apply Z.eqb_eq in H. lia.
Qed.

(** On canonical mantissas, the aligned magnitudes compare as the pairs
    (exponent, mantissa) do. *)
Lemma aligned_compare (mx my : positive) (ex ey : Z) :
  bounded prec emax mx ex = true -> bounded prec emax my ey = true ->
  let ez := Z.min ey ex in
  (Zpos mx * 2 ^ (ex - ez) < Zpos my * 2 ^ (ey - ez)
   <-> ex < ey \/ (ex = ey /\ Zpos mx < Zpos my)).
Proof.
  intros Hx Hy ez.
  destruct (bounded_canonical mx ex Hx) as (Hex & Hdx & Hnx).
  destruct (bounded_canonical my ey Hy) as (Hey & Hdy & Hny).
  pose proof (digits2_bounds mx) as Bx. pose proof (digits2_bounds my) as By.
  assert (forall (m m' : positive) (e e' : Z),
             e < e' -> Zpos (digits2_pos m) <= prec ->
             Zpos (digits2_pos m') = prec ->
             2 ^ (Zpos (digits2_pos m) - 1) <= Zpos m < 2 ^ Zpos (digits2_pos m) ->
             2 ^ (Zpos (digits2_pos m') - 1) <= Zpos m' < 2 ^ Zpos (digits2_pos m') ->
             Zpos m < Zpos m' * 2 ^ (e' - e)) as Hlt.
  { intros m m' e e' He Hd Hd' B B'. rewrite Hd' in B'.
    assert (2 ^ Zpos (digits2_pos m) <= 2 ^ prec)
      by (apply Z.pow_le_mono_r; lia).
    assert (2 ^ 1 <= 2 ^ (e' - e)) by (apply Z.pow_le_mono_r; lia).
    assert (2 ^ prec = 2 ^ (prec - 1) * 2 ^ 1) as E
      by (rewrite <- Z.pow_add_r by (unfold prec; lia); f_equal; lia).
    assert (0 < 2 ^ (prec - 1)) by (apply Z.pow_pos_nonneg; unfold prec; lia).
    nia. }
  unfold ez. destruct (Z.lt_trichotomy ex ey) as [L | [E | G]].
  - rewrite Z.min_r by lia. rewrite Z.sub_diag, Z.pow_0_r, Z.mul_1_r.
    pose proof (Hlt mx my ex ey L Hdx (Hny ltac:(lia)) Bx By). lia.
  - subst ey. rewrite Z.min_id, Z.sub_diag, Z.pow_0_r, !Z.mul_1_r. lia.
  - rewrite Z.min_l by lia. rewrite Z.sub_diag, Z.pow_0_r, Z.mul_1_r.
    pose proof (Hlt my mx ey ex G Hdy (Hnx ltac:(lia)) By Bx). lia.
Qed.

Lemma binary_normalize_positive (D e : Z) :
  emin <= e ->
  (SFltb (S754_zero false) (binary_normalize prec emax D e false) = true
   <-> 0 < D).
Proof.
  intros He. destruct D as [|p|p]; simpl binary_normalize.
  - split; [discriminate | lia].
  - destruct (binary_round_sign false p e He) as [(m' & e' & ->) | ->];
      split; intros; try reflexivity; lia.
  - destruct (binary_round_sign true p e He) as [(m' & e' & ->) | ->];
      split; intros; try discriminate; lia.
Qed.

(** The sign of a difference is the order of its operands. *)
Lemma SFsub_positive (X Y : spec_float) :
  valid_binary X = true -> valid_binary Y = true ->
  SFnotnan X -> SFnotnan Y ->
  (SFltb (S754_zero false) (SFsub prec emax Y X) = true
   <-> lex_lt (SFkey X) (SFkey Y)).
Proof.
  unfold SFnotnan, lex_lt.
  destruct X as [sx|sx| |sx mx ex], Y as [sy|sy| |sy my ey];
    intros Vx Vy Nx Ny; try congruence; simpl SFsub; simpl SFkey.
  all: try (destruct sx, sy; simpl; split; intros; try reflexivity;
            try discriminate; lia).
  all: try (destruct sx; simpl; split; intros; try reflexivity;
            try discriminate; lia).
  all: try (destruct sy; simpl; split; intros; try reflexivity;
            try discriminate; lia).
  simpl in Vx, Vy.
  destruct (bounded_canonical mx ex Vx) as (Hex & _ & _).
  destruct (bounded_canonical my ey Vy) as (Hey & _ & _).
  rewrite binary_normalize_positive by lia.
  destruct (shl_align_spec my ey (Z.min ey ex) ltac:(lia)) as [-> _].
  destruct (shl_align_spec mx ex (Z.min ey ex) ltac:(lia)) as [-> _].
  pose proof (aligned_compare mx my ex ey Vx Vy) as Cxy.
  pose proof (aligned_compare my mx ey ex Vy Vx) as Cyx.
  cbv zeta in Cxy, Cyx. rewrite (Z.min_comm ex ey) in Cyx.
  assert (0 < Zpos mx * 2 ^ (ex - Z.min ey ex))
    by (apply Z.mul_pos_pos; [lia | apply Z.pow_pos_nonneg; lia]).
  assert (0 < Zpos my * 2 ^ (ey - Z.min ey ex))
    by (apply Z.mul_pos_pos; [lia | apply Z.pow_pos_nonneg; lia]).
  set (MX := Zpos mx * 2 ^ (ex - Z.min ey ex)) in *.
  set (MY := Zpos my * 2 ^ (ey - Z.min ey ex)) in *.
  destruct sx, sy; unfold cond_Zopp; simpl fst; simpl snd;
    rewrite ?Pos2Z.opp_pos in *; lia.
Qed.

Lemma sub_positive (x y : float) :
  is_nan x = false -> is_nan y = false ->
  ((0 <? y - x)%float = true <-> (x <? y)%float = true).
Proof.
  intros Hx Hy. rewrite (ltb_iff x y).
  rewrite ltb_spec, sub_spec. change (Prim2SF 0) with (S754_zero false).
  unfold SF64sub, key.
  rewrite (SFsub_positive (Prim2SF x) (Prim2SF y)
             (Prim2SF_valid x) (Prim2SF_valid y)
             (proj1 (not_nan_spec x) Hx) (proj1 (not_nan_spec y) Hy)).
  tauto.
Qed.

End Subtraction.

(** ** [Math.max] on positive values *)

Section MathMax.

Local Open Scope float_scope.

Lemma positive_not_nan (p : float) : isPositive p -> is_nan p = false.
Proof. intros H. apply ltb_not_nan in H. tauto. Qed.

Lemma positive_not_zero (p : float) : isPositive p -> JS.isPosZero p = false.
Proof.
  intros H. unfold JS.isPosZero. rewrite (ltb_is_zero p H). reflexivity.
Qed.

Lemma no_nan_among_positive (l : list float) :
  Forall isPositive l -> existsb is_nan l = false.
Proof.
  induction 1 as [|p l Hp _ IH]; simpl; [reflexivity|].
  rewrite (positive_not_nan p Hp), IH. reflexivity.
Qed.

Lemma max_scan (l : list float) :
  Forall isPositive l ->
  forall acc, is_nan acc = false ->
  (fold_left maxStep l acc = acc \/ In (fold_left maxStep l acc) l)
  /\ (acc <=? fold_left maxStep l acc) = true
  /\ (forall p, In p l -> (p <=? fold_left maxStep l acc) = true).
Proof.
  induction 1 as [|x l Hx _ IH]; intros acc Hacc; simpl.
  - split; [auto|]. split; [apply leb_refl; assumption | contradiction].
  - assert (maxStep acc x = if acc <? x then x else acc) as ->.
    { unfold maxStep. rewrite (positive_not_zero x Hx). reflexivity. }
    destruct (acc <? x) eqn:E.
    + destruct (IH x (positive_not_nan x Hx)) as (Hin & Hle & Hall).
      split; [destruct Hin as [Hin | Hin]; [right; left; congruence | tauto]|].
      split.
      * eapply leb_trans; [apply ltb_leb; eassumption | assumption].
      * intros p [<- | Hp]; auto.
    + destruct (IH acc Hacc) as (Hin & Hle & Hall).
      split; [tauto|]. split; [assumption|].
      intros p [<- | Hp]; auto.
      eapply leb_trans; [|eassumption].
      apply ltb_false_leb; auto using positive_not_nan.
Qed.

Lemma Math_max_positive (l : list float) :
  Forall isPositive l -> l <> [] ->
  In (JS.Math_max l) l
  /\ isPositive (JS.Math_max l)
  /\ (forall p, In p l -> (p <=? JS.Math_max l) = true).
Proof.
  intros Hl Hne. unfold JS.Math_max. rewrite (no_nan_among_positive l Hl).
  destruct l as [|x l]; [congruence|]. clear Hne.
  inversion Hl as [|? ? Hx Hl']; subst.
  change (fold_left _ (x :: l) neg_infinity)
    with (fold_left maxStep l (maxStep neg_infinity x)).
  assert (maxStep neg_infinity x = x) as ->.
  { unfold maxStep. rewrite (positive_not_zero x Hx). simpl.
    assert ((neg_infinity <? x) = true) as ->; [|reflexivity].
    apply ltb_iff in Hx. apply ltb_iff.
    destruct Hx as (_ & Hn & L). repeat split; auto.
    change (key neg_infinity) with ((-2, (0, 0)))%Z.
    change (key 0) with ((0, (0, 0)))%Z in L. lex. }
  destruct (max_scan l Hl' x (positive_not_nan x Hx)) as (Hin & Hle & Hall).
  split; [destruct Hin as [Hin | Hin]; [left; congruence | right; assumption]|].
  split.
  - unfold isPositive in *. apply ltb_iff in Hx. apply leb_iff in Hle. apply ltb_iff.
    destruct Hx as (? & ? & ?), Hle as (? & ? & ?). repeat split; auto. lex.
  - intros p [<- | Hp]; auto.
Qed.

End MathMax.

(** ** Power tier *)

Section PowerTierFacts.

Local Open Scope float_scope.

Lemma powerValues_positive (conns : list OCM.Connection.t) :
  Forall isPositive (powerValuesOf conns).
Proof.
  unfold powerValuesOf. apply Forall_forall. intros p Hp.
  apply filter_In in Hp. exact (proj2 Hp).
Qed.

Lemma maxPower_eq (charger : OCM.Charger.t) :
  Charger.maxPower (parseChargerData charger) =
  match powerValuesOf (connectionsOf charger) with
  | [] => 0
  | l => JS.Math_max l
  end.
Proof.
  unfold parseChargerData, connectionsOf; simpl.
  destruct (powerValuesOf _); reflexivity.
Qed.

Lemma powerTier_eq (charger : OCM.Charger.t) :
  Charger.powerTier (parseChargerData charger) =
  fst (derivePowerTier (Charger.maxPower (parseChargerData charger))).
Proof. reflexivity. Qed.

Lemma maxPower_cases (charger : OCM.Charger.t) :
  let m := Charger.maxPower (parseChargerData charger) in
  (m = 0 /\ powerValuesOf (connectionsOf charger) = [])
  \/ (isPositive m /\ In m (powerValuesOf (connectionsOf charger))
      /\ forall p, In p (powerValuesOf (connectionsOf charger)) -> (p <=? m) = true).
Proof.
  cbv zeta. rewrite maxPower_eq.
  pose proof (powerValues_positive (connectionsOf charger)) as Hpos.
  destruct (powerValuesOf (connectionsOf charger)) as [|x l] eqn:E; [left; auto|].
  right. destruct (Math_max_positive (x :: l) Hpos ltac:(discriminate)) as (? & ? & ?).
  auto.
Qed.

Lemma orNum_cases (p : float) :
  JS.orNum (Some p) 0 = p \/ JS.orNum (Some p) 0 = 0.
Proof. unfold JS.orNum. destruct (JS.truthy p); auto. Qed.

(** Claim C3.  [maxPower] is the largest connector power reported (every
    reported power is at most [maxPower], and [maxPower] is [0] or one of
    the reported powers); the tier is [level1] when [maxPower <= 3.7],
    [level2] when [3.7 < maxPower <= 22] and [dc_fast] when
    [maxPower > 22]; one of the three always applies, so ['unknown'] is never
    produced; and the boundary values 3.7, 3.701, 22, 22.001, as well as
    zero, negative and absent powers, fall where the specification puts
    them. *)
Theorem power_tier_by_max_power :
  (forall charger : OCM.Charger.t,
     let m := Charger.maxPower (parseChargerData charger) in
     let tier := Charger.powerTier (parseChargerData charger) in
     (forall conn p,
        In conn (connectionsOf charger) ->
        OCM.Connection.PowerKW conn = Some p -> is_nan p = false ->
        (p <=? m) = true)
     /\ (m = 0
         \/ exists conn, In conn (connectionsOf charger)
                         /\ OCM.Connection.PowerKW conn = Some m)
     /\ ((m <=? 3.7) = true -> tier = PowerTier.level1)
     /\ ((3.7 <? m) = true -> (m <=? 22) = true -> tier = PowerTier.level2)
     /\ ((22 <? m) = true -> tier = PowerTier.dc_fast)
     /\ ((m <=? 3.7) = true
         \/ ((3.7 <? m) = true /\ (m <=? 22) = true)
         \/ (22 <? m) = true)
     /\ tier <> PowerTier.unknown)
  /\ tierOfPowers [Some 3.7] = PowerTier.level1
  /\ tierOfPowers [Some 3.701] = PowerTier.level2
  /\ tierOfPowers [Some 22] = PowerTier.level2
  /\ tierOfPowers [Some 22.001] = PowerTier.dc_fast
  /\ tierOfPowers [Some 0] = PowerTier.level1
  /\ tierOfPowers [Some (-7.2)] = PowerTier.level1
  /\ tierOfPowers [None] = PowerTier.level1
  /\ tierOfPowers [] = PowerTier.level1.
Proof.
  split; [|repeat split; vm_compute; reflexivity].
  intros charger. cbv zeta.
  pose proof (maxPower_cases charger) as C. cbv zeta in C.
  rewrite powerTier_eq.
  set (m := Charger.maxPower (parseChargerData charger)) in *.
  assert (is_nan m = false /\ (0 <=? m) = true) as [Hnan H0].
  { destruct C as [[E _] | (Hp & _ & _)].
    - rewrite E. split; reflexivity.
    - split; [apply positive_not_nan; assumption | apply ltb_leb; assumption]. }
  assert (forall conn p,
             In conn (connectionsOf charger) ->
             OCM.Connection.PowerKW conn = Some p -> is_nan p = false ->
             (0 <? p) = true ->
             In p (powerValuesOf (connectionsOf charger))) as Hmem.
  { intros conn p Hin Hp Hpn Epos.
    unfold powerValuesOf. apply filter_In. split; [|assumption].
    apply in_map_iff. exists conn. split; [|assumption].
    rewrite Hp. unfold JS.orNum, JS.truthy.
    rewrite (ltb_is_zero p Epos), Hpn. reflexivity. }
  split; [|split]; [| |clear H0].
  - intros conn p Hin Hp Hpn.
    destruct (0 <? p) eqn:Epos.
    + pose proof (Hmem conn p Hin Hp Hpn Epos) as Hc.
      destruct C as [[_ E] | (_ & _ & Hall)].
      * rewrite E in Hc. contradiction.
      * apply Hall. assumption.
    + eapply leb_trans; [|exact H0].
      apply ltb_false_leb; auto.
  - destruct C as [[E _] | (_ & Hin & _)]; [left; assumption | right].
    unfold powerValuesOf in Hin. apply filter_In in Hin. destruct Hin as [Hin Hpos].
    apply in_map_iff in Hin. destruct Hin as (conn & Hconn & Hin).
    exists conn. split; [assumption|].
    destruct (OCM.Connection.PowerKW conn) as [p|]; simpl in Hconn.
    * destruct (JS.truthy p); [congruence|].
      rewrite <- Hconn in Hpos. discriminate Hpos.
    * rewrite <- Hconn in Hpos. discriminate Hpos.
  - unfold derivePowerTier.
    destruct (m <=? 3.7) eqn:E1; simpl.
    { repeat split; auto; try discriminate.
      - intros H. rewrite (leb_ltb_false _ _ E1) in H. discriminate.
      - intros H. exfalso. assert ((m <=? 22) = true) as E2.
        { eapply leb_trans; [eassumption| reflexivity]. }
        rewrite (leb_ltb_false _ _ E2) in H. discriminate. }
    pose proof (leb_false_ltb m 3.7 Hnan eq_refl E1) as L1.
    destruct (m <=? 22) eqn:E2; simpl.
    { repeat split; auto; try discriminate.
      intros H. rewrite (leb_ltb_false _ _ E2) in H. discriminate. }
    pose proof (leb_false_ltb m 22 Hnan eq_refl E2) as L2. rewrite L2. simpl.
    repeat split; auto; discriminate.
Qed.

End PowerTierFacts.

(** ** Case-insensitive search *)

Section Strings.

Local Open Scope string_scope.

Lemma lowerAscii_foldsTo (c l : ascii) :
  notUpper l -> (JS.lowerAscii c = l <-> foldsTo c l).
Proof.
  intros Hl. unfold JS.lowerAscii, foldsTo, notUpper in *.
  destruct (Nat.leb_spec 65 (nat_of_ascii c)), (Nat.leb_spec (nat_of_ascii c) 90);
    simpl.
  - split.
    + intros <-. right. split; [lia|].
      rewrite nat_ascii_embedding; lia.
    + intros [-> | [_ E]]; [lia|].
      rewrite <- E. apply ascii_nat_embedding.
  - split; [auto | intros [?|[? ?]]; [auto | lia]].
  - split; [auto | intros [?|[? ?]]; [auto | lia]].
  - split; [auto | intros [?|[? ?]]; [auto | lia]].
Qed.

Lemma prefix_iff (needle s : string) :
  String.prefix needle s = true <-> exists suf, s = needle ++ suf.
Proof.
  revert s. induction needle as [|c needle IH]; intros s.
  - split; [exists s; reflexivity | destruct s; reflexivity].
  - destruct s as [|d s]; simpl.
    + split; [discriminate | intros [suf E]; discriminate].
    + destruct (ascii_dec c d) as [->|N].
      * rewrite IH. split; intros [suf E]; exists suf; [subst; reflexivity|].
        injection E as E. assumption.
      * split; [discriminate | intros [suf E]]. injection E as E1 E2. congruence.
Qed.

Lemma includes_unfold (s needle : string) :
  JS.includes s needle =
  String.prefix needle s
  || match s with
     | "" => false
     | String _ r => JS.includes r needle
     end.
Proof. destruct s; reflexivity. Qed.

Lemma includes_iff (s needle : string) :
  JS.includes s needle = true <-> exists pre suf, s = pre ++ needle ++ suf.
Proof.
  induction s as [|c s IH]; rewrite includes_unfold, orb_true_iff, prefix_iff.
  - split.
    + intros [[suf E] | F]; [|discriminate]. exists "", suf. assumption.
    + intros (pre & suf & E). left.
      destruct pre; [exists suf; assumption|discriminate].
  - rewrite IH. split.
    + intros [[suf E] | (pre & suf & E)].
      * exists "", suf. assumption.
      * exists (String c pre), suf. simpl. rewrite E. reflexivity.
    + intros (pre & suf & E). destruct pre as [|d pre]; simpl in E.
      * left. exists suf. assumption.
      * right. injection E as E1 E2. exists pre, suf. assumption.
Qed.

Lemma append_assoc (a b c : string) : (a ++ b) ++ c = a ++ b ++ c.
Proof. induction a as [|x a IH]; simpl; [reflexivity | rewrite IH; reflexivity]. Qed.

Lemma append_nil_r (a : string) : a ++ "" = a.
Proof. induction a as [|x a IH]; simpl; [reflexivity | rewrite IH; reflexivity]. Qed.

(** *** Lower-casing *)

Lemma toLowerCase_lowers_upto (n : nat) :
  forall s, String.length s <= n -> lowers s (JS.toLowerCase s).
Proof.
  induction n as [|n IH]; intros s Hs.
  - destruct s; [constructor | simpl in Hs; lia].
  - destruct s as [|c [|c1 r1]]; [constructor | |].
    + simpl. repeat constructor.
    + assert (lowers (String c (String c1 r1))
                (String (JS.lowerAscii c) (JS.toLowerCase (String c1 r1))))
        as Default by (constructor; apply IH; simpl in *; lia).
      cbn [JS.toLowerCase] in *.
      destruct ((c =? "226") && (c1 =? "132"))%char eqn:K.
      * destruct r1 as [|c2 r2]; [exact Default|].
        destruct (c2 =? "170")%char eqn:K2; [|exact Default].
        apply andb_true_iff in K. destruct K as [K0 K1].
        apply Ascii.eqb_eq in K0, K1, K2. subst.
        apply (lowers_kelvin r2). apply IH. simpl in *. lia.
      * destruct ((c =? "196") && (c1 =? "176"))%char eqn:D;
          [|exact Default].
        apply andb_true_iff in D. destruct D as [D0 D1].
        apply Ascii.eqb_eq in D0, D1. subst.
        apply (lowers_dotted r1). apply IH. simpl in *. lia.
Qed.

Lemma toLowerCase_lowers (s : string) : lowers s (JS.toLowerCase s).
Proof. apply (toLowerCase_lowers_upto (String.length s)). lia. Qed.

Lemma lowerWord_tail (l : ascii) (w : string) :
  lowerWord (String l w) -> lowerWord w.
Proof. simpl. tauto. Qed.

(** A search word at the head of the lower-cased text is spelt at the head
    of the text. *)
Lemma lowers_prefix (w : string) :
  lowerWord w ->
  forall s t suf',
    lowers s t -> t = w ++ suf' ->
    exists mid suf, s = mid ++ suf /\ spellsFolded mid w.
Proof.
  induction w as [|l w IH]; intros Hw s t suf' Hl E.
  - exists "", s. split; [reflexivity | constructor].
  - simpl in E. destruct Hw as (Hascii & Hup & Hi & Hw).
    destruct Hl as [|r t0 H0|r t0 H0|c r t0 H0].
    + discriminate.
    + injection E as E1 E2. subst l.
      destruct (IH Hw r t0 suf' H0 E2) as (mid & suf & -> & Hm).
      exists (JS.kelvinSign ++ mid), suf.
      split; [reflexivity | constructor; assumption].
    + exfalso. simpl in E. injection E as E1 E2. subst l.
      destruct w as [|l' w'].
      * apply Hi; reflexivity.
      * simpl in E2. injection E2 as E2 _. subst l'.
        destruct Hw as (Hascii' & _). vm_compute in Hascii'. lia.
    + injection E as E1 E2.
      destruct (IH Hw r t0 suf' H0 E2) as (mid & suf & -> & Hm).
      exists (String c mid), suf. split; [reflexivity|].
      constructor; [|assumption].
      apply lowerAscii_foldsTo; assumption.
Qed.

Lemma containsFolded_empty (s : string) : containsFolded s "".
Proof. exists "", "", s. split; [reflexivity | constructor]. Qed.

Lemma containsFolded_after (a s w : string) :
  containsFolded s w -> containsFolded (a ++ s) w.
Proof.
  intros (pre & mid & suf & -> & H). exists (a ++ pre), mid, suf.
  split; [|assumption]. rewrite !append_assoc. reflexivity.
Qed.

(** A search word in the lower-cased text is spelt in the text. *)
Lemma lowers_contains (w : string) :
  lowerWord w ->
  forall s t,
    lowers s t ->
    forall pre' suf', t = pre' ++ w ++ suf' -> containsFolded s w.
Proof.
  intros Hw. destruct w as [|l w]; [intros; apply containsFolded_empty|].
  assert (nat_of_ascii l < 128) as Hl by (simpl in Hw; tauto).
  induction 1 as [|r t0 H0 IH|r t0 H0 IH|c r t0 H0 IH]; intros pre' suf' E.
  - destruct pre'; discriminate.
  - destruct pre' as [|p pre'].
    + destruct (lowers_prefix _ Hw _ _ suf' (lowers_kelvin r t0 H0) E)
        as (mid & suf & E' & Hm).
      exists "", mid, suf. split; assumption.
    + injection E as _ E.
      apply (containsFolded_after JS.kelvinSign), (IH _ _ E).
  - destruct pre' as [|p0 [|p1 [|p2 pre']]].
    + destruct (lowers_prefix _ Hw _ _ suf' (lowers_dotted r t0 H0) E)
        as (mid & suf & E' & Hm).
      exists "", mid, suf. split; assumption.
    + exfalso. simpl in E. injection E as _ E. subst l.
      vm_compute in Hl. lia.
    + exfalso. simpl in E. injection E as _ _ E. subst l.
      vm_compute in Hl. lia.
    + simpl in E. injection E as _ _ _ E.
      apply (containsFolded_after JS.dottedCapitalI), (IH _ _ E).
  - destruct pre' as [|p pre'].
    + destruct (lowers_prefix _ Hw _ _ suf' (lowers_char c r t0 H0) E)
        as (mid & suf & E' & Hm).
      exists "", mid, suf. split; assumption.
    + injection E as _ E.
      apply (containsFolded_after (String c "")), (IH _ _ E).
Qed.

(** One step of [toLowerCase] on a text of two bytes or more. *)
Lemma toLowerCase_unfold (c c1 : ascii) (r1 : string) :
  JS.toLowerCase (String c (String c1 r1)) =
  if ((c =? "226") && (c1 =? "132"))%char then
    match r1 with
    | String c2 r2 =>
        if (c2 =? "170")%char then String "k" (JS.toLowerCase r2)
        else String (JS.lowerAscii c) (JS.toLowerCase (String c1 r1))
    | "" => String (JS.lowerAscii c) (JS.toLowerCase (String c1 r1))
    end
  else if ((c =? "196") && (c1 =? "176"))%char then
    String "i" (String "204" (String "135" (JS.toLowerCase r1)))
  else String (JS.lowerAscii c) (JS.toLowerCase (String c1 r1)).
Proof. reflexivity. Qed.

Lemma toLowerCase_ascii (c : ascii) (r : string) :
  nat_of_ascii c < 128 ->
  JS.toLowerCase (String c r) = String (JS.lowerAscii c) (JS.toLowerCase r).
Proof.
  intros Hc. destruct r as [|c1 r1]; [reflexivity|].
  rewrite toLowerCase_unfold.
  assert ((c =? "226")%char = false) as ->
    by (apply Ascii.eqb_neq; intros ->; vm_compute in Hc; lia).
  assert ((c =? "196")%char = false) as ->
    by (apply Ascii.eqb_neq; intros ->; vm_compute in Hc; lia).
  reflexivity.
Qed.

Lemma toLowerCase_one (c : ascii) (x : string) :
  ~ continues x ->
  JS.toLowerCase (String c x) = String (JS.lowerAscii c) (JS.toLowerCase x).
Proof.
  intros Hx. destruct x as [|c1 r1]; [reflexivity|].
  rewrite toLowerCase_unfold. simpl in Hx.
  assert ((c1 =? "132")%char = false) as ->
    by (apply Ascii.eqb_neq; tauto).
  assert ((c1 =? "176")%char = false) as ->
    by (apply Ascii.eqb_neq; tauto).
  rewrite !andb_false_r. reflexivity.
Qed.

(** Lower-casing goes through a concatenation whose second part does not
    start in the middle of a code point. *)
Lemma toLowerCase_app_upto (n : nat) (x : string) :
  ~ continues x ->
  forall pre, String.length pre <= n ->
    JS.toLowerCase (pre ++ x) = JS.toLowerCase pre ++ JS.toLowerCase x.
Proof.
  intros Hx. induction n as [|n IH]; intros pre Hn.
  - destruct pre; [reflexivity | simpl in Hn; lia].
  - destruct pre as [|c [|c1 r1]]; [reflexivity | |].
    + cbn [append]. apply toLowerCase_one. assumption.
    + assert (JS.toLowerCase (String c1 (r1 ++ x))
              = JS.toLowerCase (String c1 r1) ++ JS.toLowerCase x) as Tail
        by (apply (IH (String c1 r1)); simpl in *; lia).
      cbn [append].
      rewrite (toLowerCase_unfold c c1 (r1 ++ x)), (toLowerCase_unfold c c1 r1).
      destruct ((c =? "226") && (c1 =? "132"))%char.
      * destruct r1 as [|c2 r2]; cbn [append] in *.
        -- destruct x as [|c2 r2]; [rewrite Tail; reflexivity|].
           assert ((c2 =? "170")%char = false) as ->
             by (apply Ascii.eqb_neq; simpl in Hx; tauto).
           rewrite Tail. reflexivity.
        -- destruct (c2 =? "170")%char.
           ++ cbn [append]. f_equal. apply IH. simpl in *. lia.
           ++ rewrite Tail. reflexivity.
      * destruct ((c =? "196") && (c1 =? "176"))%char.
        -- cbn [append]. do 3 f_equal. apply IH. simpl in *. lia.
        -- rewrite Tail. reflexivity.
Qed.

Lemma toLowerCase_app (pre x : string) :
  ~ continues x ->
  JS.toLowerCase (pre ++ x) = JS.toLowerCase pre ++ JS.toLowerCase x.
Proof.
  intros Hx. apply (toLowerCase_app_upto (String.length pre) x Hx). lia.
Qed.

Lemma foldsTo_ascii (c l : ascii) :
  foldsTo c l -> nat_of_ascii l < 128 -> nat_of_ascii c < 128.
Proof. intros [-> | [H _]] Hl; lia. Qed.

(** Lower-casing a spelling of a search word gives the word. *)
Lemma toLowerCase_spelt (mid w suf : string) :
  spellsFolded mid w -> lowerWord w ->
  JS.toLowerCase (mid ++ suf) = w ++ JS.toLowerCase suf.
Proof.
  induction 1 as [|c l mid w Hc Hm IH|mid w Hm IH]; intros Hw.
  - reflexivity.
  - destruct Hw as (Hl & Hup & _ & Hw). simpl append.
    rewrite toLowerCase_ascii by (eapply foldsTo_ascii; eassumption).
    rewrite (IH Hw). f_equal. apply lowerAscii_foldsTo; assumption.
  - apply lowerWord_tail in Hw. simpl. f_equal. exact (IH Hw).
Qed.

Lemma spelt_starts (mid w suf : string) :
  spellsFolded mid w -> lowerWord w -> w <> "" -> ~ continues (mid ++ suf).
Proof.
  destruct 1 as [|c l mid w Hc Hm|mid w Hm]; intros Hw Hne; [congruence| |].
  - destruct Hw as (Hl & _). simpl.
    pose proof (foldsTo_ascii _ _ Hc Hl) as Hc'.
    intros [-> | [-> | ->]]; vm_compute in Hc'; lia.
  - simpl. intros [E | [E | E]]; discriminate E.
Qed.

(** The search of the lower-cased text for a search word finds exactly the
    spellings of the word. *)
Lemma includes_folded_iff (s w : string) :
  lowerWord w ->
  (JS.includes (JS.toLowerCase s) w = true <-> containsFolded s w).
Proof.
  intros Hw. rewrite includes_iff. split.
  - intros (pre & suf & E).
    exact (lowers_contains w Hw s _ (toLowerCase_lowers s) pre suf E).
  - intros (pre & mid & suf & -> & Hm).
    destruct w as [|l w].
    { exists "", (JS.toLowerCase (pre ++ mid ++ suf)). reflexivity. }
    exists (JS.toLowerCase pre), (JS.toLowerCase suf).
    rewrite toLowerCase_app
      by (apply (spelt_starts mid (String l w)); [assumption..|discriminate]).
    rewrite (toLowerCase_spelt _ _ _ Hm Hw). reflexivity.
Qed.

Lemma spellsFolded_withoutK (mid w : string) :
  withoutK w -> (spellsFolded mid w <-> spells mid w).
Proof.
  intros Hk. split.
  - induction 1 as [|c l mid w Hc Hm IH|mid w Hm IH].
    + constructor.
    + constructor; [assumption | apply IH; simpl in Hk; tauto].
    + simpl in Hk. destruct Hk as [Hk _]. congruence.
  - clear Hk. induction 1; constructor; assumption.
Qed.

(** For a search word without ['k'], the search finds exactly the spellings
    up to the case of the ASCII letters. *)
Lemma includes_lower_iff (s w : string) :
  lowerWord w /\ withoutK w ->
  (JS.includes (JS.toLowerCase s) w = true <-> containsCI s w).
Proof.
  intros [Hw Hk]. rewrite (includes_folded_iff s w Hw).
  unfold containsFolded, containsCI.
  split; intros (pre & mid & suf & E & H); exists pre, mid, suf;
    (split; [assumption | apply (spellsFolded_withoutK mid w Hk); assumption]).
Qed.

End Strings.

(** ** Cost and operational status *)

(** Discharges [lowerWord w], and [withoutK w], on a literal [w]. *)
Ltac not_upper :=
  simpl; repeat split;
  first [ discriminate
        | intros; discriminate
        | apply Nat.ltb_lt; reflexivity
        | right; apply Nat.ltb_lt; reflexivity ].

Section CostAndStatus.

Local Open Scope string_scope.

Lemma isPayAtLocation_flag (charger : OCM.Charger.t) :
  isPayAtLocationOf charger = true <-> payAtLocationFlag charger = Some true.
Proof.
  unfold isPayAtLocationOf, payAtLocationFlag.
  destruct (OCM.Charger.UsageType charger) as [u|]; [|split; discriminate].
  destruct (OCM.UsageType.IsPayAtLocation u) as [[|]|]; simpl;
    split; congruence.
Qed.

(** Claim C1.  [isFree] is [true] exactly when the upstream cost text is
    a non-empty string that contains "free" up to case and the
    pay-at-location flag is not [true]; a [null] or empty cost text gives
    [isFree = false]; the cost label is the cost text when non-empty, else
    "Free" when [isFree], else "Pay At Location" when the flag is [true],
    else "Paid".  The four examples of the specification, the regression
    case among them, evaluate as stated. *)
Theorem free_and_cost_label :
  (forall charger : OCM.Charger.t,
     let c := parseChargerData charger in
     (Charger.isFree c = true <->
        (exists text, OCM.Charger.UsageCost charger = Some text
                      /\ text <> ""
                      /\ containsCI text "free")
        /\ payAtLocationFlag charger <> Some true)
     /\ (OCM.Charger.UsageCost charger = None
         \/ OCM.Charger.UsageCost charger = Some "" ->
         Charger.isFree c = false)
     /\ Charger.cost c =
          match OCM.Charger.UsageCost charger with
          | Some (String a r) => String a r
          | _ =>
              if Charger.isFree c then "Free"
              else match payAtLocationFlag charger with
                   | Some true => "Pay At Location"
                   | _ => "Paid"
                   end
          end)
  /\ freeAndCost (chargerWithCost (Some "Free charging") (Some false))
     = (true, "Free charging")
  /\ freeAndCost (chargerWithCost None (Some true)) = (false, "Pay At Location")
  /\ freeAndCost (chargerWithCost (Some "$0.35/kWh") (Some false))
     = (false, "$0.35/kWh")
  /\ freeAndCost (chargerWithCost (Some "") (Some true))
     = (false, "Pay At Location").
Proof.
  split; [|repeat split; reflexivity].
  intros charger. cbv zeta.
  change (Charger.isFree (parseChargerData charger))
    with (deriveIsFree (usageCostOf charger) (isPayAtLocationOf charger)).
  change (Charger.cost (parseChargerData charger))
    with (deriveCost (usageCostOf charger)
            (deriveIsFree (usageCostOf charger) (isPayAtLocationOf charger))
            (isPayAtLocationOf charger)).
  pose proof (isPayAtLocation_flag charger) as Hpay.
  unfold usageCostOf, deriveCost, deriveIsFree.
  destruct (OCM.Charger.UsageCost charger) as [[|a r]|]; simpl.
  - split; [|split]; [split; [discriminate|] | reflexivity |].
    + intros [(text & E & N & _) _]. congruence.
    + destruct (isPayAtLocationOf charger), (payAtLocationFlag charger) as [[|]|];
        try reflexivity; exfalso; destruct Hpay as [H1 H2];
        try (discriminate (H1 eq_refl)); try (discriminate (H2 eq_refl)).
  - split; [|split]; [| intros [H|H]; discriminate H | reflexivity].
    rewrite andb_true_iff, negb_true_iff.
    rewrite (includes_lower_iff (String a r) "free") by not_upper.
    split.
    + intros [Hc Hp]. split.
      * exists (String a r). repeat split; [discriminate | assumption].
      * intros F. apply Hpay in F. congruence.
    + intros [(text & E & _ & Hc) Hp]. injection E as <-. split; [assumption|].
      destruct (isPayAtLocationOf charger); [|reflexivity].
      exfalso. apply Hp, Hpay. reflexivity.
  - split; [|split]; [split; [discriminate|] | reflexivity |].
    + intros [(text & E & N & _) _]. congruence.
    + destruct (isPayAtLocationOf charger), (payAtLocationFlag charger) as [[|]|];
        try reflexivity; exfalso; destruct Hpay as [H1 H2];
        try (discriminate (H1 eq_refl)); try (discriminate (H2 eq_refl)).
Qed.

Lemma isNonOperationalStatus_iff (title : string) :
  isNonOperationalStatus (JS.toLowerCase title) = true <->
  titleSaysNonOperational title.
Proof.
  unfold isNonOperationalStatus, titleSaysNonOperational.
  rewrite !orb_true_iff.
  rewrite (includes_lower_iff title "unavailable") by not_upper.
  rewrite (includes_lower_iff title "planned") by not_upper.
  rewrite (includes_lower_iff title "removed") by not_upper.
  rewrite (includes_lower_iff title "decommissioned") by not_upper.
  tauto.
Qed.

Lemma connectionOperational_iff (charger : OCM.Charger.t) :
  connectionOperational (connectionsOf charger) = true <->
  someConnectorOperational charger.
Proof.
  unfold connectionOperational, someConnectorOperational.
  rewrite existsb_exists. split.
  - intros (conn & Hin & H).
    destruct (OCM.Connection.StatusType conn) as [st|] eqn:E; [|discriminate].
    exists conn, st. repeat split; try assumption.
    destruct (OCM.StatusType.IsOperational st) as [[|]|]; try discriminate; reflexivity.
  - intros (conn & st & Hin & E & H). exists conn. split; [assumption|].
    rewrite E, H. reflexivity.
Qed.

(** Claim C2.  The operational status follows the priority chain: [false]
    when the status title contains "unavailable", "planned", "removed" or
    "decommissioned" up to case, or the upstream flag is [false]; else
    [true] when the flag is [true]; else [true] when some connector reports
    itself operational; else [null], which differs from [false]. *)
Theorem operational_status_chain :
  (forall charger : OCM.Charger.t,
     let status := operationalStatus charger in
     let title := statusTitleText charger in
     let flag := statusFlagOf charger in
     (titleSaysNonOperational title \/ flag = Some false -> status = Some false)
     /\ (~ titleSaysNonOperational title -> flag = Some true ->
         status = Some true)
     /\ (~ titleSaysNonOperational title -> flag = None ->
         someConnectorOperational charger -> status = Some true)
     /\ (~ titleSaysNonOperational title -> flag = None ->
         ~ someConnectorOperational charger -> status = None))
  /\ (None : option bool) <> Some false
  /\ operationalStatus (chargerWithStatus (Some "Unavailable") None) = Some false
  /\ operationalStatus (chargerWithStatus None (Some true)) = Some true
  /\ operationalStatus (chargerWithStatus None None) = None.
Proof.
  split; [|repeat split; try reflexivity; discriminate].
  intros charger. cbv zeta.
  change (operationalStatus charger)
    with (deriveIsOperational charger (connectionsOf charger)).
  unfold deriveIsOperational, statusTitleText.
  pose proof (isNonOperationalStatus_iff (JS.orStr (statusTitleOf charger) "")) as Ht.
  pose proof (connectionOperational_iff charger) as Hc.
  destruct (isNonOperationalStatus _) eqn:Et;
    destruct (connectionOperational _) eqn:Ec;
    destruct (statusFlagOf charger) as [[|]|]; simpl;
    repeat split; intros; try reflexivity; try discriminate;
    try tauto; exfalso;
    try (match goal with H : _ \/ _ |- _ => destruct H as [H|H]; [|discriminate H] end);
    try (destruct Ht as [Ht1 Ht2]; try discriminate (Ht2 ltac:(assumption)));
    try (destruct Hc as [Hc1 Hc2]; try discriminate (Hc2 ltac:(assumption)));
    auto.
Qed.

End CostAndStatus.


(** ** Products of magnitudes up to one *)

Section SmallProducts.

Local Open Scope Z_scope.

Lemma Zdigits2_le (m k : Z) : 0 <= m < 2 ^ k -> 0 <= k -> Zdigits2 m <= k.
Proof.
  intros [H0 Hm] Hk. destruct m as [|p|p]; simpl; try lia.
  pose proof (digits2_bounds p) as [B _].
  destruct (Z.le_gt_cases (Zpos (digits2_pos p)) k) as [L | G]; [assumption|].
  assert (2 ^ k <= 2 ^ (Zpos (digits2_pos p) - 1))
    by (apply Z.pow_le_mono_r; lia).
  lia.
Qed.

Lemma round_nearest_even_le (m : Z) (l : location) :
  0 <= m -> 0 <= round_nearest_even m l <= m + 1.
Proof.
  intros Hm. destruct l as [|[ | | ]]; simpl; try lia.
  destruct (Z.even m); lia.
Qed.

(** The exponent and the mantissa after the shift to the canonical
    exponent. *)
Lemma shr_fexp_bounds (m e : Z) (l : location) :
  0 <= m ->
  snd (shr_fexp prec emax m e l) <= Z.max e (Z.max (Zdigits2 m + e - prec) emin)
  /\ 0 <= shr_m (fst (shr_fexp prec emax m e l)) <= m.
Proof.
  intros Hm. unfold shr_fexp, shr, fexp.
  destruct (Z.max (Zdigits2 m + e - prec) emin - e) as [|n|n] eqn:En; simpl.
  - rewrite shr_record_of_loc_m. lia.
  - rewrite iter_shr_1_m by (rewrite shr_record_of_loc_m; lia).
    rewrite shr_record_of_loc_m. split; [lia|].
    assert (0 < 2 ^ Zpos n) by (apply Z.pow_pos_nonneg; lia).
    split; [apply Z.div_pos; lia|].
    apply Z.div_le_upper_bound; [lia | nia].
  - rewrite shr_record_of_loc_m. lia.
Qed.

(** Rounding a mantissa below [2^106] at an exponent of at most [-104]
    does not overflow. *)
Lemma binary_round_aux_small (s : bool) (m : positive) (e : Z) :
  Zpos m < 2 ^ 106 -> e <= -104 ->
  SFfinite (binary_round_aux prec emax s (Zpos m) e loc_Exact).
Proof.
  intros Hm He. unfold binary_round_aux.
  destruct (shr_fexp_bounds (Zpos m) e loc_Exact ltac:(lia)) as [E1 M1].
  pose proof (Zdigits2_le (Zpos m) 106 ltac:(lia) ltac:(lia)) as D1.
  destruct (shr_fexp prec emax (Zpos m) e loc_Exact) as [mrs' e'].
  cbn [fst snd] in E1, M1.
  pose proof (round_nearest_even_le (shr_m mrs') (loc_of_shr_record mrs')
                ltac:(lia)) as R.
  set (m1 := round_nearest_even (shr_m mrs') (loc_of_shr_record mrs')) in *.
  destruct (shr_fexp_bounds m1 e' loc_Exact ltac:(lia)) as [E2 M2].
  assert (2 ^ 107 = 2 * 2 ^ 106) as P by reflexivity.
  pose proof (Zdigits2_le m1 107 ltac:(lia) ltac:(lia)) as D2.
  destruct (shr_fexp prec emax m1 e' loc_Exact) as [mrs'' e''].
  cbn [fst snd] in E2, M2.
  destruct (shr_m mrs'') as [|m2|m2]; [exact I| |lia].
  destruct (e'' <=? emax - prec) eqn:L; [exact I|].
  apply Z.leb_gt in L. unfold prec, emin, emax in *. lia.
Qed.

Lemma SFmul_small (X Y : spec_float) :
  SFsmall X -> SFsmall Y -> SFfinite (SFmul prec emax X Y).
Proof.
  destruct X as [sx|sx| |sx mx ex], Y as [sy|sy| |sy my ey]; simpl;
    try tauto.
  intros [Ex Mx] [Ey My]. apply binary_round_aux_small; [|lia].
  rewrite Pos2Z.inj_mul.
  assert (2 ^ 106 = 2 ^ 53 * 2 ^ 53) as -> by reflexivity. nia.
Qed.

Lemma SFmul_zero_r (X : spec_float) (s : bool) :
  SFfinite X -> exists s', SFmul prec emax X (S754_zero s) = S754_zero s'.
Proof. destruct X; simpl; try tauto; eauto. Qed.

Lemma SFadd_zeros (s : bool) :
  SFadd prec emax (S754_zero false) (S754_zero s) = S754_zero false.
Proof. destruct s; reflexivity. Qed.

Lemma SFsub_diag (X : spec_float) :
  SFfinite X -> SFsub prec emax X X = S754_zero false.
Proof.
  destruct X as [s|s| |s m e]; simpl; try tauto; intros _.
  - destruct s; reflexivity.
  - rewrite Z.sub_diag. reflexivity.
Qed.

End SmallProducts.

Section SelfDistance.

Local Open Scope float_scope.

Lemma is_finite_spec (x : float) :
  is_finite x = true -> SFfinite (Prim2SF x).
Proof.
  unfold is_finite, is_infinity. intros H.
  apply negb_true_iff, orb_false_iff in H. destruct H as [Hn Hi].
  apply not_nan_spec in Hn. unfold SFnotnan in Hn.
  rewrite eqb_spec, abs_spec in Hi.
  change (Prim2SF infinity) with (S754_infinity false) in Hi.
  destruct (Prim2SF x) as [s|s| |s m e]; simpl in *;
    try exact I; try congruence; discriminate Hi.
Qed.

Lemma abs_le_one_small (x : float) :
  (abs x <=? 1) = true -> SFsmall (Prim2SF x).
Proof.
  intros H. apply leb_iff in H. destruct H as (Hn & _ & H).
  apply not_nan_spec in Hn. unfold SFnotnan in Hn. unfold key in H.
  rewrite abs_spec in *.
  change (SFkey (Prim2SF 1)) with (1, (-52, 4503599627370496))%Z in H.
  pose proof (Prim2SF_valid x) as V.
  destruct (Prim2SF x) as [s|s| |s m e]; simpl in *;
    try exact I; try congruence.
  - exfalso. lex.
  - destruct (bounded_canonical m e V) as (_ & Hd & _).
    pose proof (digits2_bounds m) as [_ B].
    assert ((2 ^ Zpos (digits2_pos m) <= 2 ^ prec)%Z)
      by (apply Z.pow_le_mono_r; lia).
    split; [lex | unfold prec in *; lia].
Qed.

Lemma sub_diag (x : float) : is_finite x = true -> x - x = 0.
Proof.
  intros H. apply Prim2SF_inj. rewrite sub_spec.
  apply SFsub_diag, is_finite_spec, H.
Qed.

(** A finite product times zero, times zero again, does not change a sum
    that is [+0] so far. *)
Lemma zero_plus_vanishing (c1 c2 : float) :
  (abs c1 <=? 1) = true -> (abs c2 <=? 1) = true ->
  0 + c1 * c2 * 0 * 0 = 0.
Proof.
  intros H1 H2. apply Prim2SF_inj.
  rewrite add_spec, !mul_spec.
  pose proof (SFmul_small _ _ (abs_le_one_small c1 H1) (abs_le_one_small c2 H2))
    as F.
  change (Prim2SF 0) with (S754_zero false).
  unfold SF64mul, SF64add.
  destruct (SFmul_zero_r _ false F) as [s1 ->].
  destruct (SFmul_zero_r (S754_zero s1) false I) as [s2 ->].
  apply SFadd_zeros.
Qed.

Lemma is_finite_iff (x : float) :
  is_finite x = true <-> SFfinite (Prim2SF x).
Proof.
  split; [apply is_finite_spec|].
  intros H. unfold is_finite, is_infinity.
  apply negb_true_iff, orb_false_iff. split.
  - apply not_nan_spec. unfold SFnotnan.
    destruct (Prim2SF x); simpl in *; congruence || tauto.
  - rewrite eqb_spec, abs_spec.
    change (Prim2SF infinity) with (S754_infinity false).
    destruct (Prim2SF x) as [s|s| |s m e]; simpl in *; tauto || reflexivity.
Qed.

(** A value whose radians are finite is finite itself. *)
Lemma toRad_finite (degrees : float) :
  is_finite (toRad degrees) = true -> is_finite degrees = true.
Proof.
  intros H. apply is_finite_iff in H. apply is_finite_iff.
  unfold toRad in H. rewrite div_spec, mul_spec in H.
  destruct (Prim2SF degrees) as [s|s| |s m e]; simpl in *; tauto.
Qed.

(** Two positions with the same coordinates are at distance [+0]. *)
Lemma calculateDistance_same_point (Math : MathObject)
  (coord1 coord2 : LatLng) :
  Math_sin Math 0 = 0 ->
  boundedCosine Math ->
  Math_atan2 Math 0 1 = 0 ->
  ToNumber (lat coord2) = ToNumber (lat coord1) ->
  ToNumber (lng coord2) = ToNumber (lng coord1) ->
  is_finite (toRad (ToNumber (lat coord1))) = true ->
  is_finite (ToNumber (lng coord1)) = true ->
  calculateDistance Math coord1 coord2 = 0.
Proof.
  intros Hsin Hcos Hatan Elat Elng Hlat Hlng.
  unfold calculateDistance. rewrite Elat, Elng.
  rewrite (sub_diag _ (toRad_finite _ Hlat)), (sub_diag _ Hlng).
  change (toRad 0 / 2) with 0. rewrite Hsin.
  change (0 * 0) with 0.
  rewrite (zero_plus_vanishing _ _ (Hcos _ Hlat) (Hcos _ Hlat)).
  change (JS.Math_sqrt 0) with 0.
  change (JS.Math_sqrt (1 - 0)) with 1.
  rewrite Hatan. reflexivity.
Qed.

End SelfDistance.

(** ** Roundings that are exact, and quotients that stay finite *)

Section ExactRounding.

Local Open Scope Z_scope.

Lemma Zdigits2_unique (q d : Z) :
  0 < d -> 2 ^ (d - 1) <= q < 2 ^ d -> Zdigits2 q = d.
Proof.
  intros Hd [H1 H2].
  assert (0 < 2 ^ (d - 1)) by (apply Z.pow_pos_nonneg; lia).
  destruct q as [|p|p]; try lia. simpl.
  pose proof (digits2_bounds p) as [B1 B2].
  set (dq := Zpos (digits2_pos p)) in *.
  destruct (Z.lt_trichotomy dq d) as [L|[E|G]]; [|assumption|].
  - assert (2 ^ dq <= 2 ^ (d - 1)) by (apply Z.pow_le_mono_r; lia). lia.
  - assert (2 ^ d <= 2 ^ (dq - 1)) by (apply Z.pow_le_mono_r; lia). lia.
Qed.

Lemma Zdigits2_shift (m : positive) (k : Z) :
  0 <= k -> Zdigits2 (Zpos m * 2 ^ k) = Zpos (digits2_pos m) + k.
Proof.
  intros Hk. pose proof (digits2_bounds m) as [B1 B2].
  set (d := Zpos (digits2_pos m)) in *.
  assert (0 < d) by (unfold d; lia).
  assert (0 < 2 ^ k) by (apply Z.pow_pos_nonneg; lia).
  apply Zdigits2_unique; [lia|].
  replace (d + k - 1) with (d - 1 + k) by lia.
  rewrite !Z.pow_add_r by lia. nia.
Qed.

Lemma shr_fexp_canonical (m : positive) (e : Z) (l : location) :
  fexp prec emax (Zpos (digits2_pos m) + e) = e ->
  shr_fexp prec emax (Zpos m) e l = (shr_record_of_loc (Zpos m) l, e).
Proof.
  intros H. unfold shr_fexp, shr. simpl Zdigits2. rewrite H, Z.sub_diag.
  reflexivity.
Qed.

(** A canonical mantissa is left as it is. *)
Lemma binary_round_aux_canonical (s : bool) (m : positive) (e : Z) :
  bounded prec emax m e = true ->
  binary_round_aux prec emax s (Zpos m) e loc_Exact = S754_finite s m e.
Proof.
  intros B. unfold bounded, canonical_mantissa in B.
  apply andb_true_iff in B. destruct B as [C L].
  apply Z.eqb_eq in C.
  unfold binary_round_aux. rewrite (shr_fexp_canonical m e _ C).
  cbn [shr_record_of_loc loc_of_shr_record shr_m shr_r shr_s
       round_nearest_even].
  rewrite (shr_fexp_canonical m e _ C).
  cbn [shr_record_of_loc shr_m]. rewrite L. reflexivity.
Qed.

(** A mantissa of at most 53 bits is rounded to a Number of the same
    value. *)
Lemma binary_round_exact (s : bool) (m : positive) (e : Z) :
  Zpos (digits2_pos m) <= prec -> emin <= e <= emax - prec ->
  exists m' e',
    binary_round prec emax s m e = S754_finite s m' e'
    /\ bounded prec emax m' e' = true
    /\ emin <= e' <= e
    /\ Zpos m' = Zpos m * 2 ^ (e - e').
Proof.
  intros Hd He. unfold binary_round.
  set (f := fexp prec emax (Zpos (digits2_pos m) + e)).
  assert (emin <= f <= e) as Hf by (unfold f, fexp; lia).
  destruct (shl_align_spec m e f ltac:(lia)) as [Hm Hz].
  destruct (shl_align m e f) as [mz ez]. cbn [fst snd] in Hm, Hz. subst ez.
  assert (bounded prec emax mz f = true) as B.
  { unfold bounded, canonical_mantissa. apply andb_true_iff. split.
    - apply Z.eqb_eq.
      change (Zpos (digits2_pos mz)) with (Zdigits2 (Zpos mz)).
      rewrite Hm, Zdigits2_shift by lia.
      replace (Zpos (digits2_pos m) + (e - f) + f)
        with (Zpos (digits2_pos m) + e) by lia.
      reflexivity.
    - apply Z.leb_le. lia. }
  exists mz, f. split; [apply binary_round_aux_canonical; assumption|].
  split; [assumption|]. split; [lia | assumption].
Qed.

(** The mantissa left by the shift to the canonical exponent has at most 53
    bits. *)
Lemma shr_fexp_digits (m e : Z) (l : location) :
  0 <= m ->
  Zdigits2 (shr_m (fst (shr_fexp prec emax m e l))) <= prec.
Proof.
  intros Hm. unfold shr_fexp, shr, fexp.
  assert (0 <= Zdigits2 m /\ m < 2 ^ Zdigits2 m) as [D0 D].
  { destruct m as [|p|p]; simpl; [split; [lia | reflexivity] | | lia].
    pose proof (digits2_bounds p). lia. }
  set (d := Zdigits2 m) in *.
  destruct (Z.max (d + e - prec) emin - e) as [|n|n] eqn:En; cbn [fst].
  - rewrite shr_record_of_loc_m. fold d. lia.
  - rewrite iter_shr_1_m by (rewrite shr_record_of_loc_m; lia).
    rewrite shr_record_of_loc_m.
    assert (0 < 2 ^ Zpos n) by (apply Z.pow_pos_nonneg; lia).
    destruct (Z.le_gt_cases d (Zpos n)) as [L|G].
    + assert (2 ^ d <= 2 ^ Zpos n) by (apply Z.pow_le_mono_r; lia).
      rewrite Z.div_small by lia. unfold prec. simpl. lia.
    + apply Z.le_trans with (d - Zpos n); [|lia].
      apply Zdigits2_le; [|lia].
      split; [apply Z.div_pos; lia|].
      apply Z.div_lt_upper_bound; [lia|].
      rewrite <- Z.pow_add_r by lia.
      replace (Zpos n + (d - Zpos n)) with d by lia. assumption.
  - rewrite shr_record_of_loc_m. fold d. lia.
Qed.

(** Rounding does not overflow when the exponent it starts from, and the
    exponent of the leading bit, are small enough. *)
Lemma binary_round_aux_finite (s : bool) (m e : Z) (l : location) :
  0 <= m ->
  e <= emax - prec - 1 ->
  Zdigits2 m + e <= emax - 1 ->
  SFfinite (binary_round_aux prec emax s m e l).
Proof.
  intros Hm He Hd. unfold binary_round_aux.
  destruct (shr_fexp_bounds m e l Hm) as [E1 M1].
  pose proof (shr_fexp_digits m e l Hm) as D1.
  destruct (shr_fexp prec emax m e l) as [mrs' e'].
  cbn [fst snd] in E1, M1, D1.
  pose proof (round_nearest_even_le (shr_m mrs') (loc_of_shr_record mrs')
                ltac:(lia)) as R.
  set (m1 := round_nearest_even (shr_m mrs') (loc_of_shr_record mrs')) in *.
  assert (shr_m mrs' < 2 ^ prec) as Hlt.
  { destruct (shr_m mrs') as [|p|p]; [reflexivity| |lia].
    pose proof (digits2_bounds p) as [_ B]. simpl in D1.
    apply Z.lt_le_trans with (2 ^ Zpos (digits2_pos p)); [assumption|].
    apply Z.pow_le_mono_r; lia. }
  assert (2 ^ (prec + 1) = 2 * 2 ^ prec) as P by reflexivity.
  pose proof (Zdigits2_le m1 (prec + 1) ltac:(lia) ltac:(unfold prec; lia))
    as D2.
  destruct (shr_fexp_bounds m1 e' loc_Exact ltac:(lia)) as [E2 M2].
  destruct (shr_fexp prec emax m1 e' loc_Exact) as [mrs'' e''].
  cbn [fst snd] in E2, M2.
  destruct (shr_m mrs'') as [|m2|m2]; [exact I| |lia].
  destruct (e'' <=? emax - prec) eqn:L; [exact I|].
  apply Z.leb_gt in L. unfold prec, emin, emax in *. lia.
Qed.

(** The quotient of a finite Number by a finite Number of magnitude 4 or
    more is finite. *)
Lemma SFdiv_finite (sx sy : bool) (mx my : positive) (ex ey : Z) :
  bounded prec emax mx ex = true ->
  3 <= Zpos (digits2_pos my) + ey ->
  SFfinite (SFdiv prec emax (S754_finite sx mx ex) (S754_finite sy my ey)).
Proof.
  intros Bx Hy. unfold SFdiv, SFdiv_core_binary. simpl Zdigits2.
  destruct (bounded_canonical mx ex Bx) as (Hex & Hdx & _).
  assert (ex <= emax - prec) as Hex'.
  { unfold bounded in Bx. apply andb_true_iff in Bx. destruct Bx as [_ L].
    apply Z.leb_le in L. assumption. }
  pose proof (digits2_bounds mx) as [_ Bmx].
  pose proof (digits2_bounds my) as [Bmy _].
  set (d1 := Zpos (digits2_pos mx)) in *.
  set (d2 := Zpos (digits2_pos my)) in *.
  set (e' := Z.min (fexp prec emax (d1 + ex - (d2 + ey))) (ex - ey)).
  assert (0 <= ex - ey - e') as Hs by (unfold e'; lia).
  set (sh := ex - ey - e') in *.
  set (m' := match sh with
             | 0 => Zpos mx
             | Zpos _ => Z.shiftl (Zpos mx) sh
             | Zneg _ => 0
             end).
  assert (m' = Zpos mx * 2 ^ sh) as Em'.
  { unfold m'. destruct sh as [|p|p] eqn:Es; [lia| |lia].
    rewrite Z.shiftl_mul_pow2 by lia. reflexivity. }
  assert (0 < 2 ^ sh) by (apply Z.pow_pos_nonneg; lia).
  assert (0 < 2 ^ (d2 - 1)) by (apply Z.pow_pos_nonneg; unfold d2; lia).
  destruct (Z.div_eucl m' (Zpos my)) as [q r] eqn:Eq.
  assert (q = m' / Zpos my) as Hq by (unfold Z.div; rewrite Eq; reflexivity).
  assert (0 <= q) as Hq0 by (rewrite Hq; apply Z.div_pos; lia).
  assert (q < 2 ^ (d1 + sh - d2 + 1) \/ q = 0) as Hqb.
  { destruct (Z.le_gt_cases 0 (d1 + sh - d2 + 1)) as [L|G].
    - left. rewrite Hq. apply Z.div_lt_upper_bound; [lia|].
      apply Z.lt_le_trans with (2 ^ (d1 + sh)).
      + rewrite Z.pow_add_r by (unfold d1; lia). nia.
      + apply Z.le_trans with (2 ^ (d2 - 1) * 2 ^ (d1 + sh - d2 + 1)).
        * rewrite <- Z.pow_add_r by (unfold d2; lia).
          apply Z.pow_le_mono_r; lia.
        * apply Z.mul_le_mono_nonneg_r; [apply Z.pow_nonneg; lia | lia].
    - right. rewrite Hq. apply Z.div_small. split; [lia|].
      apply Z.lt_le_trans with (2 ^ (d1 + sh)).
      + rewrite Z.pow_add_r by (unfold d1; lia). nia.
      + apply Z.le_trans with (2 ^ (d2 - 1)); [|lia].
        apply Z.pow_le_mono_r; lia. }
  apply binary_round_aux_finite; [assumption | |].
  - unfold e', fexp, prec, emax, emin in *. lia.
  - destruct Hqb as [Hqb | ->].
    + destruct (Z.le_gt_cases 0 (d1 + sh - d2 + 1)) as [L|G].
      * pose proof (Zdigits2_le q _ (conj Hq0 Hqb) L).
        unfold sh, prec, emax, emin in *. lia.
      * assert (2 ^ (d1 + sh - d2 + 1) = 0)
          by (apply Z.pow_neg_r; lia). lia.
    + simpl. unfold e', fexp, prec, emax, emin in *. lia.
Qed.

Lemma round_nearest_even_ge (m : Z) (l : location) :
  m <= round_nearest_even m l.
Proof.
  destruct l as [|[ | | ]]; simpl; try lia. destruct (Z.even m); lia.
Qed.

(** The shift to the canonical exponent keeps a mantissa of 53 bits or more
    at 53 bits or more, and does shift when there are more. *)
Lemma shr_fexp_normal (m e : Z) (l : location) :
  2 ^ 52 <= m -> emin <= e ->
  2 ^ 52 <= shr_m (fst (shr_fexp prec emax m e l))
  /\ e <= snd (shr_fexp prec emax m e l)
  /\ (2 ^ 53 <= m -> e + 1 <= snd (shr_fexp prec emax m e l)).
Proof.
  intros Hm He.
  assert (0 < 2 ^ 52) by reflexivity.
  destruct m as [|p|p]; try lia.
  pose proof (digits2_bounds p) as [B1 B2].
  unfold shr_fexp, shr, fexp. simpl Zdigits2.
  set (d := Zpos (digits2_pos p)) in *.
  assert (53 <= d) as Hd.
  { destruct (Z.le_gt_cases 53 d) as [L|G]; [assumption|].
    assert (2 ^ d <= 2 ^ 52) by (apply Z.pow_le_mono_r; lia). lia. }
  assert (2 ^ 53 <= Zpos p -> 54 <= d) as Hd'.
  { intros H53. destruct (Z.le_gt_cases 54 d) as [L|G]; [assumption|].
    assert (2 ^ d <= 2 ^ 53) by (apply Z.pow_le_mono_r; lia). lia. }
  destruct (Z.max (d + e - prec) emin - e) as [|n|n] eqn:En;
    cbn [fst snd]; unfold emin, emax, prec in En, He.
  - rewrite shr_record_of_loc_m. split; [assumption|]. split; lia.
  - rewrite iter_shr_1_m by (rewrite shr_record_of_loc_m; lia).
    rewrite shr_record_of_loc_m.
    assert (Zpos n = d - 53) as Hn by lia.
    assert (0 < 2 ^ Zpos n) by (apply Z.pow_pos_nonneg; lia).
    split; [|split; lia].
    apply Z.div_le_lower_bound; [assumption|].
    rewrite <- Z.pow_add_r by lia.
    replace (Zpos n + 52) with (d - 1) by lia. assumption.
  - lia.
Qed.

(** The quotient by 60 of a Number that is at least 60 has a mantissa of 53
    bits at an exponent of at least [-52]: it is at least 1. *)
Lemma SFdiv_sixty_lower (m : positive) (e : Z) :
  bounded prec emax m e = true ->
  -47 <= e ->
  8444249301319680 <= Zpos m * 2 ^ (e + 47) ->
  exists p e2,
    SFdiv prec emax (S754_finite false m e)
      (S754_finite false 8444249301319680 (-47))
    = S754_finite false p e2
    /\ 2 ^ 52 <= Zpos p /\ -52 <= e2.
Proof.
  intros Bx He Hm.
  pose proof (SFdiv_finite false false m 8444249301319680 e (-47) Bx
                ltac:(simpl; lia)) as F.
  revert F. unfold SFdiv, SFdiv_core_binary. simpl Zdigits2.
  destruct (bounded_canonical m e Bx) as (_ & _ & Hn).
  pose proof (digits2_bounds m) as [B1 B2].
  rewrite (Hn ltac:(unfold emin, emax, prec; lia)) in *.
  change (Zpos (digits2_pos 8444249301319680)) with 53.
  assert (Z.min (fexp prec emax (prec + e - (53 + -47))) (e - -47) = e - 6)
    as -> by (unfold fexp, prec, emin, emax; lia).
  replace (e - -47 - (e - 6)) with 53 by lia.
  rewrite Z.shiftl_mul_pow2 by lia.
  change (2 ^ (prec - 1)) with 4503599627370496 in B1.
  change (2 ^ prec) with 9007199254740992 in B2.
  change (2 ^ 53) with 9007199254740992.
  destruct (Z.div_eucl (Zpos m * 9007199254740992) 8444249301319680)
    as [q r] eqn:Eq.
  assert (q = Zpos m * 9007199254740992 / 8444249301319680) as Hq
    by (unfold Z.div; rewrite Eq; reflexivity).
  assert (2 ^ 52 <= q) as Hq52
    by (rewrite Hq; apply Z.div_le_lower_bound;
        [reflexivity | change (2 ^ 52) with 4503599627370496; lia]).
  assert (e = -47 -> 2 ^ 53 <= q) as Hq53.
  { intros ->. simpl in Hm. rewrite Hq. apply Z.div_le_lower_bound;
      [reflexivity | change (2 ^ 53) with 9007199254740992; lia]. }
  unfold binary_round_aux.
  match goal with
  | |- context [shr_fexp prec emax q (e - 6) ?l] => set (lz := l)
  end.
  destruct (shr_fexp_normal q (e - 6) lz Hq52
              ltac:(unfold emin, emax, prec; lia)) as (M1 & E1 & E1').
  destruct (shr_fexp prec emax q (e - 6) lz) as [mrs' e'].
  cbn [fst snd] in M1, E1, E1'.
  pose proof (round_nearest_even_ge (shr_m mrs') (loc_of_shr_record mrs'))
    as R.
  set (m1 := round_nearest_even (shr_m mrs') (loc_of_shr_record mrs')) in *.
  destruct (shr_fexp_normal m1 e' loc_Exact ltac:(lia)
              ltac:(unfold emin, emax, prec in *; lia)) as (M2 & E2 & _).
  destruct (shr_fexp prec emax m1 e' loc_Exact) as [mrs'' e''].
  cbn [fst snd] in M2, E2.
  assert (0 < 2 ^ 52) by reflexivity.
  destruct (shr_m mrs'') as [|p|p]; try lia.
  destruct (e'' <=? emax - prec); [intros _ | intros []].
  exists p, e''. split; [reflexivity|]. split; [assumption|].
  destruct (Z.eq_dec e (-47)) as [E|E]; [specialize (E1' (Hq53 E))|]; lia.
Qed.

End ExactRounding.

(** The radians of a latitude between -90 and 90 degrees are finite. *)
Lemma toRad_latitude_finite (degrees : float) :
  (abs degrees <=? 90)%float = true -> is_finite (toRad degrees) = true.
Proof.
  intros H. apply leb_iff in H. destruct H as (Hn & _ & H).
  apply not_nan_spec in Hn. unfold SFnotnan in Hn. unfold key in H.
  rewrite abs_spec in *.
  change (SFkey (Prim2SF 90)) with (1, (-46, 6333186975989760))%Z in H.
  apply is_finite_iff. unfold toRad. rewrite div_spec.
  pose proof (Prim2SF_valid (degrees * JS.Math_PI)) as V.
  assert (SFfinite (Prim2SF (degrees * JS.Math_PI))) as F.
  { rewrite mul_spec. pose proof (Prim2SF_valid degrees) as Vd.
    change (Prim2SF JS.Math_PI)
      with (S754_finite false 7074237752028440 (-51)).
    destruct (Prim2SF degrees) as [s|s| |s m e]; simpl in Hn, H |- *;
      try exact I; try congruence.
    - exfalso. lex.
    - destruct (bounded_canonical m e Vd) as (_ & Hd & _).
      pose proof (digits2_bounds m) as [_ B].
      assert (2 ^ Zpos (digits2_pos m) <= 2 ^ prec)%Z
        by (apply Z.pow_le_mono_r; lia).
      assert (e <= -46)%Z by lex.
      apply binary_round_aux_finite; [lia | unfold emax, prec; lia |].
      assert (Zpos (m * 7074237752028440) < 2 ^ 106)%Z.
      { rewrite Pos2Z.inj_mul.
        change (2 ^ 106)%Z with (2 ^ 53 * 2 ^ 53)%Z.
        change (2 ^ prec)%Z with (2 ^ 53)%Z in *.
        assert (7074237752028440 < 2 ^ 53)%Z by reflexivity. nia. }
      pose proof (Zdigits2_le (Zpos (m * 7074237752028440)) 106
                    ltac:(lia) ltac:(lia)).
      unfold emax, prec. lia. }
  change (Prim2SF 180) with (S754_finite false 6333186975989760 (-45)).
  unfold SF64div.
  destruct (Prim2SF (degrees * JS.Math_PI)) as [s|s| |s m e];
    try contradiction; [exact I|].
  apply SFdiv_finite; [exact V | simpl; lia].
Qed.
(** ** Walking time *)

Section WalkingTime.

Local Open Scope string_scope.

Lemma Math_round_nearest (x : float) (v : Q) :
  exactValue x = Some v ->
  exists n, JS.Math_round x = JS.IntFinite n
            /\ (inject_Z n - (1 # 2) <= v)%Q /\ (v < inject_Z n + (1 # 2))%Q.
Proof.
  unfold exactValue, JS.Math_round.
  destruct (Prim2SF x) as [s|s| |s m e]; try discriminate.
  - intros [= <-]. exists 0%Z. split; [reflexivity|]. unfold Qle, Qlt; simpl; lia.
  - intros [= <-]. eexists. split; [reflexivity|].
    destruct (Z.leb_spec 0 e) as [He|He].
    + unfold Qle, Qlt. simpl. lia.
    + set (M := JS.signed s m).
      assert (0 < 2 ^ (- e))%Z as HP by (apply Z.pow_pos_nonneg; lia).
      replace (2 ^ (1 - e))%Z with (2 * 2 ^ (- e))%Z
        by (rewrite <- Z.pow_succ_r by lia; f_equal; lia).
      set (P := (2 ^ (- e))%Z) in *.
      pose proof (Z.div_mod (2 * M + P) (2 * P) ltac:(lia)) as D.
      pose proof (Z.mod_pos_bound (2 * M + P) (2 * P) ltac:(lia)) as B.
      set (n := ((2 * M + P) / (2 * P))%Z) in *.
      unfold Qle, Qlt. simpl. rewrite Z2Pos.id by assumption. nia.
Qed.

Lemma Math_floor_below (x : float) (v : Q) :
  exactValue x = Some v ->
  exists n, JS.Math_floor x = JS.IntFinite n
            /\ (inject_Z n <= v)%Q /\ (v < inject_Z n + 1)%Q.
Proof.
  unfold exactValue, JS.Math_floor.
  destruct (Prim2SF x) as [s|s| |s m e]; try discriminate.
  - intros [= <-]. exists 0%Z. split; [reflexivity|]. unfold Qle, Qlt; simpl; lia.
  - intros [= <-]. eexists. split; [reflexivity|].
    destruct (Z.leb_spec 0 e) as [He|He].
    + unfold Qle, Qlt. simpl. lia.
    + set (M := JS.signed s m).
      assert (0 < 2 ^ (- e))%Z as HP by (apply Z.pow_pos_nonneg; lia).
      set (P := (2 ^ (- e))%Z) in *.
      pose proof (Z.div_mod M P ltac:(lia)) as D.
      pose proof (Z.mod_pos_bound M P ltac:(lia)) as B.
      set (n := (M / P)%Z) in *.
      unfold Qle, Qlt. simpl. rewrite Z2Pos.id by assumption. nia.
Qed.

Lemma round_trip_labels :
  forallb (fun m => (roundTripLabel m =? roundTripExpected m)%string)
          (map Z.of_nat (seq 1 30)) = true.
Proof. vm_compute. reflexivity. Qed.

(** Claim C7.  For every whole number of minutes [m] from 1 to 30, the
    label of the distance walked in [m] minutes is "< 1 min" for [m = 1] and
    "m min" otherwise; every time the label stands for is within one minute
    of [m]. *)
Theorem walking_time_round_trip (m : Z) :
  (1 <= m <= 30)%Z ->
  roundTripLabel m = roundTripExpected m
  /\ exists times,
       labelTimes (roundTripLabel m) times
       /\ (exists t, times t)
       /\ forall t, times t -> (Qabs (t - inject_Z m) <= 1)%Q.
Proof.
  intros Hm.
  assert (roundTripLabel m = roundTripExpected m) as E.
  { pose proof round_trip_labels as H. rewrite forallb_forall in H.
    apply String.eqb_eq, H, in_map_iff. exists (Z.to_nat m).
    split; [lia | apply in_seq; lia]. }
  split; [assumption|]. rewrite E. unfold roundTripExpected.
  destruct (Z.eqb_spec m 1) as [->|N].
  - eexists. split; [constructor|]. split.
    + exists 0%Q. split; [apply Qle_refl | reflexivity].
    + intros t [H0 H1]. apply Qabs_Qle_condition.
      unfold Qle, Qlt in *. simpl in *. lia.
  - eexists. split; [constructor|]. split.
    + exists (inject_Z m). reflexivity.
    + intros t Ht. rewrite Ht.
      setoid_replace (inject_Z m - inject_Z m)%Q with 0%Q by ring.
      discriminate.
Qed.

(** The round trip at five minutes. *)
Lemma walking_time_round_trip_witness :
  roundTripLabel 5 = roundTripExpected 5
  /\ exists times,
       labelTimes (roundTripLabel 5) times
       /\ (exists t, times t)
       /\ forall t, times t -> (Qabs (t - inject_Z 5) <= 1)%Q.
Proof. apply (walking_time_round_trip 5). lia. Defined.

(** Claim C8 as stated fails: ten kilometers take two hours, and the label
    is "2 hrs", not "2 hr". *)
Lemma plural_hours_counterexample :
  ~ (forall distanceKm : float,
       (0 <=? distanceKm)%float = true ->
       calculateWalkingTime distanceKm = labelAsSpecified distanceKm).
Proof.
  intros H. specialize (H 10%float eq_refl).
  vm_compute in H. discriminate H.
Qed.

Lemma minutes_finite (x : float) :
  (x <? 1)%float = false -> (x <? 60)%float = true ->
  exists v, exactValue x = Some v.
Proof.
  intros H1 H60.
  destruct (ltb_not_nan _ _ H60) as [Hx _].
  pose proof (ltb_false_leb x 1 Hx eq_refl H1) as L1.
  apply leb_iff in L1. apply ltb_iff in H60.
  destruct L1 as (_ & _ & L1), H60 as (_ & _ & L60).
  unfold exactValue. unfold key in *.
  destruct (Prim2SF x) as [s|[|]| |[|] m e]; simpl in *;
    try (eexists; reflexivity); exfalso.
  all: change (SFkey (Prim2SF 1)) with (1, (-52, 4503599627370496))%Z in L1.
  all: change (SFkey (Prim2SF 60)) with (1, (-47, 8444249301319680))%Z in L60.
  all: unfold lex_le, lex_lt in *; simpl in *; lia.
Qed.

(** The exact value of a Number that is neither below 1 nor as much
    as 60. *)
Lemma exactValue_minutes (x : float) (v : Q) :
  (x <? 1)%float = false -> (x <? 60)%float = true ->
  exactValue x = Some v -> (1 <= v)%Q /\ (v < 60)%Q.
Proof.
  intros H1 H60.
  destruct (ltb_not_nan _ _ H60) as [Hx _].
  pose proof (ltb_false_leb x 1 Hx eq_refl H1) as L1.
  apply leb_iff in L1. apply ltb_iff in H60.
  destruct L1 as (_ & _ & L1), H60 as (_ & _ & L60).
  unfold exactValue. unfold key in *.
  pose proof (Prim2SF_valid x) as V.
  change (SFkey (Prim2SF 1)) with (1, (-52, 4503599627370496))%Z in L1.
  change (SFkey (Prim2SF 60)) with (1, (-47, 8444249301319680))%Z in L60.
  destruct (Prim2SF x) as [s|[|]| |[|] m e]; simpl in *;
    try discriminate;
    try (exfalso; unfold lex_le, lex_lt in *; simpl in *; lia).
  destruct (bounded_canonical m e V) as (_ & Hd & Hn).
  pose proof (digits2_bounds m) as B.
  assert (-52 <= e <= -47)%Z as He
    by (unfold lex_le, lex_lt in *; simpl in *; lia).
  assert (Zpos (digits2_pos m) = prec) as D
    by (apply Hn; unfold emin, emax, prec; lia).
  rewrite D in B. unfold prec in B.
  assert (e = -52 \/ e = -51 \/ e = -50 \/ e = -49 \/ e = -48 \/ e = -47)%Z
    as C by lia.
  intros [= <-].
  unfold lex_le, lex_lt in *; simpl in *.
  destruct C as [-> | [-> | [-> | [-> | [-> | ->]]]]];
    unfold Qle, Qlt; simpl in *; lia.
Qed.

(** Below [2^53] the digits printed are those of the integer. *)
Lemma toString_small (z : Z) :
  (0 <= z < 2 ^ 53)%Z -> JS.toString (JS.IntFinite z) = JS.decimal z.
Proof.
  intros [H0 H1]. unfold JS.toString, JS.positiveToString.
  destruct (Z.ltb_spec z 0); [lia|].
  destruct (Z.ltb_spec z (2 ^ 53)); [reflexivity | lia].
Qed.

Lemma exactValue_not_nan (x : float) (v : Q) :
  exactValue x = Some v -> is_nan x = false.
Proof.
  unfold exactValue. intros H. apply not_nan_spec. unfold SFnotnan.
  destruct (Prim2SF x); congruence.
Qed.

(** A finite Number that is not below 60. *)
Lemma at_least_sixty (x : float) (v : Q) :
  exactValue x = Some v -> (x <? 60)%float = false ->
  exists m e,
    Prim2SF x = S754_finite false m e
    /\ bounded prec emax m e = true
    /\ (-47 <= e)%Z
    /\ (8444249301319680 <= Zpos m * 2 ^ (e + 47))%Z.
Proof.
  intros Hv H60.
  pose proof (ltb_false_leb x 60 (exactValue_not_nan x v Hv) eq_refl H60) as L.
  apply leb_iff in L. destruct L as (_ & _ & L). unfold key in L.
  change (SFkey (Prim2SF 60)) with (1, (-47, 8444249301319680))%Z in L.
  pose proof (Prim2SF_valid x) as V. unfold exactValue in Hv.
  destruct (Prim2SF x) as [s|s| |[|] m e]; try discriminate;
    try (exfalso; unfold lex_le in L; simpl in L; lia).
  exists m, e. split; [reflexivity|]. split; [exact V|].
  destruct (bounded_canonical m e V) as (_ & _ & Hn).
  pose proof (digits2_bounds m) as [B _].
  unfold lex_le in L. simpl in L.
  assert (-47 < e \/ (e = -47 /\ 8444249301319680 <= Zpos m))%Z
    as [G | [-> G]] by lia.
  - split; [lia|].
    rewrite (Hn ltac:(unfold emin, emax, prec; lia)) in B.
    change (2 ^ (prec - 1))%Z with 4503599627370496%Z in B.
    assert (2 ^ 1 <= 2 ^ (e + 47))%Z by (apply Z.pow_le_mono_r; lia).
    change (2 ^ 1)%Z with 2%Z in *. nia.
  - split; [lia|]. simpl. lia.
Qed.

(** The remainder of the division by 60 is exact. *)
Lemma rem_sixty (x : float) (v : Q) :
  exactValue x = Some v -> (x <? 60)%float = false ->
  exists (k : Z) (r : Q),
    exactValue (JS.rem x 60) = Some r
    /\ (1 <= k)%Z /\ (0 <= r)%Q /\ (r < 60)%Q
    /\ (v == inject_Z (60 * k) + r)%Q.
Proof.
  intros Hv H60.
  destruct (at_least_sixty x v Hv H60) as (m & e & Ex & Bx & He & Hm).
  assert (v = if (0 <=? e)%Z then inject_Z (Zpos m * 2 ^ e)
              else (Zpos m # Z.to_pos (2 ^ (- e)))%Q) as Hv'
    by (unfold exactValue in Hv; rewrite Ex in Hv;
        unfold JS.signed, cond_Zopp in Hv; congruence).
  clear Hv. rename Hv' into Hv.
  unfold JS.rem. rewrite Ex.
  change (Prim2SF 60) with (S754_finite false 8444249301319680 (-47)).
  cbv beta iota.
  rewrite Z.min_r by lia.
  replace (e - -47)%Z with (e + 47)%Z by lia.
  change (-47 - -47)%Z with 0%Z. rewrite Z.pow_0_r, Z.mul_1_r.
  assert (0 < 2 ^ (e + 47))%Z as P by (apply Z.pow_pos_nonneg; lia).
  set (N := (Zpos m * 2 ^ (e + 47))%Z) in *.
  set (D := 8444249301319680%Z) in *.
  rewrite Z.rem_mod_nonneg by (unfold D; lia).
  pose proof (Z.div_mod N D ltac:(unfold D; lia)) as DM.
  pose proof (Z.mod_pos_bound N D ltac:(unfold D; lia)) as MB.
  assert (1 <= N / D)%Z as Hk
    by (apply Z.div_le_lower_bound; unfold D in *; lia).
  set (k := (N / D)%Z) in *. set (R := (N mod D)%Z) in *.
  assert (v == inject_Z (60 * k) + (R # 140737488355328))%Q as Ev.
  { subst v. destruct (Z.leb_spec 0 e) as [L|L].
    - unfold Qeq, Qplus, inject_Z. cbn [Qnum Qden].
      assert (N = Zpos m * 2 ^ e * 140737488355328)%Z as EN.
      { unfold N. rewrite Z.pow_add_r by lia.
        change (2 ^ 47)%Z with 140737488355328%Z. ring. }
      unfold D in DM. lia.
    - unfold Qeq, Qplus, inject_Z. cbn [Qnum Qden].
      assert (0 < 2 ^ (- e))%Z by (apply Z.pow_pos_nonneg; lia).
      rewrite Z2Pos.id by assumption.
      assert (2 ^ (e + 47) * 2 ^ (- e) = 140737488355328)%Z as EP.
      { rewrite <- Z.pow_add_r by lia.
        replace (e + 47 + - e)%Z with 47%Z by lia. reflexivity. }
      unfold N, D in DM. nia. }
  exists k. destruct (Z.eqb_spec R 0) as [E0 | N0].
  - exists 0%Q. split; [reflexivity|]. split; [assumption|].
    split; [discriminate|]. split; [reflexivity|].
    rewrite Ev, E0. unfold Qeq, Qplus, inject_Z. cbn [Qnum Qden]. lia.
  - assert (0 < R)%Z as HR by lia.
    destruct R as [|p|p] eqn:ER; try lia.
    cbn [cond_Zopp binary_normalize].
    assert (Zpos (digits2_pos p) <= prec)%Z as Hd.
    { change (Zpos (digits2_pos p)) with (Zdigits2 (Zpos p)).
      apply Zdigits2_le; [|unfold prec; lia].
      unfold D in MB. unfold prec. simpl. lia. }
    destruct (binary_round_exact false p (-47) Hd
                ltac:(unfold emin, emax, prec; lia))
      as (m' & e' & -> & B' & He' & Em').
    unfold exactValue. rewrite Prim2SF_SF2Prim by exact B'.
    destruct (Z.leb_spec 0 e') as [L|L]; [lia|].
    eexists. split; [reflexivity|].
    assert (0 < 2 ^ (- e'))%Z by (apply Z.pow_pos_nonneg; lia).
    assert (0 < 2 ^ (-47 - e'))%Z by (apply Z.pow_pos_nonneg; lia).
    assert (2 ^ (-47 - e') * 140737488355328 = 2 ^ (- e'))%Z as EP.
    { change 140737488355328%Z with (2 ^ 47)%Z.
      rewrite <- Z.pow_add_r by lia. f_equal. lia. }
    assert (Zpos m' # Z.to_pos (2 ^ (- e')) == Zpos p # 140737488355328)%Q
      as Er.
    { unfold Qeq. cbn [Qnum Qden]. rewrite Z2Pos.id by assumption.
      rewrite Em'. nia. }
    split; [assumption|]. unfold JS.signed, cond_Zopp.
    split; [unfold Qle; cbn [Qnum Qden]; lia|].
    split.
    + rewrite Er. unfold Qlt. cbn [Qnum Qden]. unfold D in MB. lia.
    + rewrite Er. exact Ev.
Qed.

(** The integer nearest to a value from 0 up to 60. *)
Lemma nearest_range (M : Z) (r : Q) :
  (0 <= r)%Q -> (r < 60)%Q ->
  (inject_Z M - (1 # 2) <= r)%Q -> (r < inject_Z M + (1 # 2))%Q ->
  (0 <= M <= 60)%Z.
Proof.
  destruct r as [rn rd]. unfold Qle, Qlt. simpl. intros. nia.
Qed.

Lemma binary_round_aux_nonneg (m e : Z) (l : location) :
  (0 <= m)%Z -> SFnonneg (binary_round_aux prec emax false m e l).
Proof.
  intros Hm. unfold binary_round_aux.
  destruct (shr_fexp_bounds m e l Hm) as [_ M1].
  destruct (shr_fexp prec emax m e l) as [mrs' e']. cbn [fst snd] in M1.
  pose proof (round_nearest_even_le (shr_m mrs') (loc_of_shr_record mrs')
                ltac:(lia)) as R.
  set (m1 := round_nearest_even (shr_m mrs') (loc_of_shr_record mrs')) in *.
  destruct (shr_fexp_bounds m1 e' loc_Exact ltac:(lia)) as [_ M2].
  destruct (shr_fexp prec emax m1 e' loc_Exact) as [mrs'' e''].
  cbn [fst snd] in M2.
  destruct (shr_m mrs'') as [|m2|m2]; [exact I| |lia].
  destruct (e'' <=? emax - prec)%Z; exact I.
Qed.

Lemma SFmul_nonneg (X : spec_float) (m : positive) (e : Z) :
  SFnonneg X -> SFnonneg (SFmul prec emax X (S754_finite false m e)).
Proof.
  destruct X as [s|[|]| |[|] mx ex]; simpl; try tauto; intros _.
  apply binary_round_aux_nonneg. lia.
Qed.

Lemma SFdiv_nonneg (X : spec_float) (m : positive) (e : Z) :
  SFnonneg X -> SFnonneg (SFdiv prec emax X (S754_finite false m e)).
Proof.
  destruct X as [s|[|]| |[|] mx ex]; simpl; try tauto; intros _.
  unfold SFdiv_core_binary.
  match goal with
  | |- context [Z.div_eucl ?a ?b] =>
      assert (0 <= a)%Z as Ha;
      [| destruct (Z.div_eucl a b) as [q r] eqn:Eq;
         assert (q = a / b)%Z as Hq
           by (unfold Z.div; rewrite Eq; reflexivity) ]
  end.
  - match goal with
    | |- (0 <= match ?s with _ => _ end)%Z => destruct s as [|p|p]
    end; try lia.
    rewrite Z.shiftl_mul_pow2 by lia.
    apply Z.mul_nonneg_nonneg; [lia | apply Z.pow_nonneg; lia].
  - apply binary_round_aux_nonneg. rewrite Hq. apply Z.div_pos; lia.
Qed.

(** The time it takes to walk a distance that is not negative is not
    negative, and it is not [NaN]. *)
Lemma walkingMinutes_nonneg (distanceKm : float) :
  (0 <=? distanceKm)%float = true ->
  SFnonneg (Prim2SF (walkingMinutes distanceKm)).
Proof.
  intros H. apply leb_iff in H. destruct H as (_ & Hn & H).
  apply not_nan_spec in Hn. unfold key in H.
  change (SFkey (Prim2SF 0)) with (0, (0, 0))%Z in H.
  assert (SFnonneg (Prim2SF distanceKm)) as D.
  { unfold SFnotnan in Hn.
    destruct (Prim2SF distanceKm) as [s|[|]| |[|] m e]; simpl;
      try exact I; try congruence;
      unfold lex_le in H; simpl in H; lia. }
  unfold walkingMinutes. rewrite mul_spec, div_spec, mul_spec.
  unfold SF64mul, SF64div.
  assert (exists m e, Prim2SF 0.621371 = S754_finite false m e)
    as (m1 & e1 & ->) by (vm_compute; eauto).
  assert (exists m e, Prim2SF 3.1 = S754_finite false m e)
    as (m2 & e2 & ->) by (vm_compute; eauto).
  assert (exists m e, Prim2SF 60 = S754_finite false m e)
    as (m3 & e3 & ->) by (vm_compute; eauto).
  apply SFmul_nonneg, SFdiv_nonneg, SFmul_nonneg, D.
Qed.

(** A finite Number that is not below 60 is not below 1. *)
Lemma sixty_not_below_one (x : float) (v : Q) :
  exactValue x = Some v -> (x <? 60)%float = false -> (x <? 1)%float = false.
Proof.
  intros Hv H60.
  destruct (at_least_sixty x v Hv H60) as (m & e & Ex & _ & He & _).
  destruct (x <? 1)%float eqn:L; [|reflexivity].
  apply ltb_iff in L. destruct L as (_ & _ & L). unfold key in L.
  rewrite Ex in L.
  change (SFkey (Prim2SF 1)) with (1, (-52, 4503599627370496))%Z in L.
  unfold lex_lt in L. simpl in L. lia.
Qed.

(** The quotient by 60 of a finite Number that is not below 60 is a finite
    Number that is not below 1. *)
Lemma div_sixty_at_least_one (x : float) (v : Q) :
  exactValue x = Some v -> (x <? 60)%float = false ->
  exists q, exactValue (x / 60)%float = Some q /\ (1 <= q)%Q.
Proof.
  intros Hv H60.
  destruct (at_least_sixty x v Hv H60) as (m & e & Ex & Bx & He & Hm).
  unfold exactValue. rewrite div_spec, Ex.
  change (Prim2SF 60) with (S754_finite false 8444249301319680 (-47)).
  destruct (SFdiv_sixty_lower m e Bx He Hm) as (p & e2 & E & Hp & He2).
  unfold SF64div. rewrite E. eexists. split; [reflexivity|].
  unfold JS.signed, cond_Zopp.
  change (2 ^ 52)%Z with 4503599627370496%Z in Hp.
  destruct (Z.leb_spec 0 e2) as [L|L]; unfold Qle; cbn [Qnum Qden inject_Z].
  - assert (1 <= 2 ^ e2)%Z
      by (apply (Z.pow_le_mono_r 2 0 e2); lia). nia.
  - assert (0 < 2 ^ (- e2))%Z by (apply Z.pow_pos_nonneg; lia).
    rewrite Z2Pos.id by assumption.
    assert (2 ^ (- e2) <= 2 ^ 52)%Z by (apply Z.pow_le_mono_r; lia).
    change (2 ^ 52)%Z with 4503599627370496%Z in *. lia.
Qed.

(** The computed time of a distance that is not negative is below one
    minute, or below an hour, or a finite time of an hour or more, or
    infinite. *)
Lemma minutes_cases (distanceKm : float) :
  (0 <=? distanceKm)%float = true ->
  let minutes := walkingMinutes distanceKm in
  (minutes <? 1)%float = true
  \/ ((minutes <? 1)%float = false /\ (minutes <? 60)%float = true)
  \/ ((minutes <? 60)%float = false /\ exists v, exactValue minutes = Some v)
  \/ minutes = infinity.
Proof.
  intros H minutes. pose proof (walkingMinutes_nonneg distanceKm H) as N.
  fold minutes in N. unfold exactValue.
  destruct (Prim2SF minutes) as [s|[|]| |[|] m e] eqn:E;
    simpl in N; try contradiction.
  - left. rewrite ltb_spec, E. reflexivity.
  - right. right. right. apply Prim2SF_inj. rewrite E. reflexivity.
  - destruct (minutes <? 1)%float eqn:L1; [left; reflexivity | right].
    destruct (minutes <? 60)%float eqn:L60; [left; auto | right; left].
    split; [reflexivity | eexists; reflexivity].
Qed.

(** Claim C8, amended.  With the time computed at 3.1 mph, the label is
    "< 1 min" when the time is below one minute, and "N min" when it is
    below 60, [N] being the integer nearest to the time, from 1 to 60.  For
    a finite time of 60 minutes or more the label is made of [H], the
    integer part of the time divided by 60 as a Number, at least 1, and of
    [M], the integer nearest to the exact remainder of the time modulo 60,
    from 0 to 60: "H hr" when [M] is 0 and [H] is not above 1, "H hrs" when [M] is 0
    and [H] is above 1, and "H hr M min" when [M] is not 0, where [H] is
    printed as a Number is: with its own digits below [2^53].  An infinite
    time is labelled "Infinity hr NaN min".  Every distance that is not
    negative falls under one of these cases. *)
Theorem walking_time_label (distanceKm : float) :
  let minutes := walkingMinutes distanceKm in
  let label := calculateWalkingTime distanceKm in
  ((minutes <? 1)%float = true -> label = "< 1 min")
  /\ ((minutes <? 1)%float = false -> (minutes <? 60)%float = true ->
      exists (N : Z) (v : Q),
        exactValue minutes = Some v
        /\ (inject_Z N - (1 # 2) <= v)%Q /\ (v < inject_Z N + (1 # 2))%Q
        /\ (1 <= N <= 60)%Z
        /\ label = JS.decimal N ++ " min")
  /\ (forall v : Q,
        exactValue minutes = Some v -> (minutes <? 60)%float = false ->
        exists (H M k : Z) (q r : Q),
          exactValue (minutes / 60)%float = Some q
          /\ (inject_Z H <= q)%Q /\ (q < inject_Z H + 1)%Q
          /\ (1 <= H)%Z
          /\ exactValue (JS.rem minutes 60) = Some r
          /\ (1 <= k)%Z /\ (0 <= r)%Q /\ (r < 60)%Q
          /\ (v == inject_Z (60 * k) + r)%Q
          /\ (inject_Z M - (1 # 2) <= r)%Q /\ (r < inject_Z M + (1 # 2))%Q
          /\ (0 <= M <= 60)%Z
          /\ label =
             if (M =? 0)%Z
             then JS.toString (JS.IntFinite H)
                  ++ (if (1 <? H)%Z then " hrs" else " hr")
             else JS.toString (JS.IntFinite H) ++ " hr "
                  ++ JS.decimal M ++ " min")
  /\ (forall H : Z,
        (0 <= H < 2 ^ 53)%Z -> JS.toString (JS.IntFinite H) = JS.decimal H)
  /\ (minutes = infinity -> label = "Infinity hr NaN min")
  /\ ((0 <=? distanceKm)%float = true ->
      (minutes <? 1)%float = true
      \/ ((minutes <? 1)%float = false /\ (minutes <? 60)%float = true)
      \/ ((minutes <? 60)%float = false
          /\ exists v, exactValue minutes = Some v)
      \/ minutes = infinity).
Proof.
  cbv zeta. unfold calculateWalkingTime.
  set (minutes := walkingMinutes distanceKm).
  split; [intros ->; reflexivity|].
  split.
  { intros H1 H60. rewrite H1, H60.
    destruct (minutes_finite minutes H1 H60) as [v Hv].
    destruct (exactValue_minutes _ v H1 H60 Hv) as [Hlo Hhi].
    destruct (Math_round_nearest minutes v Hv) as (N & HN & Rlo & Rhi).
    assert (1 <= N <= 60)%Z as Hr
      by (destruct v as [vn vd]; unfold Qle, Qlt in *; simpl in *; nia).
    exists N, v. rewrite HN, toString_small by lia. auto. }
  split.
  { intros v Hv H60.
    rewrite (sixty_not_below_one minutes v Hv H60), H60.
    destruct (div_sixty_at_least_one minutes v Hv H60) as (q & Hq & Q1).
    destruct (Math_floor_below _ q Hq) as (H & -> & Flo & Fhi).
    destruct (rem_sixty minutes v Hv H60)
      as (k & r & Hr & Hk & R0 & R60 & Ev).
    destruct (Math_round_nearest _ r Hr) as (M & -> & Rlo & Rhi).
    pose proof (nearest_range M r R0 R60 Rlo Rhi) as HM.
    assert (1 <= H)%Z as H1
      by (destruct q as [qn qd]; unfold Qle, Qlt in *; simpl in *; nia).
    exists H, M, k, q, r.
    repeat (split; [assumption|]).
    cbn [JS.isZero JS.gt1].
    destruct (Z.eqb_spec M 0) as [E|E].
    - destruct (1 <? H)%Z; reflexivity.
    - rewrite (toString_small M) by lia. reflexivity. }
  split; [exact toString_small|].
  split.
  { intros E. rewrite E. reflexivity. }
  exact (minutes_cases distanceKm).
Qed.

End WalkingTime.

(** ** The stable sort *)

Section StableSort.

Context {A : Type}.

Lemma insertSorted_In (cmp : A -> A -> float) (x y : A) (l : list A) :
  In y (JS.insertSorted cmp x l) <-> y = x \/ In y l.
Proof.
  induction l as [|z l IH]; simpl.
  - intuition.
  - destruct (0 <? cmp x z)%float; simpl; rewrite ?IH; intuition.
Qed.

Lemma Array_sort_In (cmp : A -> A -> float) (y : A) (l : list A) :
  In y (JS.Array_sort cmp l) <-> In y l.
Proof.
  induction l as [|x l IH]; simpl; [tauto|].
  rewrite insertSorted_In, IH. intuition.
Qed.

Lemma Array_sort_length (cmp : A -> A -> float) (l : list A) :
  List.length (JS.Array_sort cmp l) = List.length l.
Proof.
  induction l as [|x l IH]; simpl; [reflexivity|].
  rewrite <- IH. generalize (JS.Array_sort cmp l). intros s.
  induction s as [|z s IHs]; simpl; [reflexivity|].
  destruct (0 <? cmp x z)%float; simpl; [rewrite IHs|]; reflexivity.
Qed.

(** Two comparators that agree on the elements of a list sort it alike. *)
Lemma insertSorted_ext (cmp cmp' : A -> A -> float) (x : A) (l : list A) :
  (forall y, In y l -> cmp x y = cmp' x y) ->
  JS.insertSorted cmp x l = JS.insertSorted cmp' x l.
Proof.
  induction l as [|z l IH]; intros H; simpl; [reflexivity|].
  rewrite (H z (or_introl eq_refl)).
  destruct (0 <? cmp' x z)%float; [|reflexivity].
  rewrite IH; [reflexivity|]. intros y Hy. apply H. right. assumption.
Qed.

Lemma Array_sort_ext (cmp cmp' : A -> A -> float) (l : list A) :
  (forall x y, In x l -> In y l -> cmp x y = cmp' x y) ->
  JS.Array_sort cmp l = JS.Array_sort cmp' l.
Proof.
  induction l as [|x l IH]; intros H; simpl; [reflexivity|].
  rewrite IH by (intros; apply H; right; assumption).
  apply insertSorted_ext. intros y Hy. apply H; [left; reflexivity|].
  right. apply (Array_sort_In cmp'). assumption.
Qed.

End StableSort.

Section SortMap.

Context {A B : Type}.

(** Sorting commutes with a map that the comparator cannot see. *)
Lemma insertSorted_map (f : A -> B) (cmp : A -> A -> float)
  (cmp' : B -> B -> float) (x : A) (l : list A) :
  (forall a b, cmp' (f a) (f b) = cmp a b) ->
  JS.insertSorted cmp' (f x) (map f l) = map f (JS.insertSorted cmp x l).
Proof.
  intros H. induction l as [|z l IH]; simpl; [reflexivity|].
  rewrite H. destruct (0 <? cmp x z)%float; simpl; [rewrite IH|]; reflexivity.
Qed.

Lemma Array_sort_map (f : A -> B) (cmp : A -> A -> float)
  (cmp' : B -> B -> float) (l : list A) :
  (forall a b, cmp' (f a) (f b) = cmp a b) ->
  JS.Array_sort cmp' (map f l) = map f (JS.Array_sort cmp l).
Proof.
  intros H. induction l as [|x l IH]; simpl; [reflexivity|].
  rewrite IH. apply insertSorted_map. assumption.
Qed.

End SortMap.

Lemma statusRank_unknownAsFalse (c : Charger.t) :
  statusRank (unknownAsFalse c) = statusRank c.
Proof.
  unfold statusRank, unknownAsFalse.
  destruct (ChargerStatus.isOperational (Charger.status c)) as [[|]|] eqn:E;
    simpl; rewrite ?E; reflexivity.
Qed.

Lemma maxPower_unknownAsFalse (c : Charger.t) :
  Charger.maxPower (unknownAsFalse c) = Charger.maxPower c.
Proof.
  unfold unknownAsFalse.
  destruct (ChargerStatus.isOperational (Charger.status c)); reflexivity.
Qed.

Lemma byFeatured_unknownAsFalse (a b : Charger.t) :
  byFeatured (unknownAsFalse a) (unknownAsFalse b) = byFeatured a b.
Proof.
  unfold byFeatured.
  rewrite !statusRank_unknownAsFalse, !maxPower_unknownAsFalse. reflexivity.
Qed.

Lemma statusRank_not_operational (c : Charger.t) :
  operationalOf c <> Some true -> statusRank c = 0%float.
Proof.
  unfold statusRank, operationalOf.
  destruct (ChargerStatus.isOperational (Charger.status c)) as [[|]|];
    simpl; congruence.
Qed.

Lemma orNum_not_nan (v : float) : is_nan (JS.orNum (Some v) 0) = false.
Proof.
  unfold JS.orNum, JS.truthy.
  destruct (is_zero v); simpl; [reflexivity|].
  destruct (is_nan v) eqn:E; simpl; [reflexivity | assumption].
Qed.

Section SortHead.

Context {A : Type}.
Variable cmp : A -> A -> float.
Variable before : A -> A -> Prop.

Hypothesis after_iff :
  forall x y, (0 <? cmp x y)%float = true <-> before y x.
Hypothesis before_trans :
  forall a b c, before a b -> before b c -> before a c.
Hypothesis before_neg_trans :
  forall a b c, ~ before a b -> ~ before b c -> ~ before a c.

Lemma hd_insertSorted (x : A) (s : list A) :
  hd_error (JS.insertSorted cmp x s) =
  match s with
  | [] => Some x
  | y :: _ => if (0 <? cmp x y)%float then Some y else Some x
  end.
Proof. destruct s as [|y s]; simpl; [|destruct (0 <? cmp x y)%float]; reflexivity. Qed.

(** The head of the sorted array is the first element that no other one
    must come before. *)
Lemma sort_head (l : list A) (c : A) :
  hd_error (JS.Array_sort cmp l) = Some c ->
  exists pre post,
    l = pre ++ c :: post
    /\ (forall q, In q pre -> before c q)
    /\ (forall q, In q post -> ~ before q c).
Proof.
  revert c. induction l as [|x t IH]; intros c; simpl; [discriminate|].
  rewrite hd_insertSorted.
  destruct (JS.Array_sort cmp t) as [|y s] eqn:Es.
  - intros [= <-]. exists [], t. split; [reflexivity|].
    split; [contradiction|].
    assert (List.length (JS.Array_sort cmp t) = List.length t) as Hl
      by apply Array_sort_length.
    rewrite Es in Hl. destruct t; [contradiction | discriminate].
  - destruct (IH y eq_refl) as (pre & post & -> & Hpre & Hpost).
    destruct (0 <? cmp x y)%float eqn:E.
    + intros [= <-]. exists (x :: pre), post. split; [reflexivity|].
      split; [|assumption].
      intros q [<- | Hq]; [apply after_iff; assumption | auto].
    + intros [= <-]. exists [], (pre ++ y :: post). split; [reflexivity|].
      split; [contradiction|].
      assert (~ before y x) as Hyx
        by (intros H; apply after_iff in H; congruence).
      intros q Hq. apply in_app_or in Hq. destruct Hq as [Hq | [<- | Hq]].
      * intros Hqx. apply Hyx. eapply before_trans; eauto.
      * assumption.
      * eapply before_neg_trans; eauto.
Qed.

Lemma sort_head_none (l : list A) :
  hd_error (JS.Array_sort cmp l) = None <-> l = [].
Proof.
  split; [|intros ->; reflexivity].
  intros H. pose proof (Array_sort_length cmp l) as Hl.
  destruct (JS.Array_sort cmp l); [|discriminate].
  destruct l; [reflexivity | discriminate].
Qed.

End SortHead.

Lemma explicitlyOperational_rank (c : Charger.t) :
  statusRank c = if explicitlyOperational c then 1%float else 0%float.
Proof. reflexivity. Qed.

Lemma byFeatured_after (x y : Charger.t) :
  (0 <? byFeatured x y)%float = true <-> outranks y x.
Proof.
  unfold byFeatured, outranks. rewrite !explicitlyOperational_rank.
  fold (powerKey x) (powerKey y).
  pose proof (sub_positive (powerKey x) (powerKey y)
                (orNum_not_nan _) (orNum_not_nan _)) as S.
  destruct (explicitlyOperational x), (explicitlyOperational y); simpl.
  - rewrite S. intuition congruence.
  - split; [discriminate | intros [[? ?] | [? ?]]; discriminate].
  - split; [auto | reflexivity].
  - rewrite S. intuition congruence.
Qed.

Lemma outranks_trans (a b c : Charger.t) :
  outranks a b -> outranks b c -> outranks a c.
Proof.
  unfold outranks.
  intros [[H1 H2] | [H1 H2]] [[H3 H4] | [H3 H4]]; try congruence.
  - left. split; congruence.
  - left. split; congruence.
  - right. split; [congruence|]. eapply ltb_trans; eauto.
Qed.

Lemma outranks_neg_trans (a b c : Charger.t) :
  ~ outranks a b -> ~ outranks b c -> ~ outranks a c.
Proof.
  unfold outranks. intros Hab Hbc Hac.
  pose proof (orNum_not_nan (Charger.maxPower a)) as Na.
  pose proof (orNum_not_nan (Charger.maxPower b)) as Nb.
  pose proof (orNum_not_nan (Charger.maxPower c)) as Nc.
  fold (powerKey a) in Na. fold (powerKey b) in Nb. fold (powerKey c) in Nc.
  destruct (explicitlyOperational a) eqn:Ea, (explicitlyOperational b) eqn:Eb,
    (explicitlyOperational c) eqn:Ec;
    try (apply Hab; left; split; reflexivity);
    try (apply Hbc; left; split; reflexivity);
    try (destruct Hac as [[? ?] | [? ?]]; discriminate).
  all: destruct Hac as [[? ?] | [_ Hac]]; try discriminate.
  all: assert ((powerKey b <? powerKey a)%float = false) as L1
      by (destruct (powerKey b <? powerKey a)%float eqn:E; [|reflexivity];
          exfalso; apply Hab; right; split; reflexivity).
  all: assert ((powerKey c <? powerKey b)%float = false) as L2
      by (destruct (powerKey c <? powerKey b)%float eqn:E; [|reflexivity];
          exfalso; apply Hbc; right; split; reflexivity).
  all: pose proof (ltb_false_leb _ _ Nb Na L1) as M1.
  all: pose proof (ltb_false_leb _ _ Nc Nb L2) as M2.
  all: pose proof (leb_trans _ _ _ M1 M2) as M3.
  all: rewrite (leb_ltb_false _ _ M3) in Hac; discriminate.
Qed.

Lemma featured_is_first_best (l : list Charger.t) (c : Charger.t) :
  featuredOf l = Some c ->
  exists pre post,
    l = pre ++ c :: post
    /\ (forall q, In q pre -> outranks c q)
    /\ (forall q, In q post -> ~ outranks q c).
Proof.
  apply (sort_head byFeatured outranks byFeatured_after outranks_trans
           outranks_neg_trans).
Qed.

Lemma not_operational_flag (c : Charger.t) :
  operationalOf c <> Some true -> explicitlyOperational c = false.
Proof.
  unfold explicitlyOperational. destruct (operationalOf c) as [[|]|];
    simpl; congruence.
Qed.

(** Claim C10.  An unknown ([null]) operational status gets the same status
    rank as [false], namely 0, below the rank 1 of [true]; the comparator
    cannot tell a charger from the same charger with its unknown status
    rewritten to [false], so the featured charger is the same; the featured
    charger is the first charger that no other one outranks; and among
    chargers none of which is explicitly operational it is the head of the
    stable sort by descending [maxPower] alone, that is the first charger of
    greatest [maxPower]: every earlier one has less power, no later one has
    more. *)
Theorem unknown_status_ranks_as_false :
  (forall c, operationalOf c = None -> statusRank c = 0%float)
  /\ (forall c, operationalOf c = Some false -> statusRank c = 0%float)
  /\ (forall c, operationalOf c = Some true -> statusRank c = 1%float)
  /\ (0 <? 1)%float = true
  /\ (forall a b, byFeatured (unknownAsFalse a) (unknownAsFalse b)
                  = byFeatured a b)
  /\ (forall l, featuredOf (map unknownAsFalse l)
                = option_map unknownAsFalse (featuredOf l))
  /\ (forall l, featuredOf l = None <-> l = [])
  /\ (forall l c,
        featuredOf l = Some c ->
        exists pre post,
          l = pre ++ c :: post
          /\ (forall q, In q pre -> outranks c q)
          /\ (forall q, In q post -> ~ outranks q c))
  /\ (forall l,
        (forall c, In c l -> operationalOf c <> Some true) ->
        featuredOf l = hd_error (JS.Array_sort byPower l)
        /\ forall c,
             featuredOf l = Some c ->
             exists pre post,
               l = pre ++ c :: post
               /\ (forall q, In q pre ->
                              (powerKey q <? powerKey c)%float = true)
               /\ (forall q, In q post ->
                              (powerKey q <=? powerKey c)%float = true)).
Proof.
  repeat match goal with |- _ /\ _ => split end.
  - intros c H. apply statusRank_not_operational. congruence.
  - intros c H. apply statusRank_not_operational. congruence.
  - intros c H. unfold statusRank, operationalOf in *. rewrite H. reflexivity.
  - reflexivity.
  - exact byFeatured_unknownAsFalse.
  - intros l. unfold featuredOf.
    rewrite (Array_sort_map unknownAsFalse byFeatured byFeatured l
               byFeatured_unknownAsFalse).
    destruct (JS.Array_sort byFeatured l); reflexivity.
  - intros l. apply sort_head_none.
  - exact featured_is_first_best.
  - intros l H. split.
    { unfold featuredOf. f_equal. apply Array_sort_ext.
      intros x y Hx Hy. unfold byFeatured, byPower.
      rewrite (statusRank_not_operational x (H x Hx)).
      rewrite (statusRank_not_operational y (H y Hy)). reflexivity. }
    intros c Hc.
    destruct (featured_is_first_best l c Hc) as (pre & post & E & Hpre & Hpost).
    exists pre, post. split; [assumption|].
    assert (explicitlyOperational c = false) as Ec.
    { apply not_operational_flag, H. rewrite E. apply in_or_app.
      right. left. reflexivity. }
    split.
    + intros q Hq.
      destruct (Hpre q Hq) as [[_ F] | [_ L]]; [congruence | assumption].
    + intros q Hq.
      assert (explicitlyOperational q = false) as Eq.
      { apply not_operational_flag, H. rewrite E. apply in_or_app.
        right. right. assumption. }
      apply ltb_false_leb; try apply orNum_not_nan.
      destruct (powerKey c <? powerKey q)%float eqn:L; [|reflexivity].
      exfalso. apply (Hpost q Hq). right. split; [congruence | assumption].
Qed.

(** ** Correlation *)

Section Correlation.

Variable Math : MathObject.

Lemma attachChargers_at (thr : float) (pre : list Place.t) (place : Place.t)
  (post : list Place.t) (raws : list OCM.Charger.t) :
  attachChargers Math thr (map locationOf (pre ++ place :: post))
    (pre ++ place :: post) (List.length pre) raws
  = Some (keptFor Math thr place raws).
Proof.
  unfold attachChargers, keptFor.
  destruct (map parseChargerData raws) as [|c parsed] eqn:E; [reflexivity|].
  rewrite map_app. simpl.
  rewrite nth_error_app2 by (rewrite length_map; lia).
  rewrite length_map, Nat.sub_diag. simpl.
  rewrite nth_error_app2 by lia. rewrite Nat.sub_diag. simpl.
  reflexivity.
Qed.

Lemma correlate_from (thr : float) (pre rest : list Place.t)
  (chargerResults : list (list OCM.Charger.t)) :
  List.length chargerResults = List.length rest ->
  correlate Math thr (map locationOf (pre ++ rest)) (pre ++ rest)
    (List.length pre) chargerResults
  = Some (keptForAll Math thr rest chargerResults).
Proof.
  revert pre rest. induction chargerResults as [|raws more IH];
    intros pre rest Hlen.
  - destruct rest; [reflexivity | discriminate].
  - destruct rest as [|place rest]; [discriminate|]. simpl in Hlen.
    simpl. rewrite attachChargers_at.
    replace (pre ++ place :: rest) with ((pre ++ [place]) ++ rest)
      by (rewrite <- app_assoc; reflexivity).
    replace (S (List.length pre)) with (List.length (pre ++ [place]))
      by (rewrite length_app; simpl; lia).
    rewrite IH by lia. reflexivity.
Qed.

Lemma correlate_all (thr : float) (placeResults : list Place.t)
  (chargerResults : list (list OCM.Charger.t)) :
  List.length chargerResults = List.length placeResults ->
  correlate Math thr (map locationOf placeResults) placeResults 0 chargerResults
  = Some (keptForAll Math thr placeResults chargerResults).
Proof. intros H. exact (correlate_from thr [] placeResults chargerResults H). Qed.

Lemma keptFor_In (thr : float) (place : Place.t) (raws : list OCM.Charger.t)
  (c : Charger.t) :
  In c (keptFor Math thr place raws) <->
  exists raw,
    In raw raws
    /\ (calculateDistance Math (locationOf place)
          (Charger.location (parseChargerData raw)) <=? thr)%float = true
    /\ c = stamp (Place.place_id place)
             (calculateDistance Math (locationOf place)
                (Charger.location (parseChargerData raw)))
             (parseChargerData raw).
Proof.
  unfold keptFor. rewrite in_map_iff. split.
  - intros (p & <- & Hp). apply filter_In in Hp. destruct Hp as [Hp Hd].
    apply in_map_iff in Hp. destruct Hp as (raw & <- & Hraw).
    exists raw. auto.
  - intros (raw & Hraw & Hd & ->). exists (parseChargerData raw).
    split; [reflexivity|]. apply filter_In. split; [|assumption].
    apply in_map. assumption.
Qed.

Lemma keptFor_attached (thr : float) (place : Place.t)
  (raws : list OCM.Charger.t) (id : string) :
  filter (attachedTo id) (keptFor Math thr place raws)
  = if (Place.place_id place =? id)%string then keptFor Math thr place raws
    else [].
Proof.
  unfold keptFor.
  induction (filter _ (map parseChargerData raws)) as [|c l IH]; simpl.
  - destruct (Place.place_id place =? id)%string; reflexivity.
  - unfold attachedTo at 1. simpl. rewrite IH.
    destruct (Place.place_id place =? id)%string; reflexivity.
Qed.

Lemma count_attached (thr : float) (placeResults : list Place.t)
  (chargerResults : list (list OCM.Charger.t)) (place : Place.t)
  (raws : list OCM.Charger.t) :
  NoDup (map Place.place_id placeResults) ->
  In (place, raws) (combine placeResults chargerResults) ->
  filter (attachedTo (Place.place_id place))
         (keptForAll Math thr placeResults chargerResults)
  = keptFor Math thr place raws.
Proof.
  unfold keptForAll.
  revert chargerResults. induction placeResults as [|p ps IH];
    intros [|r rs] Hnd Hin; simpl in *; try contradiction.
  inversion Hnd as [|? ? Hnotin Hnd']; subst.
  rewrite filter_app, keptFor_attached.
  destruct Hin as [[= -> ->] | Hin].
  - rewrite String.eqb_refl.
    assert (filter (attachedTo (Place.place_id place))
              (flat_map (fun pr => keptFor Math thr (fst pr) (snd pr))
                 (combine ps rs)) = []) as ->; [|apply app_nil_r].
    clear IH Hnd Hnd'. revert rs.
    induction ps as [|q qs IHq]; intros [|r' rs']; simpl; try reflexivity.
    rewrite filter_app, keptFor_attached.
    destruct (String.eqb_spec (Place.place_id q) (Place.place_id place)) as [E|N].
    + exfalso. apply Hnotin. simpl. left. assumption.
    + simpl. apply IHq. intros H. apply Hnotin. simpl. right. assumption.
  - destruct (String.eqb_spec (Place.place_id p) (Place.place_id place)) as [E|N].
    + exfalso. apply Hnotin. rewrite E. apply in_map.
      apply (in_combine_l _ _ _ _ Hin).
    + simpl. apply IH; assumption.
Qed.

End Correlation.

Section CorrelationTheorem.

Variable Math : MathObject.


Lemma keptForAll_In (thr : float) (placeResults : list Place.t)
  (chargerResults : list (list OCM.Charger.t)) (c : Charger.t) :
  In c (keptForAll Math thr placeResults chargerResults) <->
  exists place raws raw,
    In (place, raws) (combine placeResults chargerResults)
    /\ In raw raws
    /\ (calculateDistance Math (locationOf place)
          (Charger.location (parseChargerData raw)) <=? thr)%float = true
    /\ c = stamp (Place.place_id place)
             (calculateDistance Math (locationOf place)
                (Charger.location (parseChargerData raw)))
             (parseChargerData raw).
Proof.
  unfold keptForAll. rewrite in_flat_map. split.
  - intros ([place raws] & Hin & Hc). simpl in Hc.
    apply keptFor_In in Hc. destruct Hc as (raw & ? & ? & ?).
    exists place, raws, raw. auto.
  - intros (place & raws & raw & Hin & ? & ? & ?).
    exists (place, raws). split; [assumption|]. simpl.
    apply keptFor_In. exists raw. auto.
Qed.


End CorrelationTheorem.

(** ** Malformed records *)

Section NaN.

Local Open Scope float_scope.






Variable Math : MathObject.
Hypothesis sin_nan : Math_sin Math nan = nan.
Hypothesis atan2_nan : Math_atan2 Math nan nan = nan.


Lemma mul_nan_l (x : float) : nan * x = nan.
Proof.
  apply Prim2SF_inj. rewrite mul_spec. change (Prim2SF nan) with S754_nan.
  reflexivity.
Qed.


End NaN.

(** ** The filter effect *)

Section FilterFacts.

Variable Math : MathObject.

Lemma find_owningPlace (places : list Place.t) (c : Charger.t) (place : Place.t) :
  JS.Array_find (fun p => attachedTo (Place.place_id p) c) places = Some place
  <-> owningPlace places c place.
Proof.
  unfold JS.Array_find, owningPlace.
  assert (forall q, attachedTo (Place.place_id q) c = true
                    <-> Charger.placeId c = Some (Place.place_id q)) as Hatt.
  { intros q. unfold attachedTo. destruct (Charger.placeId c) as [id|].
    - rewrite String.eqb_eq. split; congruence.
    - split; discriminate. }
  induction places as [|p ps IH]; simpl.
  - split; [discriminate|]. intros (pre & post & E & _).
    destruct pre; discriminate.
  - destruct (attachedTo (Place.place_id p) c) eqn:E.
    + split.
      * intros [= <-]. exists [], ps. split; [reflexivity|].
        split; [apply Hatt; assumption | contradiction].
      * intros ([|q pre] & post & Eq & Hid & Hpre).
        -- injection Eq as -> _. reflexivity.
        -- injection Eq as -> _. exfalso.
           apply (Hpre q (or_introl eq_refl)), Hatt. assumption.
    + rewrite IH. split.
      * intros (pre & post & -> & Hid & Hpre). exists (p :: pre), post.
        split; [reflexivity|]. split; [assumption|].
        intros q [<- | Hq]; [|auto].
        rewrite <- Hatt, E. discriminate.
      * intros ([|q pre] & post & Eq & Hid & Hpre).
        -- injection Eq as -> _. apply Hatt in Hid. congruence.
        -- injection Eq as _ ->. exists pre, post.
           split; [reflexivity|]. split; [assumption|].
           intros q' Hq'. apply Hpre. right. assumption.
Qed.

Lemma passesOperational_iff (f : Filters.t) (c : Charger.t) :
  passesOperational f c = true <->
  (Filters.operational f = true -> operationalOf c = Some true).
Proof.
  unfold passesOperational, operationalOf.
  destruct (Filters.operational f).
  - destruct (ChargerStatus.isOperational (Charger.status c)) as [[|]|]; simpl;
      split; intros H; try reflexivity; try discriminate H;
      discriminate (H eq_refl).
  - split; [discriminate | reflexivity].
Qed.

Lemma passesAccess_iff (f : Filters.t) (c : Charger.t) :
  passesAccess f c = true <->
  (forall a, Filters.access f = Only a ->
             ChargerAccess.category (Charger.access c) = a).
Proof.
  unfold passesAccess. destruct (Filters.access f) as [|a].
  - split; [discriminate | reflexivity].
  - split.
    + intros H b [= <-].
      destruct (ChargerAccess.category (Charger.access c)), a;
        try discriminate; reflexivity.
    + intros H. rewrite (H a eq_refl). destruct a; reflexivity.
Qed.

Lemma passesCost_iff (f : Filters.t) (c : Charger.t) :
  passesCost f c = true <->
  (Filters.cost f = CostFree -> Charger.isFree c = true)
  /\ (Filters.cost f = CostPaid -> Charger.isFree c = false).
Proof.
  unfold passesCost.
  destruct (Filters.cost f), (Charger.isFree c); simpl;
    split; try tauto; try discriminate;
    try (split; intros; congruence);
    intros [H1 H2]; try discriminate (H1 eq_refl); try discriminate (H2 eq_refl).
Qed.

Lemma passesSpeed_iff (f : Filters.t) (c : Charger.t) :
  passesSpeed f c = true <->
  (forall tier, Filters.speed f = Only tier -> Charger.powerTier c = tier).
Proof.
  unfold passesSpeed. destruct (Filters.speed f) as [|t].
  - split; [discriminate | reflexivity].
  - split.
    + intros H b [= <-].
      destruct (Charger.powerTier c), t; try discriminate; reflexivity.
    + intros H. rewrite (H t eq_refl). destruct t; reflexivity.
Qed.

Lemma passesConnectors_iff (f : Filters.t) (c : Charger.t) :
  passesConnectors f c = true <->
  (Filters.connectors f <> [] ->
   exists conn, In conn (Charger.connectors c)
                /\ In (Connector.type conn) (Filters.connectors f)).
Proof.
  unfold passesConnectors.
  destruct (Filters.connectors f) as [|s sel] eqn:E.
  - split; [congruence | reflexivity].
  - rewrite existsb_exists. split.
    + intros (x & Hx & H) _. apply existsb_exists in H.
      destruct H as (t & Ht & Heq). apply in_map_iff in Ht.
      destruct Ht as (conn & <- & Hconn). apply String.eqb_eq in Heq.
      exists conn. split; [assumption|]. rewrite Heq. assumption.
    + intros H. destruct (H ltac:(discriminate)) as (conn & Hconn & Hin).
      exists (Connector.type conn). split; [assumption|].
      apply existsb_exists. exists (Connector.type conn).
      split; [apply in_map; assumption | apply String.eqb_refl].
Qed.

Lemma passesWalkingTime_iff (f : Filters.t) (places : list Place.t)
  (c : Charger.t) :
  passesWalkingTime Math f places c = true <->
  (JS.truthy (Filters.walkingTime f) = true ->
   exists place,
     owningPlace places c place
     /\ (calculateDistance Math (locationOf place) (Charger.location c)
         <=? walkingTimeToDistanceKm (Filters.walkingTime f))%float = true).
Proof.
  unfold passesWalkingTime.
  destruct (JS.truthy (Filters.walkingTime f)); [|split; [discriminate|reflexivity]].
  destruct (JS.Array_find _ places) as [place|] eqn:E.
  - apply find_owningPlace in E. split.
    + intros H _. exists place. auto.
    + intros H. destruct (H eq_refl) as (place' & Hown & Hd).
      apply find_owningPlace in Hown, E. rewrite E in Hown.
      injection Hown as <-. exact Hd.
  - split; [discriminate|]. intros H.
    destruct (H eq_refl) as (place' & Hown & _).
    apply find_owningPlace in Hown. congruence.
Qed.

Lemma passesAll_iff (f : Filters.t) (places : list Place.t) (c : Charger.t) :
  passesAll Math f places c = true <-> survives Math f places c.
Proof.
  unfold passesAll, survives. rewrite !andb_true_iff.
  rewrite passesOperational_iff, passesAccess_iff, passesCost_iff,
    passesSpeed_iff, passesConnectors_iff, passesWalkingTime_iff.
  tauto.
Qed.

Lemma filter_filter {A : Type} (p q : A -> bool) (l : list A) :
  filter q (filter p l) = filter (fun x => p x && q x) l.
Proof.
  induction l as [|x l IH]; simpl; [reflexivity|].
  destruct (p x); simpl; [destruct (q x)|]; rewrite IH; reflexivity.
Qed.

Lemma applyCriteria_eq (f : Filters.t) (places : list Place.t)
  (chargers : list Charger.t) :
  applyCriteria Math f places chargers = filter (passesAll Math f places) chargers.
Proof.
  unfold applyCriteria, passesAll. rewrite !filter_filter.
  apply filter_ext. intros c. rewrite !andb_assoc. reflexivity.
Qed.

Lemma applyFilters_filtered (st : State) :
  places st <> [] \/ chargers st = [] ->
  filteredChargers (applyFilters Math st)
  = filter (passesAll Math (filters st) (places st)) (chargers st).
Proof.
  intros Hp. unfold applyFilters.
  destruct (chargers st) as [|c cs] eqn:Ec.
  - destruct (places st); reflexivity.
  - destruct (places st) as [|p ps]; [destruct Hp; congruence|].
    rewrite <- applyCriteria_eq.
    destruct (negb _); reflexivity.
Qed.

End FilterFacts.

(** ** The two place sorts *)

Lemma orInfinity_zero_after (distances : DistanceMap) (p q : Place.t)
  (d : float) :
  distanceValueOf distances (Place.place_id p) = Num 0 ->
  distanceValueOf distances (Place.place_id q) = Num d ->
  (0 <? d)%float = true -> (d <? infinity)%float = true ->
  (0 <? byDistance distances p q)%float = true.
Proof.
  intros Hp Hq H0 Hinf. unfold byDistance. rewrite Hp, Hq. simpl.
  unfold JS.truthy. rewrite (ltb_is_zero d H0).
  destruct (ltb_not_nan _ _ H0) as [_ Hd]. rewrite Hd. simpl.
  apply sub_positive; [assumption | reflexivity | assumption].
Qed.

(** Claim C6, where the code departs from it.  A distance value of 0 is
    falsy, so [distanceValue || Infinity] keys a place at the origin as
    [Infinity]: it is sorted after every place at a positive, finite
    distance.  Of two places, at 0 m and at 500 m, both sorts put the one at
    500 m first. *)
Theorem zero_distance_place_sorts_last :
  orInfinity (Num 0) = infinity
  /\ (forall distances p q d,
        distanceValueOf distances (Place.place_id p) = Num 0 ->
        distanceValueOf distances (Place.place_id q) = Num d ->
        (0 <? d)%float = true -> (d <? infinity)%float = true ->
        JS.Array_sort (byDistance distances) [p; q] = [q; p])
  /\ distanceValueOf (distances hereAndThereState) "here" = Num 0
  /\ distanceValueOf (distances hereAndThereState) "there" = Num 500
  /\ map Place.place_id
       (JS.Array_sort (byDistance (distances hereAndThereState)) hereAndThere)
     = ["there"; "here"]%string
  /\ (forall Math,
        map Place.place_id (places (applyFilters Math hereAndThereState))
        = ["there"; "here"]%string)
  /\ (forall Math,
        match loadDataFromLocation Math defaultFilters hereAndThere
                hereAndThereDistances [[]; []] with
        | Loaded _ places _ =>
            map Place.place_id places = ["there"; "here"]%string
        | _ => False
        end).
Proof.
  split; [reflexivity|]. split.
  - intros distances p q d Hp Hq H0 Hinf. simpl.
    rewrite (orInfinity_zero_after distances p q d Hp Hq H0 Hinf).
    reflexivity.
  - repeat split; try (intros Math); vm_compute; reflexivity.
Qed.

(** ** The end-to-end scenario of the specification *)

(** Three places 0.5, 1 and 2 km from the origin, a five-minute budget, one
    charger near each place at about 0.3, 0.5 and 0.1 km: the chargers of
    places 1 and 3 survive correlation; with the cost criterion ['free'],
    only the charger of place 3 is left, the counts are 0, 0 and 1, and the
    places keep their order. *)
Example end_to_end_scenario :
  match loadDataFromLocation approxMath defaultFilters threePlaces
          threeDistances threeChargerLists with
  | Loaded distances places chargers =>
      map Charger.id chargers = [Some 1%Z; Some 3%Z]
      /\ let st :=
           applyFilters approxMath
             {| places := places; chargers := chargers;
                filteredChargers := chargers; distances := distances;
                filters := freeOnly; previousPlacesSignature := "" |} in
         map Charger.id (filteredChargers st) = [Some 3%Z]
         /\ map (fun p => (Place.place_id p, Place.chargerCount p)) (MapView.places st)
            = [("place1", Some 0); ("place2", Some 0); ("place3", Some 1)]%string
  | _ => False
  end.
Proof. vm_compute. repeat split. Qed.

(* ================================================================== *)
(** * Further properties of the sources                                *)
(* ================================================================== *)

(** ** [Math.max] and [Math.min] on arbitrary Numbers *)

Section MathMaxAny.

Local Open Scope float_scope.

Lemma is_zero_key (x : float) :
  is_zero x = true -> is_nan x = false /\ key x = key 0.
Proof.
  unfold is_zero. intros H. apply eqb_iff in H. tauto.
Qed.

Lemma zeros_leb (x y : float) :
  is_zero x = true -> is_zero y = true -> (x <=? y) = true.
Proof.
  intros Hx Hy. apply is_zero_key in Hx, Hy.
  destruct Hx as [Nx Kx], Hy as [Ny Ky].
  apply leb_iff. repeat split; try assumption. rewrite Kx, Ky. lex.
Qed.

Lemma max_scan_any (l : list float) :
  Forall (fun p => is_nan p = false) l ->
  forall acc, is_nan acc = false ->
  (fold_left maxStep l acc = acc \/ In (fold_left maxStep l acc) l)
  /\ (acc <=? fold_left maxStep l acc) = true
  /\ (forall p, In p l -> (p <=? fold_left maxStep l acc) = true).
Proof.
  induction 1 as [|x l Hx _ IH]; intros acc Hacc; simpl.
  - split; [auto|]. split; [apply leb_refl; assumption | contradiction].
  - assert (is_nan (maxStep acc x) = false
            /\ (maxStep acc x = acc \/ maxStep acc x = x)
            /\ (acc <=? maxStep acc x) = true
            /\ (x <=? maxStep acc x) = true) as (Hn & Hc & Ha & Hxm).
    { unfold maxStep.
      destruct (JS.isPosZero x && JS.isNegZero acc) eqn:Z; simpl.
      - apply andb_true_iff in Z. destruct Z as [Zx Za].
        unfold JS.isPosZero, JS.isNegZero in Zx, Za.
        apply andb_true_iff in Zx, Za.
        repeat split; auto using leb_refl.
        apply zeros_leb; tauto.
      - destruct (acc <? x) eqn:E.
        + repeat split; auto using leb_refl, ltb_leb.
        + repeat split; auto using leb_refl, ltb_false_leb. }
    destruct (IH (maxStep acc x) Hn) as (Hin & Hle & Hall).
    split; [|split].
    + destruct Hin as [Hin | Hin]; [|tauto].
      destruct Hc as [Hc | Hc]; rewrite Hin, Hc; auto.
    + eapply leb_trans; eassumption.
    + intros p [<- | Hp]; [eapply leb_trans; eassumption | auto].
Qed.

(** [Math.max] of Numbers none of which is [NaN]: an upper bound that is
    [-Infinity] or one of the arguments. *)
Lemma Math_max_any (l : list float) :
  Forall (fun p => is_nan p = false) l ->
  (JS.Math_max l = neg_infinity \/ In (JS.Math_max l) l)
  /\ is_nan (JS.Math_max l) = false
  /\ (forall p, In p l -> (p <=? JS.Math_max l) = true).
Proof.
  intros Hl. unfold JS.Math_max.
  assert (existsb is_nan l = false) as ->.
  { clear -Hl. induction Hl as [|p l Hp _ IH]; simpl; [reflexivity|].
    rewrite Hp, IH. reflexivity. }
  change (fold_left _ l neg_infinity) with (fold_left maxStep l neg_infinity).
  destruct (max_scan_any l Hl neg_infinity eq_refl) as (Hin & Hle & Hall).
  split; [assumption|]. split; [|assumption].
  apply leb_iff in Hle. tauto.
Qed.

Lemma leb_antisym_leb (x y c : float) :
  (x <=? y) = true -> (y <=? x) = true -> (x <=? c) = (y <=? c).
Proof.
  intros Hxy Hyx.
  destruct (x <=? c) eqn:Ex, (y <=? c) eqn:Ey; try reflexivity.
  - rewrite (leb_trans _ _ _ Hyx Ex) in Ey. discriminate.
  - rewrite (leb_trans _ _ _ Hxy Ey) in Ex. discriminate.
Qed.

Lemma ltb_negb_leb (x c : float) :
  is_nan x = false -> is_nan c = false -> (c <? x) = negb (x <=? c).
Proof.
  intros Hx Hc. destruct (x <=? c) eqn:E; simpl.
  - apply leb_ltb_false. assumption.
  - apply leb_false_ltb; assumption.
Qed.

End MathMaxAny.

(** ** The pre-filter of [getNearbyChargers] *)

Section PreFilter.

Local Open Scope float_scope.

Lemma freeFilter_isFree (free : bool) (raw : OCM.Charger.t) :
  freeFilter free raw = Bool.eqb (Charger.isFree (parseChargerData raw)) free.
Proof.
  unfold freeFilter, parseChargerData, deriveIsFree, usageCostOf,
    isPayAtLocationOf; simpl.
  assert (forall b, Bool.eqb b true = b) as T by (intros []; reflexivity).
  assert (forall b, Bool.eqb b false = negb b) as F by (intros []; reflexivity).
  destruct free; [rewrite T | rewrite F]; reflexivity.
Qed.

(** The greatest reported power, as the speed pass computes it. *)
Lemma reported_not_nan (conns : list OCM.Connection.t) :
  Forall (fun p => is_nan p = false)
         (map (fun conn => JS.orNum (OCM.Connection.PowerKW conn) 0) conns).
Proof.
  apply Forall_forall. intros p Hp. apply in_map_iff in Hp.
  destruct Hp as (conn & <- & _).
  destruct (OCM.Connection.PowerKW conn) as [v|]; [apply orNum_not_nan|reflexivity].
Qed.

(** The speed pass and the normaliser compare the same power with the cut
    points: [Math.max] over all the reported powers sits on the same side of
    a positive cut point as [maxPower], which ignores the powers that are
    not positive. *)
Lemma prefilter_power (raw : OCM.Charger.t) (c : float) :
  (0 <? c) = true ->
  let M := JS.Math_max
             (map (fun conn => JS.orNum (OCM.Connection.PowerKW conn) 0)
                  (connectionsOf raw)) in
  is_nan M = false
  /\ (M <=? c) = (Charger.maxPower (parseChargerData raw) <=? c).
Proof.
  intros Hc. cbv zeta.
  set (vals := map (fun conn => JS.orNum (OCM.Connection.PowerKW conn) 0)
                   (connectionsOf raw)).
  destruct (Math_max_any vals (reported_not_nan _)) as (Hin & Hn & Hall).
  split; [assumption|].
  pose proof (maxPower_cases raw) as C. cbv zeta in C.
  set (m := Charger.maxPower (parseChargerData raw)) in *.
  set (M := JS.Math_max vals) in *.
  assert (forall p, In p (powerValuesOf (connectionsOf raw)) ->
                    In p vals /\ (0 <? p) = true) as Hsub.
  { intros p Hp. unfold powerValuesOf in Hp. apply filter_In in Hp. exact Hp. }
  destruct C as [[Em Epv] | (Hpos & Hmin & Hmax)].
  - (* no positive power: both are at most 0 *)
    assert ((M <=? 0) = true) as HM0.
    { destruct Hin as [-> | Hin]; [reflexivity|].
      destruct (0 <? M) eqn:E.
      - assert (In M (powerValuesOf (connectionsOf raw))) as F.
        { unfold powerValuesOf. apply filter_In. split; assumption. }
        rewrite Epv in F. contradiction.
      - apply ltb_false_leb; auto. }
    rewrite Em.
    rewrite (leb_trans _ _ _ HM0 (ltb_leb _ _ Hc)).
    symmetry. apply ltb_leb. assumption.
  - destruct (Hsub m Hmin) as [Hmv _].
    pose proof (Hall m Hmv) as HmM.
    assert (In M (powerValuesOf (connectionsOf raw))) as HMpv.
    { assert ((0 <? M) = true) as HMpos.
      { unfold isPositive in Hpos. apply ltb_iff in Hpos. apply leb_iff in HmM.
        apply ltb_iff. destruct Hpos as (? & ? & ?), HmM as (? & ? & ?).
        repeat split; auto. lex. }
      destruct Hin as [E | Hin].
      - rewrite E in HMpos. discriminate.
      - unfold powerValuesOf. apply filter_In. split; assumption. }
    apply leb_antisym_leb; auto.
Qed.

Lemma speedFilter_tier (speed : PowerTier.t) (raw : OCM.Charger.t) :
  speedFilter speed raw = true <->
  connectionsOf raw <> []
  /\ (speed <> PowerTier.unknown ->
      Charger.powerTier (parseChargerData raw) = speed).
Proof.
  unfold speedFilter.
  pose proof (prefilter_power raw 3.7 eq_refl) as P1.
  pose proof (prefilter_power raw 22 eq_refl) as P2.
  cbv zeta in P1, P2. destruct P1 as [Hn P1], P2 as [_ P2].
  rewrite powerTier_eq. unfold derivePowerTier.
  set (m := Charger.maxPower (parseChargerData raw)) in *.
  unfold connectionsOf in *.
  destruct (OCM.Charger.Connections raw) as [[|conn conns]|].
  - split; [discriminate | intros [F _]; congruence].
  - set (M := JS.Math_max _) in *.
    rewrite !(ltb_negb_leb M) by (assumption || reflexivity).
    rewrite P1, P2.
    assert (is_nan m = false) as Hm.
    { pose proof (maxPower_cases raw) as C. cbv zeta in C. fold m in C.
      destruct C as [[-> _] | (Hp & _ & _)];
        [reflexivity | apply positive_not_nan; assumption]. }
    rewrite (ltb_negb_leb m 22) by (assumption || reflexivity).
    assert ((m <=? 3.7) = true -> (m <=? 22) = true) as Mono
      by (intros H; eapply leb_trans; [exact H | reflexivity]).
    destruct (m <=? 3.7) eqn:E1;
      [rewrite (Mono eq_refl) | destruct (m <=? 22) eqn:E2];
      destruct speed; simpl;
      (split;
       [ intros H;
         first [ discriminate H
               | split;
                 [ discriminate
                 | first [ intros _; reflexivity
                         | intros N; exfalso; apply N; reflexivity ] ] ]
       | intros [_ H];
         first [ reflexivity
               | specialize (H ltac:(discriminate)); discriminate H ] ]).
  - split; [discriminate | intros [F _]; congruence].
Qed.

End PreFilter.

(** Property X1.  The pre-filter of [getNearbyChargers] agrees with the
    normaliser: a raw record is returned exactly when it is in the response,
    its normalised [isFree] is the requested [free] (if one is requested)
    and, if a speed is requested, it has a connection and its normalised
    tier is that speed.  A record without connections is dropped whenever a
    speed is requested, although it is normalised to [level1]; a speed that
    names no tier lets every record with a connection through. *)
Theorem prefilter_agrees_with_normaliser (data : option (list OCM.Charger.t))
  (filters : ApiFilters.t) (raw : OCM.Charger.t) :
  In raw (getNearbyChargers data filters) <->
  In raw (match data with Some l => l | None => [] end)
  /\ (forall free, ApiFilters.free filters = Some free ->
                   Charger.isFree (parseChargerData raw) = free)
  /\ (forall speed, ApiFilters.speed filters = Some speed ->
        connectionsOf raw <> []
        /\ (speed <> PowerTier.unknown ->
            Charger.powerTier (parseChargerData raw) = speed)).
Proof.
  unfold getNearbyChargers.
  set (l := match data with Some l => l | None => [] end).
  destruct (ApiFilters.free filters) as [free|],
    (ApiFilters.speed filters) as [speed|];
    rewrite ?filter_In, ?speedFilter_tier, ?freeFilter_isFree.
  - rewrite eqb_true_iff. split.
    + intros [[H1 H2] H3]. split; [assumption|].
      split; intros ? [= <-]; assumption.
    + intros (H1 & H2 & H3). auto.
  - rewrite eqb_true_iff. split.
    + intros [H1 H2]. split; [assumption|].
      split; [intros ? [= <-]; assumption | discriminate].
    + intros (H1 & H2 & _). auto.
  - split.
    + intros [H1 H2]. split; [assumption|].
      split; [discriminate | intros ? [= <-]; assumption].
    + intros (H1 & _ & H3). auto.
  - split; [intros H; split; [assumption|]; split; discriminate | tauto].
Qed.

(** A charger without connections is normalised to [level1] and dropped by
    a [level1] request. *)
Lemma no_connection_dropped :
  Charger.powerTier (parseChargerData (chargerWithPowers [])) = PowerTier.level1
  /\ getNearbyChargers (Some [chargerWithPowers []])
       {| ApiFilters.free := None; ApiFilters.speed := Some PowerTier.level1 |}
     = [].
Proof. split; reflexivity. Qed.

(** ** From the request to the filter effect *)

Section FetchThenFilter.

Variable Math : MathObject.

Lemma attachChargers_raw (thr : float) (locs : list LatLng)
  (places : list Place.t) (index : nat) (raws : list OCM.Charger.t)
  (cs : list Charger.t) (c : Charger.t) :
  attachChargers Math thr locs places index raws = Some cs -> In c cs ->
  exists raw id d, In raw raws /\ c = stamp id d (parseChargerData raw).
Proof.
  unfold attachChargers.
  destruct (map parseChargerData raws) as [|p parsed] eqn:E.
  - intros [= <-] [].
  - destruct (nth_error locs index) as [loc|]; [|discriminate].
    destruct (nth_error places index) as [place|]; [|discriminate].
    intros H Hc. injection H as <-.
    apply in_map_iff in Hc. destruct Hc as (q & <- & Hq).
    assert (In q (filter
                    (fun charger =>
                       (calculateDistance Math loc (Charger.location charger)
                        <=? thr)%float)
                    (p :: parsed))) as Hq' by exact Hq.
    clear Hq. apply filter_In in Hq'. destruct Hq' as [Hq _].
    rewrite <- E in Hq. apply in_map_iff in Hq. destruct Hq as (raw & <- & Hraw).
    eauto.
Qed.

Lemma correlate_raw (thr : float) (locs : list LatLng) (places : list Place.t)
  (chargerResults : list (list OCM.Charger.t)) :
  forall (index : nat) (all : list Charger.t) (c : Charger.t),
  correlate Math thr locs places index chargerResults = Some all -> In c all ->
  exists raws raw id d,
    In raws chargerResults /\ In raw raws
    /\ c = stamp id d (parseChargerData raw).
Proof.
  induction chargerResults as [|raws rest IH]; intros index all c; simpl.
  - intros [= <-] [].
  - destruct (attachChargers Math thr locs places index raws) as [cs|] eqn:A;
      [|discriminate].
    destruct (correlate Math thr locs places (S index) rest) as [more|] eqn:C;
      [|discriminate].
    intros [= <-] Hc. apply in_app_or in Hc. destruct Hc as [Hc | Hc].
    + destruct (attachChargers_raw _ _ _ _ _ _ _ A Hc) as (raw & id & d & ? & ?).
      exists raws, raw, id, d. auto.
    + destruct (IH _ _ _ C Hc) as (raws' & raw & id & d & ? & ? & ?).
      exists raws', raw, id, d. auto.
Qed.

Lemma loadedChargers_raw (filters : Filters.t) (placeResults : list Place.t)
  (distanceResults : list DistanceResult.t)
  (chargerResults : list (list OCM.Charger.t)) (c : Charger.t) :
  In c (loadedChargers
          (loadDataFromLocation Math filters placeResults distanceResults
             chargerResults)) ->
  exists raws raw id d,
    In raws chargerResults /\ In raw raws
    /\ c = stamp id d (parseChargerData raw).
Proof.
  unfold loadDataFromLocation.
  destruct placeResults as [|p ps]; [intros []|].
  destruct (filter _ (p :: ps)); [intros []|]. cbv zeta.
  destruct (correlate _ _ _ _ _ _) as [all|] eqn:C; [|intros []].
  simpl. intros Hc. eapply correlate_raw; eassumption.
Qed.

End FetchThenFilter.

(** Property X2.  Whatever the requests return, the chargers of a load whose
    requests carried the [apiFilters] derived from the criteria all pass the
    cost and the speed predicate of the filter effect under the same
    criteria: the effect never removes for its cost or its speed a charger
    that was fetched for them. *)
Theorem fetched_chargers_pass_cost_and_speed (Math : MathObject)
  (filters : Filters.t) (placeResults : list Place.t)
  (distanceResults : list DistanceResult.t)
  (responses : list (option (list OCM.Charger.t))) (c : Charger.t) :
  Filters.speed filters <> Only PowerTier.unknown ->
  In c (loadedChargers
          (loadDataFromLocation Math filters placeResults distanceResults
             (getChargersForLocations responses (apiFiltersOf filters)))) ->
  passesCost filters c = true /\ passesSpeed filters c = true.
Proof.
  intros Hspeed Hc. apply loadedChargers_raw in Hc.
  destruct Hc as (raws & raw & id & d & Hraws & Hraw & ->).
  unfold getChargersForLocations in Hraws. apply in_map_iff in Hraws.
  destruct Hraws as (data & <- & _).
  unfold getNearbyChargers, apiFiltersOf in Hraw. simpl in Hraw.
  unfold passesCost, passesSpeed. simpl.
  set (l := match data with Some l => l | None => [] end) in Hraw.
  split.
  - destruct (Filters.cost filters); [reflexivity| |].
    + assert (In raw (filter (freeFilter true) l)) as H.
      { destruct (Filters.speed filters); [|apply filter_In in Hraw]; tauto. }
      apply filter_In in H. destruct H as [_ H].
      rewrite freeFilter_isFree in H. apply (proj1 (eqb_true_iff _ _)) in H.
      exact H.
    + assert (In raw (filter (freeFilter false) l)) as H.
      { destruct (Filters.speed filters); [|apply filter_In in Hraw]; tauto. }
      apply filter_In in H. destruct H as [_ H].
      rewrite freeFilter_isFree in H. apply (proj1 (eqb_true_iff _ _)) in H.
      change (Charger.isFree (parseChargerData raw) = false) in H.
      change (Bool.eqb (Charger.isFree (parseChargerData raw)) false = true).
      rewrite H. reflexivity.
  - destruct (Filters.speed filters) as [|tier]; [reflexivity|].
    apply filter_In in Hraw. destruct Hraw as [_ H].
    apply speedFilter_tier in H. destruct H as [_ H].
    change (PowerTier.eqb (Charger.powerTier (parseChargerData raw)) tier = true).
    rewrite H by congruence. destruct tier; reflexivity.
Qed.

(** The three sample places, fetched for free chargers: the charger of the
    third place is loaded, and passes. *)
Lemma fetched_chargers_pass_cost_and_speed_witness :
  Filters.speed freeOnly <> Only PowerTier.unknown
  /\ exists c,
       In c (loadedChargers
               (loadDataFromLocation approxMath freeOnly threePlaces
                  threeDistances
                  (getChargersForLocations (map Some threeChargerLists)
                     (apiFiltersOf freeOnly))))
       /\ passesCost freeOnly c = true /\ passesSpeed freeOnly c = true.
Proof.
  split; [discriminate|].
  eexists. split.
  - vm_compute. left. reflexivity.
  - apply (fetched_chargers_pass_cost_and_speed approxMath freeOnly
             threePlaces threeDistances (map Some threeChargerLists)).
    + discriminate.
    + vm_compute. left. reflexivity.
Defined.

(** ** The access category *)

Section AccessCategory.

Local Open Scope string_scope.

Lemma accessCategory_eq (raw : OCM.Charger.t) :
  accessCategory raw =
  let title := JS.toLowerCase (usageTitleText raw) in
  if usageFlag OCM.UsageType.IsMembershipRequired raw then Access.permit
  else if usageFlag OCM.UsageType.IsAccessKeyRequired raw then Access.restricted
  else if JS.includes title "parking" then Access.parking
  else if JS.includes title "public" then Access.public
  else if JS.includes title "private" then Access.private
  else if JS.includes title "restricted" then Access.restricted
  else Access.unknown.
Proof. reflexivity. Qed.

Lemma includes_word (s w : string) :
  lowerWord w ->
  (JS.includes (JS.toLowerCase s) w = false <-> ~ containsFolded s w).
Proof.
  intros Hw. rewrite <- (includes_folded_iff s w Hw).
  destruct (JS.includes (JS.toLowerCase s) w); split; congruence.
Qed.

(** Property X3.  The access category is derived by a chain in which the
    first match wins: a required membership gives [permit]; otherwise a
    required access key gives [restricted]; otherwise the usage title is
    searched for "parking", "public", "private" and "restricted", in this
    order, without regard to the case of its ASCII letters and with a
    Kelvin sign (U+212A) read as "k", as [toLowerCase] does; otherwise the
    category is [unknown].  So "Private - Restricted Access" is [private], a
    membership flag overrides any title, and "Public PAR" followed by a
    Kelvin sign and "ING" is [parking]. *)
Theorem access_category_chain :
  (forall raw : OCM.Charger.t,
     let title := usageTitleText raw in
     let membership := usageFlag OCM.UsageType.IsMembershipRequired raw in
     let accessKey := usageFlag OCM.UsageType.IsAccessKeyRequired raw in
     (membership = true -> accessCategory raw = Access.permit)
     /\ (membership = false -> accessKey = true ->
         accessCategory raw = Access.restricted)
     /\ (membership = false -> accessKey = false ->
         (containsFolded title "parking" ->
          accessCategory raw = Access.parking)
         /\ (~ containsFolded title "parking" ->
             containsFolded title "public" ->
             accessCategory raw = Access.public)
         /\ (~ containsFolded title "parking" ->
             ~ containsFolded title "public" ->
             containsFolded title "private" ->
             accessCategory raw = Access.private)
         /\ (~ containsFolded title "parking" ->
             ~ containsFolded title "public" ->
             ~ containsFolded title "private" ->
             containsFolded title "restricted" ->
             accessCategory raw = Access.restricted)
         /\ (~ containsFolded title "parking" ->
             ~ containsFolded title "public" ->
             ~ containsFolded title "private" ->
             ~ containsFolded title "restricted" ->
             accessCategory raw = Access.unknown)))
  /\ (forall s w, withoutK w -> (containsFolded s w <-> containsCI s w))
  /\ accessCategory (chargerWithUsage (Some "Public - Pay At Location") None None)
     = Access.public
  /\ accessCategory
       (chargerWithUsage (Some "Private - Restricted Access") None None)
     = Access.private
  /\ accessCategory
       (chargerWithUsage (Some "Public - Membership Required") (Some true) None)
     = Access.permit
  /\ accessCategory (chargerWithUsage (Some "PUBLIC PARKING") None (Some false))
     = Access.parking
  /\ accessCategory
       (chargerWithUsage (Some ("Public PAR" ++ JS.kelvinSign ++ "ING"))
          None None)
     = Access.parking
  /\ accessCategory (chargerWithUsage None None None) = Access.unknown.
Proof.
  split; [|split; [|repeat split; reflexivity]].
  - intros raw. cbv zeta. rewrite accessCategory_eq. cbv zeta.
    assert (forall w, lowerWord w ->
                      containsFolded (usageTitleText raw) w ->
                      JS.includes (JS.toLowerCase (usageTitleText raw)) w = true)
      as Yes by (intros w Hw; apply includes_folded_iff; assumption).
    assert (forall w, lowerWord w ->
                      ~ containsFolded (usageTitleText raw) w ->
                      JS.includes (JS.toLowerCase (usageTitleText raw)) w = false)
      as No by (intros w Hw; apply includes_word; assumption).
    assert (lowerWord "parking") as U1 by not_upper.
    assert (lowerWord "public") as U2 by not_upper.
    assert (lowerWord "private") as U3 by not_upper.
    assert (lowerWord "restricted") as U4 by not_upper.
    split; [intros ->; reflexivity|].
    split; [intros -> ->; reflexivity|].
    intros -> ->. repeat split.
    + intros H1. rewrite (Yes _ U1 H1). reflexivity.
    + intros H1 H2. rewrite (No _ U1 H1), (Yes _ U2 H2). reflexivity.
    + intros H1 H2 H3.
      rewrite (No _ U1 H1), (No _ U2 H2), (Yes _ U3 H3). reflexivity.
    + intros H1 H2 H3 H4.
      rewrite (No _ U1 H1), (No _ U2 H2), (No _ U3 H3), (Yes _ U4 H4).
      reflexivity.
    + intros H1 H2 H3 H4.
      rewrite (No _ U1 H1), (No _ U2 H2), (No _ U3 H3), (No _ U4 H4).
      reflexivity.
  - intros s w Hk. unfold containsFolded, containsCI.
    split; intros (pre & mid & suf & E & H); exists pre, mid, suf;
      (split; [assumption|apply (spellsFolded_withoutK mid w Hk); assumption]).
Qed.

End AccessCategory.

(** ** The range of connector powers *)

Section PowerRange.

Local Open Scope float_scope.

Lemma min_scan_any (l : list float) :
  Forall (fun p => is_nan p = false) l ->
  forall acc, is_nan acc = false ->
  (fold_left minStep l acc = acc \/ In (fold_left minStep l acc) l)
  /\ (fold_left minStep l acc <=? acc) = true
  /\ (forall p, In p l -> (fold_left minStep l acc <=? p) = true).
Proof.
  induction 1 as [|x l Hx _ IH]; intros acc Hacc; simpl.
  - split; [auto|]. split; [apply leb_refl; assumption | contradiction].
  - assert (is_nan (minStep acc x) = false
            /\ (minStep acc x = acc \/ minStep acc x = x)
            /\ (minStep acc x <=? acc) = true
            /\ (minStep acc x <=? x) = true) as (Hn & Hc & Ha & Hxm).
    { unfold minStep.
      destruct (JS.isNegZero x && JS.isPosZero acc) eqn:Z; simpl.
      - apply andb_true_iff in Z. destruct Z as [Zx Za].
        unfold JS.isPosZero, JS.isNegZero in Zx, Za.
        apply andb_true_iff in Zx, Za.
        repeat split; auto using leb_refl.
        apply zeros_leb; tauto.
      - destruct (x <? acc) eqn:E.
        + repeat split; auto using leb_refl, ltb_leb.
        + repeat split; auto using leb_refl, ltb_false_leb. }
    destruct (IH (minStep acc x) Hn) as (Hin & Hle & Hall).
    split; [|split].
    + destruct Hin as [Hin | Hin]; [|tauto].
      destruct Hc as [Hc | Hc]; rewrite Hin, Hc; auto.
    + eapply leb_trans; eassumption.
    + intros p [<- | Hp]; [eapply leb_trans; eassumption | auto].
Qed.

(** [Math.min] of positive Numbers: the least of them. *)
Lemma Math_min_positive (l : list float) :
  Forall isPositive l -> l <> [] ->
  In (JS.Math_min l) l
  /\ (forall p, In p l -> (JS.Math_min l <=? p) = true).
Proof.
  intros Hl Hne. unfold JS.Math_min. rewrite (no_nan_among_positive l Hl).
  change (fold_left _ l infinity) with (fold_left minStep l infinity).
  assert (Forall (fun p => is_nan p = false) l) as Hn.
  { eapply Forall_impl; [|exact Hl]. intros p. apply positive_not_nan. }
  destruct (min_scan_any l Hn infinity eq_refl) as (Hin & Hle & Hall).
  split; [|assumption].
  destruct Hin as [E | Hin]; [|assumption].
  (* the scan cannot end on the initial [Infinity] unless it is an argument *)
  destruct l as [|x l]; [congruence|].
  pose proof (Hall x (or_introl eq_refl)) as Hx. rewrite E in Hx.
  inversion Hn as [|? ? Nx _]; subst.
  left. apply Prim2SF_inj.
  apply leb_iff in Hx. destruct Hx as (_ & _ & Hx).
  apply not_nan_spec in Nx. unfold SFnotnan in Nx. unfold key in Hx.
  rewrite E. change (Prim2SF infinity) with (S754_infinity false) in *.
  destruct (Prim2SF x) as [s|[|]| |[|] m e]; simpl in Hx;
    try reflexivity; try congruence; exfalso; lex.
Qed.

Lemma leb_neq_ltb (x y : float) :
  (x <=? y) = true -> (x =? y) = false -> (x <? y) = true.
Proof.
  intros Hle Hne. apply leb_iff in Hle. destruct Hle as (Hx & Hy & Hle).
  apply ltb_iff. repeat split; try assumption.
  destruct (lex_total (key y) (key x)) as [L | L]; [|assumption].
  rewrite (proj2 (eqb_iff x y)) in Hne; [discriminate|].
  repeat split; try assumption. lex.
Qed.

Lemma ltb_neq (x y : float) : (x <? y) = true -> (x =? y) = false.
Proof.
  intros H. destruct (x =? y) eqn:E; [|reflexivity].
  apply ltb_iff in H. apply eqb_iff in E. exfalso.
  destruct H as (_ & _ & H), E as (_ & _ & E). rewrite E in H. lex.
Qed.

Lemma powerLevels_eq (raw : OCM.Charger.t) :
  let pv := powerValuesOf (connectionsOf raw) in
  let lo := match pv with [] => 0 | l => JS.Math_min l end in
  let hi := match pv with [] => 0 | l => JS.Math_max l end in
  Charger.hasMultiplePowerLevels (parseChargerData raw)
  = ((1 <? List.length pv)%nat && JS.strictNeq lo hi)
  /\ Charger.minPower (parseChargerData raw)
     = (if Charger.hasMultiplePowerLevels (parseChargerData raw)
        then Some lo else None)
  /\ Charger.maxPower (parseChargerData raw) = hi.
Proof.
  cbv zeta. unfold parseChargerData, connectionsOf; simpl.
  destruct (powerValuesOf _); repeat split; reflexivity.
Qed.

(** Property X4.  [hasMultiplePowerLevels] holds exactly when two of the
    reported positive powers differ; [minPower] is then the least reported
    positive power, strictly below [maxPower]; otherwise [minPower] is
    [null]. *)
Theorem power_range_of_connectors (raw : OCM.Charger.t) :
  let c := parseChargerData raw in
  let pv := powerValuesOf (connectionsOf raw) in
  (Charger.hasMultiplePowerLevels c = true <->
   exists p q, In p pv /\ In q pv /\ (p <? q) = true)
  /\ (forall v, Charger.minPower c = Some v ->
        In v pv
        /\ (forall p, In p pv -> (v <=? p) = true)
        /\ (v <? Charger.maxPower c) = true)
  /\ (Charger.minPower c = None <-> Charger.hasMultiplePowerLevels c = false).
Proof.
  cbv zeta. destruct (powerLevels_eq raw) as (EM & Emin & Emax).
  cbv zeta in EM, Emin, Emax.
  pose proof (powerValues_positive (connectionsOf raw)) as Hpos.
  set (pv := powerValuesOf (connectionsOf raw)) in *.
  set (c := parseChargerData raw) in *.
  assert (pv <> [] ->
          In (JS.Math_min pv) pv /\ In (JS.Math_max pv) pv
          /\ (forall p, In p pv ->
                (JS.Math_min pv <=? p) = true /\ (p <=? JS.Math_max pv) = true))
    as Hext.
  { intros Hne.
    destruct (Math_min_positive pv Hpos Hne) as (H1 & H2).
    destruct (Math_max_positive pv Hpos Hne) as (H3 & _ & H4).
    repeat split; auto. }
  assert (Charger.hasMultiplePowerLevels c = true ->
          pv <> []
          /\ Charger.minPower c = Some (JS.Math_min pv)
          /\ (JS.Math_min pv <? JS.Math_max pv) = true) as Hmult.
  { intros H. rewrite H in Emin. rewrite EM in H.
    apply andb_true_iff in H. destruct H as [Hlen Hneq].
    destruct pv as [|x l] eqn:Epv; [discriminate Hlen|].
    split; [discriminate|]. split; [assumption|].
    destruct (Hext ltac:(discriminate)) as (H1 & H2 & H3).
    apply leb_neq_ltb; [apply H3; assumption|].
    unfold JS.strictNeq in Hneq. apply negb_true_iff in Hneq. assumption. }
  split; [|split].
  - split.
    + intros H. destruct (Hmult H) as (Hne & _ & Hlt).
      destruct (Hext Hne) as (H1 & H2 & _). eauto.
    + intros (p & q & Hp & Hq & Hlt).
      assert (pv <> []) as Hne by (intros E; rewrite E in Hp; contradiction).
      destruct (Hext Hne) as (_ & _ & H3).
      assert ((JS.Math_min pv <? JS.Math_max pv) = true) as Hmm.
      { destruct (H3 p Hp) as [Hlo _]. destruct (H3 q Hq) as [_ Hhi].
        apply ltb_iff in Hlt. apply leb_iff in Hlo, Hhi. apply ltb_iff.
        destruct Hlt as (? & ? & ?), Hlo as (? & ? & ?), Hhi as (? & ? & ?).
        repeat split; auto. lex. }
      rewrite EM. apply andb_true_iff. split.
      * destruct pv as [|x [|y l]]; [contradiction| |reflexivity].
        destruct Hp as [<- | []], Hq as [<- | []].
        apply ltb_neq in Hlt.
        rewrite (proj2 (eqb_iff x x)) in Hlt; [discriminate|].
        inversion Hpos as [|? ? Hx _]; subst.
        pose proof (positive_not_nan x Hx). auto.
      * destruct pv as [|x l]; [contradiction|].
        unfold JS.strictNeq. rewrite (ltb_neq _ _ Hmm). reflexivity.
  - intros v Hv.
    destruct (Charger.hasMultiplePowerLevels c) eqn:H;
      [|rewrite Emin in Hv; discriminate].
    destruct (Hmult eq_refl) as (Hne & Hmin & Hlt).
    rewrite Hmin in Hv. injection Hv as <-.
    destruct (Hext Hne) as (H1 & _ & H3).
    split; [assumption|]. split; [intros p Hp; apply H3; assumption|].
    rewrite Emax. destruct pv; [congruence | assumption].
  - rewrite Emin. destruct (Charger.hasMultiplePowerLevels c);
      split; congruence.
Qed.

End PowerRange.

(** ** Fallbacks of the normaliser *)

Section Fallbacks.

Local Open Scope string_scope.

Lemma orStr_nonempty (s : option string) (d : string) :
  d <> "" -> JS.orStr s d <> "".
Proof. intros Hd. destruct s as [[|a r]|]; simpl; congruence. Qed.

Lemma connectorOf_fallbacks (conn : OCM.Connection.t) :
  Connector.type (connectorOf conn) <> ""
  /\ Connector.level (connectorOf conn) <> ""
  /\ is_nan (Connector.power (connectorOf conn)) = false
  /\ Connector.status (connectorOf conn) <> Some "".
Proof.
  unfold connectorOf; simpl. repeat split.
  - apply orStr_nonempty. discriminate.
  - apply orStr_nonempty.
    destruct (OCM.Connection.LevelID conn) as [id|]; [|discriminate].
    destruct (id =? 0)%Z; discriminate.
  - destruct (OCM.Connection.PowerKW conn) as [v|];
      [apply orNum_not_nan | reflexivity].
  - destruct (OCM.Connection.StatusType conn) as [st|]; [|discriminate].
    destruct (OCM.StatusType.Title st) as [[|a r]|]; discriminate.
Qed.

(** Property X5.  Whatever the upstream record holds or lacks, the
    normalised charger has no empty label ([name], [speed], [cost], the
    status and access titles, the type and level of every connector), no
    empty optional text, no [NaN] power, never zero as its number of points,
    and one connector for each upstream connection; [hasLiveStatus] holds
    exactly when some connector carries a status text. *)
Theorem normalised_charger_fallbacks (raw : OCM.Charger.t) :
  let c := parseChargerData raw in
  Charger.name c <> ""
  /\ Charger.speed c <> ""
  /\ Charger.cost c <> ""
  /\ ChargerStatus.title (Charger.status c) <> ""
  /\ ChargerAccess.title (Charger.access c) <> ""
  /\ ChargerStatus.lastUpdated (Charger.status c) <> Some ""
  /\ Charger.operator c <> Some ""
  /\ Charger.numberOfPoints c <> Some 0%Z
  /\ is_nan (Charger.maxPower c) = false
  /\ List.length (Charger.connectors c) = List.length (connectionsOf raw)
  /\ (forall conn, In conn (Charger.connectors c) ->
        Connector.type conn <> "" /\ Connector.level conn <> ""
        /\ is_nan (Connector.power conn) = false
        /\ Connector.status conn <> Some "")
  /\ (Charger.hasLiveStatus c = true <->
      exists conn text,
        In conn (Charger.connectors c) /\ Connector.status conn = Some text).
Proof.
  cbv zeta.
  assert (is_nan (Charger.maxPower (parseChargerData raw)) = false) as Hmax.
  { pose proof (maxPower_cases raw) as C. cbv zeta in C.
    destruct C as [[-> _] | (Hp & _ & _)];
      [reflexivity | apply positive_not_nan; assumption]. }
  unfold parseChargerData in *; simpl in *. fold (connectionsOf raw).
  repeat split.
  - apply orStr_nonempty. discriminate.
  - unfold derivePowerTier.
    repeat match goal with |- context [if ?b then _ else _] => destruct b end;
      discriminate.
  - unfold deriveCost.
    destruct (String.eqb_spec (usageCostOf raw) "") as [E|N]; simpl;
      [|assumption].
    repeat match goal with |- context [if ?b then _ else _] => destruct b end;
      discriminate.
  - apply orStr_nonempty. discriminate.
  - apply orStr_nonempty. discriminate.
  - destruct (OCM.Charger.DateLastStatusUpdate raw) as [[|a r]|]; discriminate.
  - destruct (titleOf (OCM.Charger.OperatorInfo raw)) as [[|a r]|]; discriminate.
  - destruct (OCM.Charger.NumberOfPoints raw) as [[|n|n]|]; try discriminate;
      destruct (connectionsOf raw); discriminate.
  - assumption.
  - apply length_map.
  - apply in_map_iff in H. destruct H as (x & <- & _).
    apply connectorOf_fallbacks.
  - apply in_map_iff in H. destruct H as (x & <- & _).
    apply connectorOf_fallbacks.
  - apply in_map_iff in H. destruct H as (x & <- & _).
    apply connectorOf_fallbacks.
  - apply in_map_iff in H. destruct H as (x & <- & _).
    apply connectorOf_fallbacks.
  - intros H. apply existsb_exists in H. destruct H as (conn & Hin & Hs).
    destruct (Connector.status conn) as [text|] eqn:E; [|discriminate].
    exists conn, text. auto.
  - intros (conn & text & Hin & Hs). apply existsb_exists.
    exists conn. rewrite Hs. auto.
Qed.

End Fallbacks.

(** ** Signs in binary64 arithmetic *)

Section Signs.

Local Open Scope float_scope.

Lemma binary_round_aux_opp (s : bool) (m e : Z) (l : location) :
  binary_round_aux prec emax (negb s) m e l
  = SFopp (binary_round_aux prec emax s m e l).
Proof.
  unfold binary_round_aux.
  destruct (shr_fexp prec emax m e l) as [mrs' e'].
  destruct (shr_fexp prec emax _ e' loc_Exact) as [mrs'' e''].
  destruct (shr_m mrs''); [reflexivity| |reflexivity].
  destruct (e'' <=? emax - prec)%Z; reflexivity.
Qed.

Lemma binary_round_opp (s : bool) (m : positive) (e : Z) :
  binary_round prec emax (negb s) m e = SFopp (binary_round prec emax s m e).
Proof.
  unfold binary_round. destruct (shl_align m e _) as [mz ez].
  apply binary_round_aux_opp.
Qed.

Lemma SFmul_opp_l (X Y : spec_float) :
  SFmul prec emax (SFopp X) Y = SFopp (SFmul prec emax X Y).
Proof.
  destruct X as [sx|sx| |sx mx ex], Y as [sy|sy| |sy my ey]; simpl;
    try reflexivity; rewrite <- ?negb_xorb_l; try reflexivity.
  apply binary_round_aux_opp.
Qed.

Lemma SFmul_comm (X Y : spec_float) :
  SFmul prec emax X Y = SFmul prec emax Y X.
Proof.
  destruct X as [sx|sx| |sx mx ex], Y as [sy|sy| |sy my ey]; simpl;
    try reflexivity; rewrite (xorb_comm sx sy); try reflexivity.
  rewrite (Pos.mul_comm mx my), (Z.add_comm ex ey). reflexivity.
Qed.

Lemma SFdiv_opp_l (X Y : spec_float) :
  SFdiv prec emax (SFopp X) Y = SFopp (SFdiv prec emax X Y).
Proof.
  destruct X as [sx|sx| |sx mx ex], Y as [sy|sy| |sy my ey]; simpl;
    try reflexivity; rewrite <- ?negb_xorb_l; try reflexivity.
  destruct (SFdiv_core_binary prec emax (Zpos mx) ex (Zpos my) ey)
    as [[mz ez] lz].
  apply binary_round_aux_opp.
Qed.

Lemma SFopp_involutive (X : spec_float) : SFopp (SFopp X) = X.
Proof. destruct X; simpl; rewrite ?negb_involutive; reflexivity. Qed.

Lemma binary_normalize_opp (D e : Z) :
  binary_normalize prec emax (- D) e false
  = SFopp (binary_normalize prec emax D e false)
  \/ binary_normalize prec emax (- D) e false
     = binary_normalize prec emax D e false.
Proof.
  destruct D as [|p|p]; simpl.
  - right. reflexivity.
  - left. apply (binary_round_opp false).
  - left. rewrite (binary_round_opp false), SFopp_involutive. reflexivity.
Qed.

(** Swapping the operands of a subtraction negates the difference, or
    leaves it as it is (a zero or [NaN] difference). *)
Lemma SFsub_swap (X Y : spec_float) :
  SFsub prec emax X Y = SFopp (SFsub prec emax Y X)
  \/ SFsub prec emax X Y = SFsub prec emax Y X.
Proof.
  destruct X as [sx|sx| |sx mx ex], Y as [sy|sy| |sy my ey]; simpl;
    try (left; reflexivity); try (right; reflexivity);
    try (destruct sx, sy; simpl; auto; fail);
    try (rewrite negb_involutive; left; reflexivity).
  rewrite (Z.min_comm ey ex).
  set (A := cond_Zopp sx (Zpos (fst (shl_align mx ex (Z.min ex ey))))).
  set (B := cond_Zopp sy (Zpos (fst (shl_align my ey (Z.min ex ey))))).
  replace (A - B)%Z with (- (B - A))%Z by lia.
  apply binary_normalize_opp.
Qed.

Lemma mul_opp_l (x y : float) : (- x) * y = - (x * y).
Proof.
  apply Prim2SF_inj. rewrite !mul_spec, !opp_spec, mul_spec.
  apply SFmul_opp_l.
Qed.

Lemma mul_comm (x y : float) : x * y = y * x.
Proof. apply Prim2SF_inj. rewrite !mul_spec. apply SFmul_comm. Qed.

Lemma mul_opp_r (x y : float) : x * (- y) = - (x * y).
Proof. rewrite (mul_comm x (- y)), mul_opp_l, (mul_comm y x). reflexivity. Qed.

Lemma div_opp_l (x y : float) : (- x) / y = - (x / y).
Proof.
  apply Prim2SF_inj. rewrite !div_spec, !opp_spec, div_spec.
  apply SFdiv_opp_l.
Qed.

Lemma opp_involutive (x : float) : - (- x) = x.
Proof. apply Prim2SF_inj. rewrite !opp_spec. apply SFopp_involutive. Qed.

Lemma sub_swap (x y : float) : x - y = - (y - x) \/ x - y = y - x.
Proof.
  destruct (SFsub_swap (Prim2SF x) (Prim2SF y)) as [H | H]; [left | right];
    apply Prim2SF_inj; rewrite ?opp_spec, !sub_spec; exact H.
Qed.

End Signs.

(** ** The Haversine distance *)

Section Haversine.

Local Open Scope float_scope.

Variable Math : MathObject.
Hypothesis odd : oddSine Math.

Lemma toRad_opp (d : float) : toRad (- d) = - toRad d.
Proof. unfold toRad. rewrite mul_opp_l, div_opp_l. reflexivity. Qed.

(** The half-angle sine of a difference in degrees. *)
Lemma half_sine_opp (d : float) :
  Math_sin Math (toRad (- d) / 2) = - Math_sin Math (toRad d / 2).
Proof. rewrite toRad_opp, div_opp_l. apply odd. Qed.

Lemma half_sine_square (p d d' : float) :
  d' = - d \/ d' = d ->
  p * Math_sin Math (toRad d' / 2) * Math_sin Math (toRad d' / 2)
  = p * Math_sin Math (toRad d / 2) * Math_sin Math (toRad d / 2)
  /\ Math_sin Math (toRad d' / 2) * Math_sin Math (toRad d' / 2)
     = Math_sin Math (toRad d / 2) * Math_sin Math (toRad d / 2).
Proof.
  intros [-> | ->]; [|split; reflexivity].
  rewrite half_sine_opp.
  rewrite !mul_opp_r, !mul_opp_l, !opp_involutive. split; reflexivity.
Qed.

(** Property X6.  The distance does not depend on the order of its two
    points, as long as [Math.sin] is odd. *)
Theorem haversine_symmetric (coord1 coord2 : LatLng) :
  calculateDistance Math coord1 coord2 = calculateDistance Math coord2 coord1.
Proof.
  unfold calculateDistance.
  set (lat1 := ToNumber (lat coord1)). set (lat2 := ToNumber (lat coord2)).
  set (lng1 := ToNumber (lng coord1)). set (lng2 := ToNumber (lng coord2)).
  destruct (half_sine_square 1 (lat1 - lat2) (lat2 - lat1)
              (sub_swap lat2 lat1)) as [_ ->].
  destruct (half_sine_square
              (Math_cos Math (toRad lat1) * Math_cos Math (toRad lat2))
              (lng1 - lng2) (lng2 - lng1) (sub_swap lng2 lng1)) as [-> _].
  rewrite (mul_comm (Math_cos Math (toRad lat1)) (Math_cos Math (toRad lat2))).
  reflexivity.
Qed.

End Haversine.

(** The symmetry under the first-order stand-in for [Math.sin], on two of
    the sample positions. *)
Lemma haversine_symmetric_witness :
  oddSine linearMath
  /\ calculateDistance linearMath
       {| lat := Num 37; lng := Num (-122) |}
       {| lat := Num 37.01; lng := Num (-122.02) |}
     = calculateDistance linearMath
         {| lat := Num 37.01; lng := Num (-122.02) |}
         {| lat := Num 37; lng := Num (-122) |}.
Proof.
  split; [intros x; reflexivity|].
  apply (haversine_symmetric linearMath); intros x; reflexivity.
Defined.
(** Property X7.  A point is at distance [0] from itself: whenever its
    longitude and its latitude in radians are finite Numbers (as the radians
    of every latitude from -90 to 90 are; a [null] coordinate reads as [0]),
    [Math.sin(0)] is [0], [Math.cos] stays within [-1, 1] on finite
    arguments and [Math.atan2(0, 1)] is [0], the computed distance is
    exactly [+0], so a charger at the very position of its place is within
    every walking threshold that is not negative. *)
Theorem haversine_self_distance (Math : MathObject) (coord : LatLng) :
  Math_sin Math 0 = 0%float ->
  boundedCosine Math ->
  Math_atan2 Math 0 1 = 0%float ->
  is_finite (toRad (ToNumber (lat coord))) = true ->
  is_finite (ToNumber (lng coord)) = true ->
  calculateDistance Math coord coord = 0%float
  /\ forall thr, (0 <=? thr)%float = true ->
                 (calculateDistance Math coord coord <=? thr)%float = true.
Proof.
  intros Hsin Hcos Hatan Hlat Hlng.
  assert (calculateDistance Math coord coord = 0%float) as E
    by (apply calculateDistance_same_point; auto).
  split; [assumption|]. intros thr H. rewrite E. assumption.
Qed.

(** The self-distance of a sample position under the first-order stand-in,
    whose cosine is [NaN] outside the finite Numbers. *)
Lemma haversine_self_distance_witness :
  boundedCosine linearMath
  /\ Math_cos linearMath nan = nan
  /\ Math_cos linearMath infinity = nan
  /\ calculateDistance linearMath
       {| lat := Num 37.01; lng := Num (-122.02) |}
       {| lat := Num 37.01; lng := Num (-122.02) |}
     = 0%float.
Proof.
  assert (boundedCosine linearMath) as B
    by (intros x H; simpl; rewrite H; reflexivity).
  split; [exact B|]. split; [reflexivity|]. split; [reflexivity|].
  exact (proj1 (haversine_self_distance linearMath
                  {| lat := Num 37.01; lng := Num (-122.02) |}
                  eq_refl B eq_refl
                  (toRad_latitude_finite 37.01 eq_refl) eq_refl)).
Defined.

(** ** Sorting by a key *)

Section SortByKey.

Local Open Scope float_scope.

Context {A : Type}.
Variable cmp : A -> A -> float.
Variable key : A -> float.

Hypothesis cmp_key :
  forall x y, (0 <? cmp x y) = (key y <? key x).
Hypothesis key_not_nan : forall x, is_nan (key x) = false.

Lemma insertSorted_perm (x : A) (s : list A) :
  Permutation (JS.insertSorted cmp x s) (x :: s).
Proof.
  induction s as [|y s IH]; simpl; [apply Permutation_refl|].
  destruct (0 <? cmp x y); [|apply Permutation_refl].
  eapply Permutation_trans; [apply perm_skip, IH | apply perm_swap].
Qed.

Lemma Array_sort_perm (l : list A) : Permutation (JS.Array_sort cmp l) l.
Proof.
  induction l as [|x l IH]; simpl; [apply Permutation_refl|].
  eapply Permutation_trans; [apply insertSorted_perm | apply perm_skip, IH].
Qed.

Lemma insertSorted_ascending (x : A) (s : list A) :
  ascending key s -> ascending key (JS.insertSorted cmp x s).
Proof.
  unfold ascending. induction 1 as [|y s Hs IH Hy]; simpl.
  - constructor; constructor.
  - rewrite cmp_key. destruct (key y <? key x) eqn:E.
    + constructor; [assumption|].
      apply Forall_forall. intros z Hz. apply insertSorted_In in Hz.
      destruct Hz as [-> | Hz]; [apply ltb_leb; assumption|].
      rewrite Forall_forall in Hy. auto.
    + pose proof (ltb_false_leb _ _ (key_not_nan y) (key_not_nan x) E) as L.
      constructor; [constructor; assumption|].
      constructor; [assumption|].
      eapply Forall_impl; [|exact Hy].
      intros z Hz. simpl in Hz. eapply leb_trans; eassumption.
Qed.

Lemma Array_sort_ascending (l : list A) : ascending key (JS.Array_sort cmp l).
Proof.
  induction l as [|x l IH]; simpl; [constructor|].
  apply insertSorted_ascending. assumption.
Qed.

(** Stability: the elements of one key keep their order. *)
Lemma insertSorted_withKey (k : float) (x : A) (s : list A) :
  withKey key k (JS.insertSorted cmp x s) = withKey key k (x :: s).
Proof.
  unfold withKey. induction s as [|y s IH]; simpl; [reflexivity|].
  rewrite cmp_key. destruct (key y <? key x) eqn:E; [|reflexivity].
  simpl. rewrite IH. simpl.
  destruct (key x =? k) eqn:Ex, (key y =? k) eqn:Ey; try reflexivity.
  exfalso. apply eqb_iff in Ex, Ey. apply ltb_iff in E.
  destruct Ex as (_ & _ & Ex), Ey as (_ & _ & Ey), E as (_ & _ & E).
  rewrite Ex, Ey in E. lex.
Qed.

Lemma Array_sort_withKey (k : float) (l : list A) :
  withKey key k (JS.Array_sort cmp l) = withKey key k l.
Proof.
  induction l as [|x l IH]; simpl; [reflexivity|].
  rewrite insertSorted_withKey. unfold withKey in *. simpl. rewrite IH.
  reflexivity.
Qed.

(** An array that is in order already is left as it is. *)
Lemma Array_sort_fixed (l : list A) :
  ascending key l -> JS.Array_sort cmp l = l.
Proof.
  unfold ascending. induction 1 as [|x l Hl IH Hx]; simpl; [reflexivity|].
  rewrite IH. destruct l as [|y l]; simpl; [reflexivity|].
  rewrite cmp_key. inversion Hx as [|? ? Hxy _]; subst.
  rewrite (leb_ltb_false _ _ Hxy). reflexivity.
Qed.

Lemma Array_sort_idempotent (l : list A) :
  JS.Array_sort cmp (JS.Array_sort cmp l) = JS.Array_sort cmp l.
Proof. apply Array_sort_fixed, Array_sort_ascending. Qed.

End SortByKey.

(** ** The two place sorts *)

Section PlaceSorts.

Local Open Scope float_scope.

Lemma orInfinity_not_nan (v : JsNumber) : is_nan (orInfinity v) = false.
Proof.
  destruct v as [| |x]; try reflexivity. unfold orInfinity, JS.truthy.
  destruct (is_zero x); simpl; [reflexivity|].
  destruct (is_nan x) eqn:E; simpl; [reflexivity | assumption].
Qed.

Lemma byDistance_key (distances : DistanceMap) (a b : Place.t) :
  (0 <? byDistance distances a b)
  = (sortKey distances b <? sortKey distances a).
Proof.
  unfold byDistance. fold (sortKey distances a) (sortKey distances b).
  pose proof (sub_positive (sortKey distances b) (sortKey distances a)
                (orInfinity_not_nan _) (orInfinity_not_nan _)) as S.
  destruct (0 <? sortKey distances a - sortKey distances b),
    (sortKey distances b <? sortKey distances a); try reflexivity.
  - symmetry. apply S. reflexivity.
  - apply S. reflexivity.
Qed.

Lemma sortKey_not_nan (distances : DistanceMap) (p : Place.t) :
  is_nan (sortKey distances p) = false.
Proof. apply orInfinity_not_nan. Qed.

End PlaceSorts.

(** Property X8.  Both place sorts, the one of [loadDataFromLocation] and
    the one of the filter effect, return the places they were given, each
    once, in ascending order of the key [distanceValue || Infinity], the
    places of one key staying in the order they had (two places without a
    usable distance, both keyed [Infinity], compare as [NaN] and are not
    swapped). *)
Theorem place_sorts_ascending_and_stable (distances : DistanceMap)
  (l : list Place.t) :
  let sorted := JS.Array_sort (byDistance distances) l in
  Permutation sorted l
  /\ ascending (sortKey distances) sorted
  /\ (forall k, withKey (sortKey distances) k sorted
               = withKey (sortKey distances) k l)
  /\ JS.Array_sort (byDistance distances) sorted = sorted.
Proof.
  cbv zeta.
  pose proof (byDistance_key distances) as K.
  pose proof (sortKey_not_nan distances) as N.
  split; [apply Array_sort_perm|].
  split; [apply (Array_sort_ascending _ _ K N)|].
  split; [intros k; apply (Array_sort_withKey _ _ K)|].
  apply (Array_sort_idempotent _ _ K N).
Qed.

(** ** The distance map *)

Section DistanceMapFacts.

Lemma buildDistanceMap_other (placeResults : list Place.t)
  (distanceResults : list DistanceResult.t) (id : string) :
  ~ In id (map Place.place_id placeResults) ->
  forall index distanceMap,
    List.find (fun kv => (fst kv =? id)%string)
      (buildDistanceMap placeResults distanceResults index distanceMap)
    = List.find (fun kv => (fst kv =? id)%string) distanceMap.
Proof.
  induction placeResults as [|p rest IH]; intros Hid index distanceMap; simpl;
    [reflexivity|].
  rewrite IH by (intros H; apply Hid; right; assumption). simpl.
  destruct (String.eqb_spec (Place.place_id p) id) as [E|N]; [|reflexivity].
  exfalso. apply Hid. left. assumption.
Qed.

Lemma buildDistanceMap_last (pre : list Place.t) (p : Place.t)
  (post : list Place.t) (distanceResults : list DistanceResult.t) :
  ~ In (Place.place_id p) (map Place.place_id post) ->
  forall index distanceMap,
    List.find (fun kv => (fst kv =? Place.place_id p)%string)
      (buildDistanceMap (pre ++ p :: post) distanceResults index distanceMap)
    = Some (Place.place_id p,
            nth_error distanceResults (index + List.length pre)).
Proof.
  intros Hpost. induction pre as [|q pre IH]; intros index distanceMap; simpl.
  - rewrite buildDistanceMap_other by assumption. simpl.
    rewrite String.eqb_refl, Nat.add_0_r. reflexivity.
  - rewrite IH. do 3 f_equal. lia.
Qed.

End DistanceMapFacts.

(** Property X9.  [distanceMap[id]] after the [forEach] that fills it: an id
    that no place carries reads [undefined]; the id of a place reads the
    distance result at the index of the last place that carries it (a later
    assignment overwrites an earlier one), or [undefined] when the distance
    results are too short to have that index. *)
Theorem distance_map_lookup (placeResults : list Place.t)
  (distanceResults : list DistanceResult.t) :
  let distanceMap := buildDistanceMap placeResults distanceResults 0 [] in
  (forall id, ~ In id (map Place.place_id placeResults) ->
              distanceValueOf distanceMap id = Undefined)
  /\ (forall index p,
        nth_error placeResults index = Some p ->
        (forall later q, index < later ->
                         nth_error placeResults later = Some q ->
                         Place.place_id q <> Place.place_id p) ->
        distanceValueOf distanceMap (Place.place_id p)
        = match nth_error distanceResults index with
          | Some r => DistanceResult.distanceValue r
          | None => Undefined
          end).
Proof.
  cbv zeta. split.
  - intros id Hid. unfold distanceValueOf.
    rewrite buildDistanceMap_other by assumption. reflexivity.
  - intros index p Hp Hlast.
    destruct (nth_error_split _ _ Hp) as (pre & post & E & Hlen).
    unfold distanceValueOf. rewrite E, buildDistanceMap_last.
    + rewrite Hlen. reflexivity.
    + intros Hin. apply in_map_iff in Hin. destruct Hin as (q & Hq & Hin).
      apply In_nth_error in Hin. destruct Hin as [n Hn].
      apply (Hlast (S (index + n)) q); [lia| |assumption].
      rewrite E, nth_error_app2 by lia.
      replace (S (index + n) - List.length pre) with (S n) by lia.
      exact Hn.
Qed.

(** ** The distance matrix *)

Section DistanceMatrixFacts.

Local Open Scope string_scope.

Lemma mapElements_nth (destinations : list LatLng)
  (elements : list DistanceMatrix.Element.t) :
  forall (index : nat) (results : list DistanceResult.t),
  DistanceMatrix.mapElements destinations index elements = Some results ->
  List.length results = List.length elements
  /\ forall i element,
       nth_error elements i = Some element ->
       exists r, nth_error results i = Some r
                 /\ DistanceMatrix.resultOf destinations (index + i) element
                    = Some r.
Proof.
  induction elements as [|e rest IH]; intros index results; simpl.
  - intros [= <-]. split; [reflexivity|]. intros [|i] element; discriminate.
  - destruct (DistanceMatrix.resultOf destinations index e) as [r|] eqn:R;
      [|discriminate].
    destruct (DistanceMatrix.mapElements destinations (S index) rest)
      as [rs|] eqn:M; [|discriminate].
    intros [= <-]. destruct (IH _ _ M) as [Hlen Hnth].
    split; [simpl; congruence|].
    intros [|i] element; simpl.
    + intros [= <-]. exists r. rewrite Nat.add_0_r. auto.
    + intros Hi. destruct (Hnth i element Hi) as (r' & H1 & H2).
      exists r'. split; [assumption|].
      rewrite <- H2. f_equal. lia.
Qed.

Lemma resultOf_failed (destinations : list LatLng) (index : nat)
  (element : DistanceMatrix.Element.t) (r : DistanceResult.t) :
  DistanceMatrix.Element.status element <> "OK" ->
  DistanceMatrix.resultOf destinations index element = Some r ->
  DistanceResult.distanceValue r = Null
  /\ DistanceResult.durationValue r = Null
  /\ DistanceResult.distance r = "N/A"
  /\ DistanceResult.duration r = "N/A".
Proof.
  intros Hs. unfold DistanceMatrix.resultOf.
  destruct (String.eqb_spec (DistanceMatrix.Element.status element) "OK");
    [contradiction|].
  intros [= <-]. repeat split.
Qed.

Lemma resultOf_ok (destinations : list LatLng) (index : nat)
  (element : DistanceMatrix.Element.t) (r : DistanceResult.t) :
  DistanceMatrix.Element.status element = "OK" ->
  DistanceMatrix.resultOf destinations index element = Some r ->
  exists distance,
    DistanceMatrix.Element.distance element = Some distance
    /\ DistanceResult.distanceValue r
       = DistanceMatrix.TextValue.value distance.
Proof.
  intros Hs. unfold DistanceMatrix.resultOf. rewrite Hs. simpl.
  destruct (DistanceMatrix.Element.distance element) as [d|]; [|discriminate].
  destruct (DistanceMatrix.Element.duration element) as [t|]; [|discriminate].
  intros [= <-]. exists d. auto.
Qed.

(** Property X10.  When the distance matrix answers, there is one result for
    each element, in order; an element whose own status is not ['OK'] gives
    the texts ['N/A'] and the values [null], an element that is ['OK'] gives
    its distance value.  A place whose element failed is therefore kept by
    the radius test of [loadDataFromLocation], whatever the radius, and is
    keyed [Infinity], the greatest key, by the sorts. *)
Theorem unresolved_distance_keeps_place (destinations : list LatLng)
  (elements : list DistanceMatrix.Element.t)
  (results : list DistanceResult.t) :
  DistanceMatrix.getMultipleDistances destinations "OK" elements
  = Some results ->
  List.length results = List.length elements
  /\ (forall index element,
        nth_error elements index = Some element ->
        exists r,
          nth_error results index = Some r
          /\ (DistanceMatrix.Element.status element <> "OK" ->
              DistanceResult.distanceValue r = Null
              /\ DistanceResult.distance r = "N/A")
          /\ (DistanceMatrix.Element.status element = "OK" ->
              exists distance,
                DistanceMatrix.Element.distance element = Some distance
                /\ DistanceResult.distanceValue r
                   = DistanceMatrix.TextValue.value distance))
  /\ (forall filters placeResults index place element,
        NoDup (map Place.place_id placeResults) ->
        nth_error placeResults index = Some place ->
        nth_error elements index = Some element ->
        DistanceMatrix.Element.status element <> "OK" ->
        let distanceMap := buildDistanceMap placeResults results 0 [] in
        placeWithinRadius filters distanceMap place = true
        /\ sortKey distanceMap place = infinity).
Proof.
  unfold DistanceMatrix.getMultipleDistances. simpl. intros H.
  destruct (mapElements_nth _ _ _ _ H) as [Hlen Hnth]. simpl in Hnth.
  split; [assumption|]. split.
  - intros index element He.
    destruct (Hnth index element He) as (r & Hr & Hres).
    exists r. split; [assumption|]. split.
    + intros Hs. destruct (resultOf_failed _ _ _ _ Hs Hres) as (? & _ & ? & _).
      auto.
    + intros Hs. exact (resultOf_ok _ _ _ _ Hs Hres).
  - intros filters placeResults index place element Hnd Hp He Hs. cbv zeta.
    destruct (Hnth index element He) as (r & Hr & Hres).
    destruct (resultOf_failed _ _ _ _ Hs Hres) as (Hv & _).
    destruct (nth_error_split _ _ Hp) as (pre & post & E & Hpre).
    assert (distanceValueOf (buildDistanceMap placeResults results 0 [])
              (Place.place_id place) = Null) as Hd.
    { unfold distanceValueOf. rewrite E, buildDistanceMap_last.
      - simpl. rewrite Hpre, Hr. assumption.
      - rewrite E, map_app in Hnd. apply NoDup_app_remove_l in Hnd.
        simpl in Hnd. apply NoDup_cons_iff in Hnd. tauto. }
    unfold placeWithinRadius, sortKey. rewrite Hd. split; reflexivity.
Qed.

(** A response whose own status is not ['OK'] is rejected. *)
Lemma getMultipleDistances_rejected (destinations : list LatLng)
  (status : string) (elements : list DistanceMatrix.Element.t) :
  status <> "OK" ->
  DistanceMatrix.getMultipleDistances destinations status elements = None.
Proof.
  intros H. unfold DistanceMatrix.getMultipleDistances.
  destruct (String.eqb_spec status "OK"); [contradiction | reflexivity].
Qed.

(** Two places, a route to the first one only. *)
Lemma unresolved_distance_keeps_place_witness :
  exists results,
    DistanceMatrix.getMultipleDistances (map locationOf hereAndThere) "OK"
      [routeOf 500; noRoute] = Some results
    /\ List.length results = 2
    /\ map DistanceResult.distanceValue results = [Num 500; Null].
Proof.
  eexists. split; [reflexivity|].
  split; [|reflexivity].
  exact (proj1 (unresolved_distance_keeps_place
                  (map locationOf hereAndThere) [routeOf 500; noRoute] _
                  eq_refl)).
Defined.

End DistanceMatrixFacts.

(** ** The outcomes of a load *)

Section LoadOutcomes.

Variable Math : MathObject.

Lemma ascending_map {A : Type} (key : A -> float) (f : A -> A) (l : list A) :
  (forall a, key (f a) = key a) ->
  ascending key l -> ascending key (map f l).
Proof.
  intros Hf. unfold ascending. induction 1 as [|x l Hl IH Hx]; simpl.
  - constructor.
  - constructor; [assumption|].
    apply Forall_forall. intros y Hy. apply in_map_iff in Hy.
    destruct Hy as (z & <- & Hz). rewrite !Hf.
    rewrite Forall_forall in Hx. auto.
Qed.

Lemma correlate_thrown (thr : float) (placeResults : list Place.t)
  (chargerResults : list (list OCM.Charger.t)) :
  forall index,
  correlate Math thr (map locationOf placeResults) placeResults index
    chargerResults = None ->
  List.length placeResults < index + List.length chargerResults.
Proof.
  induction chargerResults as [|raws rest IH]; intros index; simpl;
    [discriminate|].
  destruct (attachChargers Math thr (map locationOf placeResults) placeResults
              index raws) as [cs|] eqn:A.
  - destruct (correlate Math thr _ placeResults (S index) rest) eqn:C;
      [discriminate|].
    intros _. specialize (IH (S index) C). lia.
  - intros _. unfold attachChargers in A.
    destruct (map parseChargerData raws); [discriminate|].
    destruct (nth_error placeResults index) as [place|] eqn:P.
    + rewrite nth_error_map, P in A. discriminate.
    + apply nth_error_None in P. lia.
Qed.

End LoadOutcomes.

(** Property X11.  The four outcomes of [loadDataFromLocation].  It reports
    that no location was found exactly when the search returned nothing, and
    that none is within the radius exactly when the search returned places
    and none passes the radius test.  It can throw only when there are more
    charger lists than places.  When it goes through, the places it shows
    are exactly the places that pass the radius test, each once, in
    ascending order of their sort key, each counting the chargers attached
    to its id. *)
Theorem load_outcome_cases (Math : MathObject) (filters : Filters.t)
  (placeResults : list Place.t) (distanceResults : list DistanceResult.t)
  (chargerResults : list (list OCM.Charger.t)) :
  let outcome := loadDataFromLocation Math filters placeResults
                   distanceResults chargerResults in
  let distanceMap := buildDistanceMap placeResults distanceResults 0 [] in
  let within := placeWithinRadius filters distanceMap in
  (outcome = NoLocationsFound <-> placeResults = [])
  /\ (outcome = NoLocationsWithinRadius <->
      placeResults <> [] /\ forall p, In p placeResults -> within p = false)
  /\ (outcome = Thrown ->
      List.length placeResults < List.length chargerResults)
  /\ (forall distances places chargers,
        outcome = Loaded distances places chargers ->
        distances = distanceMap
        /\ Permutation (map Place.place_id places)
             (map Place.place_id (filter within placeResults))
        /\ ascending (sortKey distanceMap) places
        /\ (forall p, In p places -> within p = true)
        /\ (forall p, In p places ->
              Place.chargerCount p
              = Some (List.length
                        (filter (attachedTo (Place.place_id p)) chargers)))).
Proof.
  cbv zeta. unfold loadDataFromLocation.
  fold (searchRadiusMeters filters).
  set (distanceMap := buildDistanceMap placeResults distanceResults 0 []).
  change (fun place : Place.t =>
            withinRadius (searchRadiusMeters filters)
              (distanceValueOf distanceMap (Place.place_id place)))
    with (placeWithinRadius filters distanceMap).
  set (within := placeWithinRadius filters distanceMap).
  destruct placeResults as [|p0 ps0].
  { repeat split; try discriminate; tauto. }
  cbv beta iota.
  assert (p0 :: ps0 <> []) as Hne by discriminate.
  set (placeResults := p0 :: ps0) in *. clearbody placeResults.
  destruct (filter within placeResults) as [|w ws] eqn:EW.
  { assert (forall p, In p placeResults -> within p = false) as Hnone.
    { intros p Hp. destruct (within p) eqn:E; [|reflexivity].
      assert (In p (filter within placeResults)) as F
        by (apply filter_In; auto).
      rewrite EW in F. contradiction. }
    repeat split; try discriminate; tauto. }
  rewrite <- EW in *.
  assert (exists q, In q placeResults /\ within q = true) as (q & Hq & Hwq).
  { exists w. apply filter_In. rewrite EW. left. reflexivity. }
  clear EW w ws.
  destruct (correlate Math _ _ placeResults 0 chargerResults) as [all|] eqn:C.
  - split; [split; [discriminate | congruence]|].
    split.
    { split; [discriminate|]. intros [_ H]. rewrite (H q Hq) in Hwq.
      discriminate. }
    split; [discriminate|].
    intros distances places chargers [= <- <- <-].
    split; [reflexivity|].
    set (sorted := JS.Array_sort (byDistance distanceMap)
                     (filter within placeResults)).
    assert (Permutation sorted (filter within placeResults)) as Hperm
      by apply Array_sort_perm.
    split; [|split; [|split]].
    + rewrite map_map. simpl. apply Permutation_map. assumption.
    + apply ascending_map; [reflexivity|].
      apply (Array_sort_ascending _ _ (byDistance_key distanceMap)
               (sortKey_not_nan distanceMap)).
    + intros p Hp. apply in_map_iff in Hp. destruct Hp as (r & <- & Hr).
      apply (Permutation_in _ Hperm) in Hr. apply filter_In in Hr.
      exact (proj2 Hr).
    + intros p Hp. apply in_map_iff in Hp. destruct Hp as (r & <- & Hr).
      reflexivity.
  - apply correlate_thrown in C.
    split; [split; [discriminate | congruence]|].
    split.
    { split; [discriminate|]. intros [_ H]. rewrite (H q Hq) in Hwq.
      discriminate. }
    split; [intros _; lia | discriminate].
Qed.

(** ** The filter effect run again *)

Section EffectAgain.

Variable Math : MathObject.

Lemma applyFilters_run (st : State) :
  places st <> [] -> chargers st <> [] ->
  applyFilters Math st =
  let filtered :=
    applyCriteria Math (filters st) (places st) (chargers st) in
  let sortedPlaces := resortPlaces st filtered in
  let newSignature := signatureOf sortedPlaces in
  if negb (previousPlacesSignature st =? newSignature)%string then
    {| places := sortedPlaces; chargers := chargers st;
       filteredChargers := filtered;
       distances := distances st; filters := filters st;
       previousPlacesSignature := newSignature |}
  else
    {| places := places st; chargers := chargers st;
       filteredChargers := filtered;
       distances := distances st; filters := filters st;
       previousPlacesSignature := previousPlacesSignature st |}.
Proof.
  intros Hp Hc. unfold applyFilters.
  destruct (places st); [congruence|]. destruct (chargers st); [congruence|].
  reflexivity.
Qed.

Lemma find_all_false {A : Type} (f : A -> bool) (l : list A) :
  (forall x, In x l -> f x = false) -> List.find f l = None.
Proof.
  induction l as [|x l IH]; intros H; simpl; [reflexivity|].
  rewrite (H x (or_introl eq_refl)). apply IH. intros y Hy. apply H.
  right. assumption.
Qed.

Lemma attachedTo_id (id id' : string) (c : Charger.t) :
  attachedTo id c = true -> attachedTo id' c = true -> id = id'.
Proof.
  unfold attachedTo. destruct (Charger.placeId c) as [p|]; [|discriminate].
  intros H1 H2. apply String.eqb_eq in H1, H2. congruence.
Qed.

(** The owning place of a charger among places with distinct ids does not
    depend on their order, nor on their annotations. *)
Lemma find_owner_permuted (u : Place.t -> Place.t) (l l' : list Place.t)
  (c : Charger.t) :
  (forall p, Place.place_id (u p) = Place.place_id p) ->
  NoDup (map Place.place_id l) ->
  Permutation l' (map u l) ->
  JS.Array_find (fun p => attachedTo (Place.place_id p) c) l'
  = option_map u
      (JS.Array_find (fun p => attachedTo (Place.place_id p) c) l).
Proof.
  intros Hu Hnd Hperm. unfold JS.Array_find.
  destruct (List.find _ l) as [p|] eqn:F; simpl.
  - apply find_some in F. destruct F as [Hp Hcp].
    destruct (List.find _ l') as [q|] eqn:F'.
    + apply find_some in F'. destruct F' as [Hq Hcq].
      apply (Permutation_in _ Hperm) in Hq. apply in_map_iff in Hq.
      destruct Hq as (p' & <- & Hp'). f_equal. f_equal.
      rewrite Hu in Hcq. pose proof (attachedTo_id _ _ _ Hcq Hcp) as E.
      clear -Hnd Hp Hp' E. induction l as [|x l IH]; [contradiction|].
      simpl in Hnd. apply NoDup_cons_iff in Hnd. destruct Hnd as [Hx Hnd].
      destruct Hp as [-> | Hp], Hp' as [-> | Hp']; auto.
      * exfalso. apply Hx. rewrite <- E. apply in_map. assumption.
      * exfalso. apply Hx. rewrite E. apply in_map. assumption.
    + exfalso. pose proof (find_none _ _ F' (u p)) as N. simpl in N.
      rewrite Hu, Hcp in N. discriminate N.
      apply (Permutation_in _ (Permutation_sym Hperm)). apply in_map.
      assumption.
  - apply find_all_false. intros q Hq.
    apply (Permutation_in _ Hperm) in Hq. apply in_map_iff in Hq.
    destruct Hq as (p & <- & Hp). rewrite Hu.
    exact (find_none _ _ F p Hp).
Qed.

Lemma applyCriteria_permuted (f : Filters.t) (u : Place.t -> Place.t)
  (l l' : list Place.t) (cs : list Charger.t) :
  (forall p, Place.place_id (u p) = Place.place_id p) ->
  (forall p, Place.geometry_location (u p) = Place.geometry_location p) ->
  NoDup (map Place.place_id l) ->
  Permutation l' (map u l) ->
  applyCriteria Math f l' cs = applyCriteria Math f l cs.
Proof.
  intros Hid Hloc Hnd Hperm. unfold applyCriteria.
  apply filter_ext. intros c. unfold passesWalkingTime.
  rewrite (find_owner_permuted u l l' c Hid Hnd Hperm).
  destruct (JS.Array_find _ l) as [p|]; simpl; [|reflexivity].
  rewrite Hloc. reflexivity.
Qed.

Lemma resort_again (distances : DistanceMap) (filtered : list Charger.t)
  (l : list Place.t) :
  let sorted :=
    JS.Array_sort (byDistance distances) (map (updatePlace filtered) l) in
  JS.Array_sort (byDistance distances) (map (updatePlace filtered) sorted)
  = sorted.
Proof.
  cbv zeta.
  rewrite <- (Array_sort_map (updatePlace filtered) (byDistance distances)
                (byDistance distances)) by reflexivity.
  rewrite map_map.
  apply (Array_sort_idempotent _ _ (byDistance_key distances)
           (sortKey_not_nan distances)).
Qed.

End EffectAgain.

(** Property X12.  The filter effect depends on the places it sets, so React
    runs it again after it has set them.  As long as the places carry
    distinct ids, the second run changes nothing: the filtered chargers, the
    places, their order and the stored signature are those of the first run. *)
Theorem filter_effect_settles (Math : MathObject) (st : State) :
  NoDup (map Place.place_id (places st)) ->
  applyFilters Math (applyFilters Math st) = applyFilters Math st.
Proof.
  intros Hnd.
  destruct (chargers st) as [|c0 cs0] eqn:EC.
  { assert (forall s, chargers s = [] ->
                      applyFilters Math s
                      = {| places := places s; chargers := [];
                           filteredChargers := [];
                           distances := distances s; filters := filters s;
                           previousPlacesSignature :=
                             previousPlacesSignature s |}) as NC.
    { intros s H. unfold applyFilters. rewrite H.
      destruct (places s); reflexivity. }
    rewrite (NC st EC). rewrite NC by reflexivity. reflexivity. }
  destruct (places st) as [|p0 ps0] eqn:EP.
  { unfold applyFilters at 2. rewrite EP, EC.
    unfold applyFilters. rewrite EP, EC. reflexivity. }
  assert (places st <> []) as Hp by congruence.
  assert (chargers st <> []) as Hc by congruence.
  rewrite <- EP in Hnd. clear EP EC p0 ps0 c0 cs0.
  rewrite (applyFilters_run Math st Hp Hc). cbv zeta.
  set (filtered := applyCriteria Math (filters st) (places st) (chargers st)).
  set (sorted := resortPlaces st filtered).
  destruct (previousPlacesSignature st =? signatureOf sorted)%string eqn:ES;
    simpl negb; cbv iota.
  - (* the places were left alone: the second run computes the same *)
    rewrite applyFilters_run by assumption. cbv zeta. simpl.
    fold filtered.
    change (resortPlaces _ filtered) with sorted.
    rewrite ES. reflexivity.
  - (* the places were set to [sorted] *)
    assert (Permutation sorted (map (updatePlace filtered) (places st)))
      as Hperm by apply Array_sort_perm.
    assert (sorted <> []) as Hs.
    { intros E. rewrite E in Hperm. apply Permutation_nil in Hperm.
      destruct (places st); [congruence | discriminate]. }
    rewrite applyFilters_run by assumption. cbv zeta. simpl.
    assert (applyCriteria Math (filters st) sorted (chargers st) = filtered)
      as ->.
    { apply (applyCriteria_permuted Math (filters st) (updatePlace filtered));
        auto. }
    assert (resortPlaces
              {| places := sorted; chargers := chargers st;
                 filteredChargers := filtered; distances := distances st;
                 filters := filters st;
                 previousPlacesSignature := signatureOf sorted |} filtered
            = sorted) as ->.
    { unfold resortPlaces. simpl. apply resort_again. }
    rewrite String.eqb_refl. reflexivity.
Qed.

(** The second run on the two sample places. *)
Lemma filter_effect_settles_witness :
  NoDup (map Place.place_id (places hereAndThereState))
  /\ applyFilters approxMath (applyFilters approxMath hereAndThereState)
     = applyFilters approxMath hereAndThereState.
Proof.
  assert (NoDup (map Place.place_id (places hereAndThereState))) as H.
  { simpl. repeat constructor; simpl; intuition discriminate. }
  split; [exact H|].
  exact (filter_effect_settles approxMath hereAndThereState H).
Defined.

(** ** What the filter effect leaves alone *)

Section EffectInvariants.

Variable Math : MathObject.

Lemma featuredOf_among (l : list Charger.t) :
  (featuredOf l = None <-> l = [])
  /\ forall c, featuredOf l = Some c -> In c l.
Proof.
  unfold featuredOf. split.
  - apply sort_head_none.
  - intros c H. apply (Array_sort_In byFeatured).
    destruct (JS.Array_sort byFeatured l); [discriminate|].
    injection H as <-. left. reflexivity.
Qed.

(** Property X13.  One run of the effect never touches the loaded chargers,
    the distance map or the criteria, and never adds, drops or duplicates a
    place.  It either leaves the places as they are, or sets them, stores
    their signature, and then they are in ascending order of their sort key,
    each counting the filtered chargers attached to it and featuring one of
    them, none exactly when it has none. *)
Theorem filter_effect_preserves (st : State) :
  let st' := applyFilters Math st in
  chargers st' = chargers st
  /\ distances st' = distances st
  /\ filters st' = filters st
  /\ Permutation (map Place.place_id (places st'))
       (map Place.place_id (places st))
  /\ (places st' = places st
      \/ (previousPlacesSignature st' = signatureOf (places st')
          /\ ascending (sortKey (distances st)) (places st')
          /\ forall p, In p (places st') ->
               let mine :=
                 filter (attachedTo (Place.place_id p))
                        (filteredChargers st') in
               Place.chargerCount p = Some (List.length mine)
               /\ (Place.featuredCharger p = None <-> mine = [])
               /\ forall c, Place.featuredCharger p = Some c -> In c mine)).
Proof.
  cbv zeta.
  destruct (chargers st) as [|c0 cs0] eqn:EC.
  { unfold applyFilters. rewrite EC.
    destruct (places st); simpl; auto 10 using Permutation_refl. }
  destruct (places st) as [|p0 ps0] eqn:EP.
  { unfold applyFilters. rewrite EP, EC. rewrite EP, EC.
    auto 10 using Permutation_refl. }
  rewrite <- EP, <- EC.
  rewrite applyFilters_run by congruence. cbv zeta.
  set (filtered := applyCriteria Math (filters st) (places st) (chargers st)).
  set (sorted := resortPlaces st filtered).
  destruct (negb (previousPlacesSignature st =? signatureOf sorted)%string);
    simpl; [|auto 10 using Permutation_refl].
  assert (Permutation sorted (map (updatePlace filtered) (places st)))
    as Hperm by apply Array_sort_perm.
  repeat split; try reflexivity.
  - apply (Permutation_map Place.place_id) in Hperm.
    rewrite map_map in Hperm. exact Hperm.
  - right. split; [reflexivity|]. split.
    + apply (Array_sort_ascending _ _ (byDistance_key (distances st))
               (sortKey_not_nan (distances st))).
    + intros p Hp. apply (Permutation_in _ Hperm) in Hp.
      apply in_map_iff in Hp. destruct Hp as (q & <- & _).
      unfold updatePlace. simpl.
      destruct (featuredOf_among
                  (filter (attachedTo (Place.place_id q)) filtered))
        as [H1 H2].
      auto.
Qed.

End EffectInvariants.

(** ** The range of the minutes label *)

Section MinutesLabel.

Local Open Scope string_scope.

(** Property X14.  Between one minute and an hour the label is "N min" with
    [N] from 1 to 60: never "0 min", and "60 min" rather than "1 hr" from
    59.5 minutes on. *)
Theorem walking_minutes_label_range (distanceKm : float) :
  (walkingMinutes distanceKm <? 1)%float = false ->
  (walkingMinutes distanceKm <? 60)%float = true ->
  exists N : Z,
    (1 <= N <= 60)%Z
    /\ calculateWalkingTime distanceKm = JS.decimal N ++ " min".
Proof.
  intros H1 H60. unfold calculateWalkingTime. rewrite H1, H60.
  destruct (minutes_finite _ H1 H60) as [v Hv].
  destruct (exactValue_minutes _ v H1 H60 Hv) as [Hlo Hhi].
  destruct (Math_round_nearest _ v Hv) as (N & -> & Rlo & Rhi).
  assert (1 <= N <= 60)%Z as HN
    by (destruct v as [vn vd]; unfold Qle, Qlt in *; simpl in *; nia).
  exists N. split; [assumption|].
  rewrite toString_small by lia. reflexivity.
Qed.

(** A walk of 4.964 km, about 59.7 minutes, is labelled "60 min". *)
Lemma walking_minutes_label_range_witness :
  (walkingMinutes 4.964 <? 1)%float = false
  /\ (walkingMinutes 4.964 <? 60)%float = true
  /\ calculateWalkingTime 4.964 = "60 min"
  /\ exists N : Z,
       (1 <= N <= 60)%Z
       /\ calculateWalkingTime 4.964 = JS.decimal N ++ " min".
Proof.
  split; [reflexivity|]. split; [reflexivity|]. split; [reflexivity|].
  exact (walking_minutes_label_range 4.964 eq_refl eq_refl).
Defined.

(** Past the hour the remaining minutes are rounded on their own: about
    119.7 minutes are labelled "1 hr 60 min". *)
Lemma remaining_minutes_round_up :
  calculateWalkingTime 9.953 = "1 hr 60 min".
Proof. reflexivity. Qed.

End MinutesLabel.

(** ** The connector selection *)

Section ConnectorSelection.

Lemma existsb_eqb (x : string) (l : list string) :
  existsb (String.eqb x) l = true <-> In x l.
Proof.
  rewrite existsb_exists. split.
  - intros (y & Hy & E). apply String.eqb_eq in E. subst. assumption.
  - intros H. exists x. split; [assumption | apply String.eqb_refl].
Qed.

Lemma newSet_spec (array : list string) :
  forall set, NoDup set ->
  NoDup (FilterPanel.newSet array set)
  /\ forall x, In x (FilterPanel.newSet array set) <-> In x set \/ In x array.
Proof.
  induction array as [|a rest IH]; intros set Hset; simpl.
  - split; [assumption | tauto].
  - destruct (existsb (String.eqb a) set) eqn:E.
    + apply existsb_eqb in E.
      destruct (IH set Hset) as [Hnd Hin]. split; [assumption|].
      intros x. rewrite Hin. intuition (subst; auto).
    + assert (~ In a set) as Ha
        by (intros H; apply existsb_eqb in H; congruence).
      assert (NoDup (set ++ [a])) as Hnd'.
      { apply NoDup_app; [assumption | repeat constructor; intros [] |].
        intros x Hx [<- | []]. contradiction. }
      destruct (IH _ Hnd') as [Hnd Hin]. split; [assumption|].
      intros x. rewrite Hin, in_app_iff. simpl. tauto.
Qed.

(** The connector predicate of the effect sees the selection as a set. *)
Lemma passesConnectors_ext (f g : Filters.t) (c : Charger.t) :
  (forall name, In name (Filters.connectors f)
                <-> In name (Filters.connectors g)) ->
  passesConnectors f c = passesConnectors g c.
Proof.
  intros H. unfold passesConnectors.
  set (hit := fun sel =>
                existsb (fun t => (t =? sel)%string)
                        (map Connector.type (Charger.connectors c))).
  assert (existsb hit (Filters.connectors f)
          = existsb hit (Filters.connectors g)) as E.
  { destruct (existsb hit (Filters.connectors f)) eqn:Ef,
      (existsb hit (Filters.connectors g)) eqn:Eg; try reflexivity.
    - apply existsb_exists in Ef. destruct Ef as (x & Hx & Hh).
      rewrite (proj2 (existsb_exists hit _)) in Eg; [discriminate|].
      exists x. split; [apply H; assumption | assumption].
    - apply existsb_exists in Eg. destruct Eg as (x & Hx & Hh).
      rewrite (proj2 (existsb_exists hit _)) in Ef; [discriminate|].
      exists x. split; [apply H; assumption | assumption]. }
  destruct (Filters.connectors f) as [|a l], (Filters.connectors g) as [|b m];
    try reflexivity; try exact E.
  - exfalso. apply (H b). left. reflexivity.
  - exfalso. apply (H a). left. reflexivity.
Qed.

(** Property X15.  Toggling a connector name gives a selection without
    duplicates that holds the name exactly when the selection did not, and
    holds any other name exactly when the selection did; no other criterion
    changes.  Toggling the same name twice restores the selection as a set,
    so the effect filters as before. *)
Theorem connector_toggle (localFilters : Filters.t) (name : string) :
  let toggled := FilterPanel.toggleConnector localFilters name in
  let again := FilterPanel.toggleConnector toggled name in
  NoDup (Filters.connectors toggled)
  /\ (In name (Filters.connectors toggled)
      <-> ~ In name (Filters.connectors localFilters))
  /\ (forall other, other <> name ->
        (In other (Filters.connectors toggled)
         <-> In other (Filters.connectors localFilters)))
  /\ (forall other, In other (Filters.connectors again)
                    <-> In other (Filters.connectors localFilters))
  /\ (forall c, passesConnectors again c = passesConnectors localFilters c)
  /\ (forall Math places c,
        passesOperational toggled c = passesOperational localFilters c
        /\ passesAccess toggled c = passesAccess localFilters c
        /\ passesCost toggled c = passesCost localFilters c
        /\ passesSpeed toggled c = passesSpeed localFilters c
        /\ passesWalkingTime Math toggled places c
           = passesWalkingTime Math localFilters places c).
Proof.
  assert (forall f n,
             let t := FilterPanel.toggleConnector f n in
             NoDup (Filters.connectors t)
             /\ forall x, In x (Filters.connectors t) <->
                          (x = n /\ ~ In n (Filters.connectors f))
                          \/ (x <> n /\ In x (Filters.connectors f))) as T.
  { intros f n. cbv zeta. unfold FilterPanel.toggleConnector. simpl.
    destruct (newSet_spec (Filters.connectors f) [] (NoDup_nil _))
      as [Hnd Hin].
    set (current := FilterPanel.newSet (Filters.connectors f) []) in *.
    assert (forall x, In x current <-> In x (Filters.connectors f)) as Hc
      by (intros x; rewrite Hin; simpl; tauto).
    destruct (existsb (String.eqb n) current) eqn:E.
    - apply existsb_eqb in E. split; [apply NoDup_filter; assumption|].
      intros x. rewrite filter_In, negb_true_iff, String.eqb_neq, Hc.
      rewrite Hc in E. tauto.
    - assert (~ In n current) as Hn
        by (intros H; apply existsb_eqb in H; congruence).
      split.
      + apply NoDup_app; [assumption | repeat constructor; intros [] |].
        intros x Hx [<- | []]. contradiction.
      + intros x. rewrite in_app_iff, Hc. rewrite Hc in Hn. simpl.
        destruct (String.eqb_spec x n) as [-> | N]; intuition congruence. }
  cbv zeta.
  destruct (T localFilters name) as [Hnd Hin]. cbv zeta in Hnd, Hin.
  destruct (T (FilterPanel.toggleConnector localFilters name) name)
    as [_ Hin2]. cbv zeta in Hin2.
  assert (forall other,
             In other (Filters.connectors
                         (FilterPanel.toggleConnector
                            (FilterPanel.toggleConnector localFilters name)
                            name))
             <-> In other (Filters.connectors localFilters)) as Hagain.
  { intros other. rewrite Hin2, !Hin.
    destruct (String.eqb_spec other name) as [-> | N];
      [|intuition congruence].
    destruct (in_dec string_dec name (Filters.connectors localFilters));
      intuition congruence. }
  split; [assumption|]. split; [rewrite Hin; intuition congruence|].
  split; [intros other N; rewrite Hin; intuition congruence|].
  split; [assumption|].
  split; [intros c; apply passesConnectors_ext; assumption|].
  intros Math places c. repeat split.
Qed.

End ConnectorSelection.

(** ** Chargers of places beyond the radius *)

Section BeyondTheRadius.

Variable Math : MathObject.

Lemma NoDup_map_In {A B : Type} (f : A -> B) (l : list A) (a b : A) :
  NoDup (map f l) -> In a l -> In b l -> f a = f b -> a = b.
Proof.
  induction l as [|x l IH]; [contradiction|].
  simpl. intros Hnd Ha Hb E. apply NoDup_cons_iff in Hnd.
  destruct Hnd as [Hx Hnd].
  destruct Ha as [-> | Ha], Hb as [-> | Hb]; auto.
  - exfalso. apply Hx. rewrite E. apply in_map. assumption.
  - exfalso. apply Hx. rewrite <- E. apply in_map. assumption.
Qed.

(** Places of distinct ids stay so when some are dropped. *)
Lemma distinct_ids_filter (keep : Place.t -> bool) (places : list Place.t) :
  NoDup (map Place.place_id places) ->
  NoDup (map Place.place_id (filter keep places)).
Proof.
  induction places as [|x rest IH]; simpl; [auto|].
  intros Hnd. apply NoDup_cons_iff in Hnd. destruct Hnd as [Hx Hnd].
  destruct (keep x); simpl; [|auto].
  constructor; [|auto].
  intros H. apply Hx. apply in_map_iff in H. destruct H as (y & E & Hy).
  apply filter_In in Hy. apply in_map_iff. exists y. tauto.
Qed.

(** The first place, among places of distinct ids, that carries the id a
    charger is stamped with. *)
Lemma find_stamped (l : list Place.t) (place : Place.t) (d : float)
  (c : Charger.t) (keep : Place.t -> bool) :
  NoDup (map Place.place_id l) -> In place l ->
  JS.Array_find
    (fun p => attachedTo (Place.place_id p)
                (stamp (Place.place_id place) d c))
    (filter keep l)
  = if keep place then Some place else None.
Proof.
  intros Hnd Hin. unfold JS.Array_find.
  assert (forall p, In p l ->
                    attachedTo (Place.place_id p)
                      (stamp (Place.place_id place) d c) = true ->
                    p = place) as Huniq.
  { intros p Hp Ha. unfold attachedTo in Ha. simpl in Ha.
    apply String.eqb_eq in Ha.
    apply (NoDup_map_In Place.place_id l); auto. }
  destruct (List.find _ (filter keep l)) as [p|] eqn:F.
  - apply find_some in F. destruct F as [Hp Ha].
    apply filter_In in Hp. destruct Hp as [Hp Hk].
    rewrite (Huniq p Hp Ha) in *. rewrite Hk. reflexivity.
  - destruct (keep place) eqn:K; [|reflexivity].
    pose proof (find_none _ _ F place) as N. simpl in N.
    unfold attachedTo in N. simpl in N. rewrite String.eqb_refl in N.
    discriminate N. apply filter_In. auto.
Qed.

End BeyondTheRadius.

(** Property X16.  Chargers are fetched and correlated for every place the
    search returned, also for the places that the radius test then drops.
    Under the criteria of the load, the walking predicate of the filter
    effect passes a loaded charger exactly when the place it is attached to
    is among the places shown; the chargers of a dropped place are loaded
    and then filtered out. *)
Theorem loaded_charger_walkable_iff_listed (Math : MathObject)
  (filters : Filters.t) (placeResults : list Place.t)
  (distanceResults : list DistanceResult.t)
  (chargerResults : list (list OCM.Charger.t)) (c : Charger.t) :
  let outcome := loadDataFromLocation Math filters placeResults
                   distanceResults chargerResults in
  NoDup (map Place.place_id placeResults) ->
  List.length chargerResults = List.length placeResults ->
  JS.truthy (Filters.walkingTime filters) = true ->
  In c (loadedChargers outcome) ->
  (passesWalkingTime Math filters (loadedPlaces outcome) c = true
   <-> exists p, In p (loadedPlaces outcome)
                 /\ Charger.placeId c = Some (Place.place_id p)).
Proof.
  cbv zeta. intros Hnd Hlen Hwt. unfold loadDataFromLocation.
  fold (searchRadiusMeters filters).
  set (distanceMap := buildDistanceMap placeResults distanceResults 0 []).
  change (fun place : Place.t =>
            withinRadius (searchRadiusMeters filters)
              (distanceValueOf distanceMap (Place.place_id place)))
    with (placeWithinRadius filters distanceMap).
  set (within := placeWithinRadius filters distanceMap).
  destruct placeResults as [|p0 ps0]; [intros []|]. cbv beta iota.
  set (placeResults := p0 :: ps0) in *. clearbody placeResults.
  destruct (filter within placeResults) as [|w ws] eqn:EW; [intros []|].
  rewrite <- EW. clear EW w ws.
  rewrite (correlate_all Math _ placeResults chargerResults Hlen).
  fold (walkingThreshold filters).
  set (all := keptForAll Math (walkingThreshold filters) placeResults
                chargerResults).
  set (sorted := JS.Array_sort (byDistance distanceMap)
                   (filter within placeResults)).
  simpl loadedChargers. simpl loadedPlaces.
  intros Hc. apply keptForAll_In in Hc.
  destruct Hc as (place & raws & raw & Hpair & Hraw & Hdist & ->).
  assert (In place placeResults) as Hplace
    by (apply in_combine_l in Hpair; assumption).
  assert (Permutation (map (countChargers all) sorted)
            (map (countChargers all) (filter within placeResults))) as Hperm
    by (apply Permutation_map, Array_sort_perm).
  unfold passesWalkingTime. rewrite Hwt.
  rewrite (find_owner_permuted (countChargers all)
             (filter within placeResults) _ _
             ltac:(reflexivity)
             (distinct_ids_filter _ _ Hnd) Hperm).
  rewrite (find_stamped placeResults place _ _ within Hnd Hplace).
  assert (walkingTimeToDistanceKm (Filters.walkingTime filters)
          = walkingThreshold filters) as ->.
  { unfold walkingThreshold, JS.orNum. rewrite Hwt. reflexivity. }
  destruct (within place) eqn:W; simpl.
  - split; [intros _ | intros _; exact Hdist].
    exists (countChargers all place). split; [|reflexivity].
    apply (Permutation_in _ (Permutation_sym Hperm)).
    apply in_map. apply filter_In. auto.
  - split; [discriminate|]. intros (p & Hp & E). exfalso.
    apply (Permutation_in _ Hperm) in Hp. apply in_map_iff in Hp.
    destruct Hp as (q & <- & Hq). apply filter_In in Hq.
    destruct Hq as [Hq Wq]. simpl in E. injection E as E.
    rewrite (NoDup_map_In Place.place_id placeResults place q Hnd Hplace Hq E)
      in W.
    congruence.
Qed.

(** Two places, the second one beyond the radius of ten miles: its charger
    is loaded, the place is not shown, and the walking predicate rejects
    the charger. *)
Lemma loaded_charger_walkable_iff_listed_witness :
  let outcome := loadDataFromLocation approxMath defaultFilters hereAndThere
                   farDistances twoChargerLists in
  map Place.place_id (loadedPlaces outcome) = ["here"%string]
  /\ map Charger.placeId (loadedChargers outcome)
     = [Some "here"%string; Some "there"%string]
  /\ exists c,
       In c (loadedChargers outcome)
       /\ Charger.placeId c = Some "there"%string
       /\ (passesWalkingTime approxMath defaultFilters (loadedPlaces outcome) c
           = true
           <-> exists p, In p (loadedPlaces outcome)
                         /\ Charger.placeId c = Some (Place.place_id p)).
Proof.
  cbv zeta. split; [vm_compute; reflexivity|].
  split; [vm_compute; reflexivity|].
  eexists. split; [vm_compute; right; left; reflexivity|].
  split; [reflexivity|].
  apply (loaded_charger_walkable_iff_listed approxMath defaultFilters
           hereAndThere farDistances twoChargerLists).
  - simpl. repeat constructor; simpl; intuition discriminate.
  - reflexivity.
  - reflexivity.
  - vm_compute. right. left. reflexivity.
Defined.

(** ** The signature guard *)

Section SignatureGuard.

Variable Math : MathObject.

Lemma signatureOf_counts (u : Place.t -> Place.t) (l : list Place.t) :
  (forall p, In p l ->
             Place.place_id (u p) = Place.place_id p
             /\ Place.chargerCount (u p) = Place.chargerCount p) ->
  signatureOf (map u l) = signatureOf l.
Proof.
  intros H. unfold signatureOf. f_equal. rewrite map_map.
  apply map_ext_in. intros p Hp. destruct (H p Hp) as [-> ->]. reflexivity.
Qed.

(** Property X17.  The guard compares ids and counts only.  When the places
    are in order and already show, under the criteria in force, the counts
    that the effect computes, the effect leaves the places as they are: it
    replaces the filtered chargers, and the featured charger of every place
    stays the one computed under the criteria before. *)
Theorem unchanged_signature_keeps_places (st : State) :
  let filtered :=
    applyCriteria Math (filters st) (places st) (chargers st) in
  places st <> [] -> chargers st <> [] ->
  ascending (sortKey (distances st)) (places st) ->
  previousPlacesSignature st = signatureOf (places st) ->
  (forall p, In p (places st) ->
     Place.chargerCount p
     = Some (List.length
               (filter (attachedTo (Place.place_id p)) filtered))) ->
  places (applyFilters Math st) = places st
  /\ filteredChargers (applyFilters Math st) = filtered.
Proof.
  cbv zeta. intros Hp Hc Hasc Hsig Hcount.
  rewrite applyFilters_run by assumption. cbv zeta.
  set (filtered := applyCriteria Math (filters st) (places st) (chargers st))
    in *.
  assert (resortPlaces st filtered = map (updatePlace filtered) (places st))
    as ->.
  { unfold resortPlaces.
    apply (Array_sort_fixed _ _ (byDistance_key (distances st))).
    apply ascending_map; [reflexivity | assumption]. }
  rewrite signatureOf_counts.
  - rewrite Hsig, String.eqb_refl. simpl. auto.
  - intros p Hin. split; [reflexivity|].
    rewrite (Hcount p Hin). reflexivity.
Qed.

End SignatureGuard.

(** One place with a free and a paid charger, shown under ['free'], the
    criterion then set to ['paid']: the count stays 1, the place is left as
    it is, and it goes on featuring the free charger, which is no longer
    among the filtered chargers. *)
Lemma unchanged_signature_keeps_places_witness :
  let st := withFilters paidOnly shownFree in
  places (applyFilters approxMath st) = places st
  /\ map Charger.id (filteredChargers (applyFilters approxMath st))
     = [Some 2%Z]
  /\ map (fun p => option_map Charger.id (Place.featuredCharger p))
         (places (applyFilters approxMath st))
     = [Some (Some 1%Z)].
Proof.
  cbv zeta.
  assert (places (applyFilters approxMath (withFilters paidOnly shownFree))
          = places (withFilters paidOnly shownFree)) as E.
  { refine (proj1 (unchanged_signature_keeps_places approxMath
                     (withFilters paidOnly shownFree) _ _ _ _ _)).
    - vm_compute. discriminate.
    - vm_compute. discriminate.
    - unfold ascending. repeat constructor.
    - vm_compute. reflexivity.
    - intros p Hp. vm_compute in Hp. destruct Hp as [<- | []].
      vm_compute. reflexivity. }
  split; [exact E|]. split; vm_compute; reflexivity.
Defined.

(** ** The correlation step of a load *)

(** Claim C5.  When every place comes with its list of raw chargers, the
    correlation step returns, place after place, the normalised chargers
    whose Haversine distance from the place is at most the threshold: the
    kilometres walked in [filters.walkingTime] minutes, or in 5 minutes when
    that budget is [0] or [NaN].  Each one is stamped with the id of that
    place and its distance from it, and nothing else is returned.  When
    place ids are distinct, the chargers attached to an id are those kept
    from the list of that place.  As soon as a place passes the radius test,
    the load goes through: it hands on exactly these chargers and shows the
    places that pass the test, each with [chargerCount] recomputed as the
    number of kept chargers attached to its id, that is, for distinct ids,
    the number of chargers kept from the place's own list.  When no place
    passes the test the load ends early and hands on no charger. *)
Theorem correlation_keeps_walkable_chargers (Math : MathObject)
  (filters : Filters.t) (placeResults : list Place.t)
  (distanceResults : list DistanceResult.t)
  (chargerResults : list (list OCM.Charger.t)) :
  List.length chargerResults = List.length placeResults ->
  let minutes :=
    if JS.truthy (Filters.walkingTime filters)
    then Filters.walkingTime filters else 5%float in
  let thr := walkingTimeToDistanceKm minutes in
  let kept := keptForAll Math thr placeResults chargerResults in
  let distanceMap := buildDistanceMap placeResults distanceResults 0 [] in
  let within := placeWithinRadius filters distanceMap in
  let outcome := loadDataFromLocation Math filters placeResults
                   distanceResults chargerResults in
  correlate Math thr (map locationOf placeResults) placeResults 0 chargerResults
  = Some kept
  /\ (forall c,
        In c kept <->
        exists place raws raw,
          In (place, raws) (combine placeResults chargerResults)
          /\ In raw raws
          /\ (calculateDistance Math (locationOf place)
                (Charger.location (parseChargerData raw)) <=? thr)%float = true
          /\ c = stamp (Place.place_id place)
                   (calculateDistance Math (locationOf place)
                      (Charger.location (parseChargerData raw)))
                   (parseChargerData raw))
  /\ (forall c,
        In c kept ->
        exists place,
          In place placeResults
          /\ Charger.placeId c = Some (Place.place_id place)
          /\ Charger.distanceFromPlace c =
             Some (calculateDistance Math (locationOf place) (Charger.location c))
          /\ (calculateDistance Math (locationOf place) (Charger.location c)
              <=? thr)%float = true)
  /\ (NoDup (map Place.place_id placeResults) ->
      forall place raws,
        In (place, raws) (combine placeResults chargerResults) ->
        filter (attachedTo (Place.place_id place)) kept
        = keptFor Math thr place raws)
  /\ ((exists p, In p placeResults /\ within p = true) ->
      exists places,
        outcome = Loaded distanceMap places kept
        /\ Permutation (map Place.place_id places)
             (map Place.place_id (filter within placeResults))
        /\ (forall p, In p places ->
              Place.chargerCount p
              = Some (List.length
                        (filter (attachedTo (Place.place_id p)) kept)))
        /\ (NoDup (map Place.place_id placeResults) ->
            forall p, In p places ->
              exists original raws,
                In (original, raws) (combine placeResults chargerResults)
                /\ Place.place_id original = Place.place_id p
                /\ Place.chargerCount p
                   = Some (List.length (keptFor Math thr original raws))))
  /\ ((forall p, In p placeResults -> within p = false) ->
      outcome = NoLocationsFound \/ outcome = NoLocationsWithinRadius).
Proof.
  intros Hlen minutes thr kept distanceMap within outcome.
  assert (thr = walkingThreshold filters) as Ethr by reflexivity.
  split; [apply correlate_all; assumption|].
  split; [apply keptForAll_In|].
  split.
  { intros c Hc. apply keptForAll_In in Hc.
    destruct Hc as (place & raws & raw & Hin & _ & Hd & ->).
    exists place. split; [exact (in_combine_l _ _ _ _ Hin)|].
    repeat split. exact Hd. }
  split; [intros Hnd place raws Hin; apply count_attached; assumption|].
  subst outcome. unfold loadDataFromLocation.
  fold (searchRadiusMeters filters). fold distanceMap.
  change (fun place : Place.t =>
            withinRadius (searchRadiusMeters filters)
              (distanceValueOf distanceMap (Place.place_id place)))
    with within.
  split.
  - intros (q & Hq & Hwq).
    destruct placeResults as [|p0 ps0]; [contradiction|].
    cbv beta iota.
    set (placeResults := p0 :: ps0) in *. clearbody placeResults.
    assert (In q (filter within placeResults)) as Hf
      by (apply filter_In; auto).
    destruct (filter within placeResults) as [|w ws] eqn:EW; [contradiction|].
    rewrite <- EW in *. clear Hf.
    fold (walkingThreshold filters). rewrite <- Ethr.
    rewrite (correlate_all Math thr placeResults chargerResults Hlen).
    fold kept.
    set (sorted := JS.Array_sort (byDistance distanceMap)
                     (filter within placeResults)).
    assert (Permutation sorted (filter within placeResults)) as Hperm
      by apply Array_sort_perm.
    exists (map (countChargers kept) sorted).
    split; [reflexivity|]. split; [|split].
    + rewrite map_map. simpl. apply Permutation_map. assumption.
    + intros p Hp. apply in_map_iff in Hp. destruct Hp as (r & <- & Hr).
      reflexivity.
    + intros Hnd p Hp. apply in_map_iff in Hp. destruct Hp as (r & <- & Hr).
      apply (Permutation_in _ Hperm) in Hr. apply filter_In in Hr.
      destruct Hr as [Hr _].
      destruct (In_nth_error _ _ Hr) as (n & Hn).
      assert (n < List.length chargerResults) as Hlt
        by (rewrite Hlen; apply nth_error_Some; congruence).
      apply nth_error_Some in Hlt.
      destruct (nth_error chargerResults n) as [raws|] eqn:Hc;
        [clear Hlt | congruence].
      assert (In (r, raws) (combine placeResults chargerResults)) as Hin.
      { clear - Hn Hc. revert chargerResults n Hn Hc.
        induction placeResults as [|a l IH]; intros [|b m] [|n] Hn Hc;
          simpl in *; try discriminate.
        - left. congruence.
        - right. eapply IH; eassumption. }
      exists r, raws. split; [assumption|]. split; [reflexivity|].
      simpl. f_equal. f_equal. apply count_attached; assumption.
  - intros Hnone.
    destruct placeResults as [|p0 ps0]; [left; reflexivity|].
    cbv beta iota.
    set (placeResults := p0 :: ps0) in *. clearbody placeResults.
    destruct (filter within placeResults) as [|w ws] eqn:EW;
      [right; reflexivity|].
    assert (In w (filter within placeResults)) as Hw
      by (rewrite EW; left; reflexivity).
    apply filter_In in Hw. destruct Hw as [Hw Ht].
    rewrite (Hnone w Hw) in Ht. discriminate.
Qed.

(** Claim C5 on three places with one charger each and the five-minute
    budget: the load goes through, keeps the chargers 1 and 3, and counts
    1, 0 and 1 chargers for the three places. *)
Lemma correlation_keeps_walkable_chargers_witness :
  List.length threeChargerLists = List.length threePlaces
  /\ (exists places,
        loadDataFromLocation approxMath defaultFilters threePlaces
          threeDistances threeChargerLists
        = Loaded (buildDistanceMap threePlaces threeDistances 0 []) places
            (keptForAll approxMath (walkingTimeToDistanceKm 5) threePlaces
               threeChargerLists)
        /\ (forall p, In p places ->
              Place.chargerCount p
              = Some (List.length
                        (filter (attachedTo (Place.place_id p))
                           (keptForAll approxMath (walkingTimeToDistanceKm 5)
                              threePlaces threeChargerLists)))))
  /\ map Charger.id
       (keptForAll approxMath (walkingTimeToDistanceKm 5) threePlaces
          threeChargerLists)
     = [Some 1%Z; Some 3%Z]
  /\ map Place.chargerCount
       (loadedPlaces
          (loadDataFromLocation approxMath defaultFilters threePlaces
             threeDistances threeChargerLists))
     = [Some 1; Some 0; Some 1].
Proof.
  split; [reflexivity|]. split.
  - destruct (proj1 (proj2 (proj2 (proj2 (proj2
               (correlation_keeps_walkable_chargers approxMath defaultFilters
                  threePlaces threeDistances threeChargerLists eq_refl)))))
               (ex_intro _ (placeAt "place1" 37 (-122))
                  (conj (or_introl eq_refl) eq_refl)))
      as (places & E & _ & Hcount & _).
    exists places. split; [exact E | exact Hcount].
  - split; vm_compute; reflexivity.
Defined.

(** ** Malformed records *)

Section MalformedRecords.

Local Open Scope float_scope.





Variable Math : MathObject.


End MalformedRecords.





(** ** The states of the component *)

Section Reachability.

Variable Math : MathObject.

Lemma emitted_walkingTime (f : Filters.t) :
  FilterPanel.emitted f -> JS.truthy (Filters.walkingTime f) = true.
Proof.
  induction 1 as [|f change _ IH]; [reflexivity|].
  destruct change; simpl; try assumption.
  unfold JS.orNum. destruct (JS.truthy parsed) eqn:E; [assumption|reflexivity].
Qed.

Lemma safeRun_mono (b : bool) (run : list Update) :
  safeRun b run -> safeRun true run.
Proof.
  revert b. induction run as [|u rest IH]; intros b; simpl; [trivial|].
  destruct u; try apply IH.
  - tauto.
  - intros [_ H]. split; [reflexivity | exact (IH _ H)].
Qed.

Lemma safeRun_any (b : bool) (run : list Update) :
  safeRun false run -> safeRun b run.
Proof. destruct b; [apply safeRun_mono | trivial]. Qed.

Lemma Array_sort_nonempty {A : Type} (cmp : A -> A -> float) (l : list A) :
  l <> [] -> JS.Array_sort cmp l <> [].
Proof.
  intros H E. apply H. apply length_zero_iff_nil.
  rewrite <- (Array_sort_length cmp l), E. reflexivity.
Qed.

Lemma loadUpdates_safe (filters : Filters.t) (placeResults : list Place.t)
  (distanceResults : list DistanceResult.t)
  (chargerResults : list (list OCM.Charger.t)) :
  safeRun false
    (loadUpdates Math filters placeResults distanceResults chargerResults).
Proof.
  unfold loadUpdates.
  destruct placeResults as [|p0 ps0]; [exact I|].
  cbv beta iota zeta.
  set (placeResults := p0 :: ps0) in *. clearbody placeResults.
  cbn [safeRun].
  match goal with
  | |- context [filter ?f placeResults] =>
      destruct (filter f placeResults) as [|w ws] eqn:EW
  end; [exact I|].
  rewrite <- EW.
  match goal with
  | |- context [JS.Array_sort ?cmp ?l] =>
      assert (JS.Array_sort cmp l <> []) as Hs
        by (apply Array_sort_nonempty; rewrite EW; discriminate);
      set (sortedPlaces := JS.Array_sort cmp l) in *
  end.
  cbn [safeRun]. split; [assumption|].
  destruct (correlate Math _ _ placeResults 0 chargerResults) as [all|];
    cbn [safeRun]; [|exact I].
  split; [reflexivity|]. split; [|exact I].
  intros E. apply map_eq_nil in E. contradiction.
Qed.

Lemma hasPlaces_true (st : State) : hasPlaces st = true <-> places st <> [].
Proof.
  unfold hasPlaces. destruct (places st); split; congruence.
Qed.

Lemma applyFilters_places_length (st : State) :
  List.length (places (applyFilters Math st)) = List.length (places st).
Proof.
  unfold applyFilters.
  destruct (places st) as [|p ps] eqn:EP, (chargers st) as [|c cs] eqn:EC;
    cbn [places]; rewrite ?EP; try reflexivity.
  match goal with |- context [if ?b then _ else _] => destruct b end;
    cbn [places]; rewrite ?EP; try reflexivity.
  unfold resortPlaces. rewrite Array_sort_length, length_map, EP.
  reflexivity.
Qed.

Lemma applyFilters_hasPlaces (st : State) :
  hasPlaces (applyFilters Math st) = hasPlaces st.
Proof.
  pose proof (applyFilters_places_length st) as L. unfold hasPlaces.
  destruct (places (applyFilters Math st)), (places st);
    simpl in L; congruence.
Qed.

Lemma applyFilters_frame (st : State) :
  chargers (applyFilters Math st) = chargers st
  /\ filters (applyFilters Math st) = filters st.
Proof.
  unfold applyFilters.
  destruct (places st) eqn:EP, (chargers st) eqn:EC;
    try (split; simpl; congruence).
  match goal with |- context [if ?b then _ else _] => destruct b end;
    split; simpl; congruence.
Qed.

Lemma step_invariant (cfg cfg' : Config) :
  invariant cfg -> step Math cfg cfg' -> invariant cfg'.
Proof.
  intros (Hp & Hw & Hr) Hstep. unfold invariant.
  destruct Hstep; cbn [current running] in *.
  - split; [assumption|]. split; [assumption|].
    constructor; [apply safeRun_any, loadUpdates_safe | assumption].
  - apply Forall_app in Hr. destruct Hr as [Hb Hr].
    inversion Hr as [|x l Hu Ha]; subst. clear Hr.
    destruct u; cbn [setState safeRun places chargers filters] in *.
    + split; [assumption|]. split; [assumption|].
      apply Forall_app. split; [assumption|]. constructor; assumption.
    + destruct Hu as [Hne Hrest].
      split; [left; assumption|]. split; [assumption|].
      assert (hasPlaces
                {| places := newPlaces; chargers := chargers st;
                   filteredChargers := filteredChargers st;
                   distances := distances st; filters := filters st;
                   previousPlacesSignature := previousPlacesSignature st |}
              = true) as -> by (apply hasPlaces_true; assumption).
      apply Forall_app. split.
      * eapply Forall_impl; [|exact Hb]. intros r. apply safeRun_mono.
      * constructor; [assumption|].
        eapply Forall_impl; [|exact Ha]. intros r. apply safeRun_mono.
    + destruct Hu as [Hset Hrest].
      split; [left; apply hasPlaces_true; assumption|].
      split; [assumption|].
      apply Forall_app. split; [assumption|]. constructor; assumption.
    + split; [assumption|]. split; [assumption|].
      apply Forall_app. split; [assumption|]. constructor; assumption.
  - destruct (applyFilters_frame st) as [Ec Ef].
    rewrite Ec, Ef, applyFilters_hasPlaces.
    split; [|split; assumption].
    destruct Hp as [Hp | Hp]; [left | right; assumption].
    apply hasPlaces_true. rewrite applyFilters_hasPlaces.
    apply hasPlaces_true. assumption.
  - split; [assumption|].
    split; [apply emitted_walkingTime; assumption | assumption].
Qed.

Lemma reachable_invariant (cfg : Config) :
  reachableConfig Math cfg -> invariant cfg.
Proof.
  induction 1 as [|cfg cfg' _ IH Hstep].
  - split; [right; reflexivity|]. split; [reflexivity | constructor].
  - exact (step_invariant cfg cfg' IH Hstep).
Qed.

(** A run under way can make all its calls. *)
Lemma reachable_run (run : list Update) :
  forall (st : State) (runs : list (list Update)),
    reachableConfig Math {| current := st; running := run :: runs |} ->
    reachableConfig Math
      {| current := afterUpdates run st; running := [] :: runs |}.
Proof.
  induction run as [|u rest IH]; intros st runs H; [exact H|].
  apply (IH (setState u st)).
  apply (reachable_step Math _ _ H).
  exact (step_update Math st [] runs u rest).
Qed.

Lemma reachable_after_load (st : State) (filters : Filters.t)
  (placeResults : list Place.t) (distanceResults : list DistanceResult.t)
  (chargerResults : list (list OCM.Charger.t)) :
  reachable Math st ->
  reachable Math
    (afterUpdates
       (loadUpdates Math filters placeResults distanceResults chargerResults)
       st).
Proof.
  intros [runs H]. exists ([] :: runs).
  apply reachable_run. apply (reachable_step Math _ _ H). constructor.
Qed.

Lemma reachable_after_effect (st : State) :
  reachable Math st -> reachable Math (applyFilters Math st).
Proof.
  intros [runs H]. exists runs.
  apply (reachable_step Math _ _ H). constructor.
Qed.

Lemma reachable_after_filters (st : State) (newFilters : Filters.t) :
  FilterPanel.emitted newFilters ->
  reachable Math st -> reachable Math (setFilters newFilters st).
Proof.
  intros He [runs H]. exists runs.
  apply (reachable_step Math _ _ H). constructor. assumption.
Qed.

Lemma reachable_initialState : reachable Math initialState.
Proof. exists []. constructor. Qed.

(** The state a run that goes through leaves is the outcome of the load. *)
Lemma loadUpdates_outcome (st : State) (filters : Filters.t)
  (placeResults : list Place.t) (distanceResults : list DistanceResult.t)
  (chargerResults : list (list OCM.Charger.t))
  (distanceMap : DistanceMap) (shown : list Place.t) (all : list Charger.t) :
  loadDataFromLocation Math filters placeResults distanceResults
    chargerResults = Loaded distanceMap shown all ->
  let st' :=
    afterUpdates
      (loadUpdates Math filters placeResults distanceResults chargerResults)
      st in
  distances st' = distanceMap /\ places st' = shown
  /\ chargers st' = all /\ filteredChargers st' = all
  /\ MapView.filters st' = MapView.filters st.
Proof.
  unfold loadDataFromLocation, loadUpdates.
  destruct placeResults as [|p0 ps0]; [discriminate|].
  cbv beta iota zeta.
  set (placeResults := p0 :: ps0) in *. clearbody placeResults.
  match goal with
  | |- context [filter ?f placeResults] =>
      destruct (filter f placeResults) as [|w ws] eqn:EW
  end; [discriminate|].
  rewrite <- EW.
  destruct (correlate Math _ _ placeResults 0 chargerResults) as [cs|];
    [|discriminate].
  intros [= <- <- <-]. repeat split.
Qed.

(** With the walking test active, the predicates of the effect are those of
    the claim. *)
Lemma passesAll_every (f : Filters.t) (places : list Place.t) (c : Charger.t) :
  JS.truthy (Filters.walkingTime f) = true ->
  passesAll Math f places c = true <-> passesEvery Math f places c.
Proof.
  intros Hw. rewrite passesAll_iff. unfold survives, passesEvery.
  intuition.
Qed.

End Reachability.

(** On a state with a charger and no place, which no run of the component
    reaches, the effect returns early and leaves the list shown as it was,
    although the charger has no owning place. *)
Example guard_leaves_list_unchanged :
  filteredChargers (applyFilters approxMath noPlaceState)
  = filteredChargers noPlaceState
  /\ filter (passesAll approxMath (filters noPlaceState) (places noPlaceState))
       (chargers noPlaceState) = []
  /\ ~ reachable approxMath noPlaceState.
Proof.
  split; [reflexivity|]. split; [reflexivity|].
  intros [runs H]. apply reachable_invariant in H.
  destruct H as ([H | H] & _); [apply H; reflexivity | discriminate H].
Qed.

(** Claim C4.  In every state the component reaches, the effect sets the
    filtered output to the charger list filtered, in order, by the
    conjunction of the predicates: a charger is in it exactly when it is
    loaded and passes [operationalOnly] (status [true], neither [false] nor
    [null]), the access, cost and speed criteria other than ['all']
    (equality), a non-empty connector set (some connector type in the set),
    and lies within the walking threshold of the first place that carries
    its [placeId], the distance being computed anew.  (The walking time of
    a reachable state is never [0]: the panel replaces [0] by 5; and its
    place set is empty only when its charger set is.) *)
Theorem filter_keeps_surviving_chargers (Math : MathObject) (st : State) :
  reachable Math st ->
  filteredChargers (applyFilters Math st)
  = filter (passesAll Math (filters st) (places st)) (chargers st)
  /\ forall c,
       In c (filteredChargers (applyFilters Math st)) <->
       In c (chargers st) /\ passesEvery Math (filters st) (places st) c.
Proof.
  intros [runs H]. apply reachable_invariant in H.
  destruct H as (Hp & Hw & _). simpl in Hp, Hw.
  rewrite (applyFilters_filtered Math st Hp).
  split; [reflexivity|].
  intros c. rewrite filter_In, (passesAll_every Math _ _ _ Hw). tauto.
Qed.

(** Claim C4 after a load of the three sample places and the choice of free
    chargers in the panel: the effect shows the one free charger. *)
Lemma filter_keeps_surviving_chargers_witness :
  reachable approxMath (freeAfterLoad approxMath)
  /\ filteredChargers (applyFilters approxMath (freeAfterLoad approxMath))
     = filter (passesAll approxMath (filters (freeAfterLoad approxMath))
                 (places (freeAfterLoad approxMath)))
              (chargers (freeAfterLoad approxMath))
  /\ map Charger.id (chargers (freeAfterLoad approxMath))
     = [Some 1%Z; Some 3%Z]
  /\ map Charger.id
       (filteredChargers (applyFilters approxMath (freeAfterLoad approxMath)))
     = [Some 3%Z].
Proof.
  assert (reachable approxMath (freeAfterLoad approxMath)) as R.
  { apply reachable_after_filters.
    - exact (FilterPanel.emitted_change _ (FilterPanel.Cost CostFree)
               FilterPanel.emitted_default).
    - apply reachable_after_load, reachable_initialState. }
  split; [exact R|].
  split; [exact (proj1 (filter_keeps_surviving_chargers approxMath _ R))|].
  split; vm_compute; reflexivity.
Defined.
